(** * UnderstandingLLMs, notebook "LLM from Scratch - Part 1"

    A shallow embedding of the notebook's model ([MultiheadAttention],
    [Block], [GPT]), of its dataset ([WikiTextDataset]), of the loss of the
    training loop and of the four [generate] functions with their samplers,
    followed by the properties proved about them.

    Tensors of floats are lists of real numbers ([R] of the Standard
    Library): a vector is a [list R], a matrix a list of rows, a batch a
    list of matrices.  A Python exception is a value [Raise e] of the
    [result] monad.  The operations of PyTorch that the notebook calls are
    modelled in [Module Torch] from their documentation. *)

From Stdlib Require Import Reals Lra Lia ZArith QArith Qround String.
From stdpp Require Import base list.

(** ** Python exceptions *)

Module Py.

Inductive exn : Set :=
  | IndexError
  | RuntimeError
  | ValueError
  | ZeroDivisionError.

Inductive result (A : Type) : Type :=
  | Ok (a : A)
  | Raise (e : exn).
Arguments Ok {A} a.
Arguments Raise {A} e.

#[global] Instance result_ret : MRet result := fun A a => Ok a.
#[global] Instance result_bind : MBind result :=
  fun A B f m => match m with Ok a => f a | Raise e => Raise e end.
#[global] Instance result_fmap : FMap result :=
  fun A B f m => match m with Ok a => Ok (f a) | Raise e => Raise e end.

Definition raises {A} (m : result A) : Prop := exists e, m = Raise e.
Definition returns {A} (m : result A) : Prop := exists a, m = Ok a.

(** [l[lo:hi]] for non-negative bounds: out-of-range bounds are clipped. *)
Definition slice {A} (lo hi : nat) (l : list A) : list A :=
  take (hi - lo) (drop lo l).

End Py.

(** ** The PyTorch operations the notebook uses *)

Module Torch.
Import Py.
#[local] Open Scope R_scope.

Abbreviation vec := (list R).
Abbreviation mat := (list (list R)).

#[global] Instance Rle_decision : RelDecision Rle := Rle_dec.
#[global] Instance Rlt_decision : RelDecision Rlt := Rlt_dec.
#[global] Instance Req_decision : EqDecision R := Req_dec_T.

Definition Rsum (v : vec) : R := foldr Rplus 0 v.
Definition dot (x y : vec) : R := Rsum (zip_with Rmult x y).
Definition scale (a : R) (x : vec) : vec := map (Rmult a) x.
Definition vadd (x y : vec) : vec := zip_with Rplus x y.
Definition madd (x y : mat) : mat := zip_with vadd x y.
(** elementwise sum of two [batch, seq, dim] tensors *)
Definition tadd (x y : list mat) : list mat := zip_with madd x y.

(** [nn.Embedding]: row [idx] of the table, [IndexError] out of range. *)
Definition embedding (table : mat) (idx : nat) : result vec :=
  match table !! idx with
  | Some row => Ok row
  | None => Raise IndexError
  end.

(** [nn.Linear]: [y = x W^T + b], [W] of shape [out, in]; [bias = None]
    for [bias=False]. *)
Record Linear : Type := { weight : mat; bias : option vec }.

Definition linear (l : Linear) (x : vec) : vec :=
  let y := map (fun row => dot row x) (weight l) in
  match bias l with
  | Some b => vadd y b
  | None => y
  end.

(** [nn.LayerNorm] over the last dimension, [eps = 1e-5]. *)
Record LayerNorm : Type := { ln_weight : vec; ln_bias : vec }.

Definition ln_eps : R := 1 / 100000.
Definition mean (x : vec) : R := Rsum x / INR (length x).
Definition variance (x : vec) : R :=
  Rsum (map (fun a => (a - mean x) * (a - mean x)) x) / INR (length x).
Definition layer_norm (p : LayerNorm) (x : vec) : vec :=
  vadd (zip_with Rmult
          (map (fun a => (a - mean x) / sqrt (variance x + ln_eps)) x)
          (ln_weight p))
       (ln_bias p).

(** [torch.softmax(x, dim=-1)] and [log_softmax] of one row. *)
Definition softmax (x : vec) : vec :=
  map (fun a => exp a / Rsum (map exp x)) x.
Definition log_softmax (x : vec) : vec :=
  map (fun a => a - ln (Rsum (map exp x))) x.

(** Attention scores after masking: a boolean mask entry [True] replaces
    the score by minus infinity, whose exponential is 0. *)
Inductive score : Type :=
  | NegInf
  | Fin (r : R).

Definition score_exp (s : score) : R :=
  match s with
  | NegInf => 0
  | Fin r => exp r
  end.

Definition masked_fill (row : vec) (m : list bool) : list score :=
  zip_with (fun s (b : bool) => if b then NegInf else Fin s) row m.

Definition softmax_scores (s : list score) : vec :=
  map (fun a => score_exp a / Rsum (map score_exp s)) s.

(** [torch.ones(n, m)], [torch.triu(a, diagonal)], [a.bool()]. *)
Definition ones (n m : nat) : mat := replicate n (replicate m 1).

Definition triu (a : mat) (diagonal : Z) : mat :=
  imap (fun i row =>
          imap (fun j x =>
                  if decide (diagonal <= Z.of_nat j - Z.of_nat i)%Z
                  then x else 0) row) a.

Definition to_bool (a : mat) : list (list bool) :=
  map (map (fun x => if decide (x = 0) then false else true)) a.

(** [nn.MultiheadAttention(embed_dim, num_heads, batch_first=True)] called
    as [mha(x, x, x, attn_mask=attn_mask)] on one batch element [x] of
    shape [L, embed_dim].  [in_proj] maps a position to the concatenation
    of its query, key and value; head [h] owns the coordinates
    [h*d .. h*d+d-1] of each, [d = embed_dim / num_heads]. *)
Record MHA : Type :=
  { embed_dim : nat; num_heads : nat; in_proj : Linear; out_proj : Linear }.

Definition head_dim (m : MHA) : nat := (embed_dim m / num_heads m)%nat.

Definition split_head (d h : nat) (v : vec) : vec :=
  slice (h * d) (h * d + d) v.

Definition queries (m : MHA) (x : mat) : mat :=
  map (fun xi => slice 0 (embed_dim m) (linear (in_proj m) xi)) x.
Definition keys (m : MHA) (x : mat) : mat :=
  map (fun xi => slice (embed_dim m) (2 * embed_dim m) (linear (in_proj m) xi)) x.
Definition values (m : MHA) (x : mat) : mat :=
  map (fun xi => slice (2 * embed_dim m) (3 * embed_dim m) (linear (in_proj m) xi)) x.

(** post-softmax weights of one head: row [i] is the distribution of
    position [i] over the positions [j] *)
Definition head_weights (d : nat) (q k : mat) (attn_mask : list (list bool)) : mat :=
  zip_with
    (fun qi mrow =>
       softmax_scores
         (masked_fill (map (fun kj => dot qi kj / sqrt (INR d)) k) mrow))
    q attn_mask.

(** a 2-D [attn_mask] must have shape [L, L] *)
Definition mask_shape (attn_mask : list (list bool)) (L : nat) : Prop :=
  length attn_mask = L /\ Forall (fun r => length r = L) attn_mask.

#[global] Instance mask_shape_dec attn_mask L : Decision (mask_shape attn_mask L).
Proof. unfold mask_shape. apply _. Defined.

Definition mha_weights (m : MHA) (x : mat) (attn_mask : list (list bool))
  : result (list mat) :=
  if decide (mask_shape attn_mask (length x)) then
    Ok (map (fun h =>
               head_weights (head_dim m)
                 (map (split_head (head_dim m) h) (queries m x))
                 (map (split_head (head_dim m) h) (keys m x))
                 attn_mask)
            (seq 0 (num_heads m)))
  else Raise RuntimeError.

Definition vsum (d : nat) (l : list vec) : vec := foldr vadd (replicate d 0) l.

(** output of one head: position [i] gets the weighted sum of the values *)
Definition attend (d : nat) (w : mat) (v : mat) : mat :=
  map (fun wi => vsum d (zip_with scale wi v)) w.

Definition merge_heads (L : nat) (hs : list mat) : mat :=
  map (fun i => concat (map (fun hm => default [] (hm !! i)) hs)) (seq 0 L).

Definition mha_forward (m : MHA) (x : mat) (attn_mask : list (list bool))
  : result mat :=
  w ← mha_weights m x attn_mask;
  let outs :=
    zip_with (fun h wh =>
                attend (head_dim m) wh (map (split_head (head_dim m) h) (values m x)))
             (seq 0 (num_heads m)) w in
  Ok (map (linear (out_proj m)) (merge_heads (length x) outs)).

(** [torch.argmax(row, dim=-1)]: the index of the first maximal value;
    an empty row has no maximum. *)
Definition indexed (row : vec) : list (nat * R) := imap pair row.

Fixpoint best (c : nat * R) (l : list (nat * R)) : nat * R :=
  match l with
  | [] => c
  | x :: l' => if decide (snd c < snd x) then best x l' else best c l'
  end.

Definition argmax (row : vec) : result nat :=
  match indexed row with
  | [] => Raise IndexError
  | c :: l => Ok (fst (best c l))
  end.

(** [torch.topk(row, k)]: the [k] largest entries with their indices,
    largest first; [k] outside [0, len(row)] is rejected.  Equal values
    are taken lowest index first, the rule of [argmax]; torch states no
    rule for them, so what is said of the index selected among equal
    values is said of this choice only. *)
Fixpoint select (k : nat) (cands : list (nat * R)) : list (nat * R) :=
  match k, cands with
  | S k', c :: l =>
      let b := best c l in
      b :: select k' (filter (fun x => fst x <> fst b) cands)
  | _, _ => []
  end.

Definition topk (row : vec) (k : Z) : result (list (nat * R)) :=
  if decide (0 <= k <= Z.of_nat (length row))%Z
  then Ok (select (Z.to_nat k) (indexed row))
  else Raise RuntimeError.

(** [torch.multinomial(probs, num_samples=1)] on one row.  The row must
    be non-negative with a positive sum.  The random source is a number
    [u] of [[0, 1)]; the draw is the first index at which the cumulative
    sum exceeds [u * sum(probs)]. *)
Fixpoint inverse_cdf (t : R) (p : vec) : nat :=
  match p with
  | [] => 0%nat
  | x :: p' => if decide (t < x) then 0%nat else S (inverse_cdf (t - x) p')
  end.

Definition multinomial (u : R) (probs : vec) : result nat :=
  if decide (Forall (fun p => 0 <= p) probs /\ 0 < Rsum probs)
  then Ok (inverse_cdf (u * Rsum probs) probs)
  else Raise RuntimeError.

(** [x / t] for a tensor [x] and a Python number [t], in exact
    arithmetic.  On floats a division by 0 raises nothing: every entry
    becomes inf, -inf or nan.  [None] stands for such a tensor; softmax
    turns it into nan entries, which [multinomial] rejects.  Floats give
    non-finite entries at some [t] other than 0 too, when [t] rounds to 0
    or a quotient overflows, and round the quotients; exact division does
    neither, so that sampling returns here wherever it does on floats, and
    at more temperatures.  That a call returns is therefore stated under
    [Float32.finite_quotients], or under the hypothesis that the sampler
    returns. *)
Definition div_scalar (x : vec) (t : R) : option vec :=
  if decide (t = 0) then None else Some (map (fun a => a / t) x).

(** [F.cross_entropy(input, target)] with the default mean reduction:
    [input] of shape [N, C], [target] of shape [N] holding class indices. *)
Definition nll (row : vec) (t : nat) : result R :=
  match log_softmax row !! t with
  | Some l => Ok (- l)
  | None => Raise IndexError
  end.

Definition cross_entropy (input : mat) (target : list nat) : result R :=
  if decide (length input = length target) then
    losses ← mapM (fun rt => nll (fst rt) (snd rt)) (zip input target);
    Ok (Rsum losses / INR (length losses))
  else Raise ValueError.

End Torch.

(** ** Model architecture *)

Module MultiheadAttention.
Import Py Torch.

Record t : Type := { context : nat; mha : Torch.MHA; proj : Torch.Linear }.

(** the buffer registered by [__init__] *)
Definition mask (m : t) : list (list bool) :=
  to_bool (triu (ones (context m) (context m)) 1).

(** the mask handed to [self.mha] for an input of [len] positions *)
Definition attn_mask (m : t) (len : nat) : list (list bool) :=
  let seq_len := Nat.min len (context m) in
  map (take seq_len) (take seq_len (mask m)).

(** the post-softmax attention weights of the call, one matrix per head
    (they are computed inside [self.mha]; [need_weights=False] only keeps
    them from being returned) *)
Definition weights (m : t) (x : mat) : result (list mat) :=
  mha_weights (mha m) x (attn_mask m (length x)).

Definition forward_seq (m : t) (x : mat) : result mat :=
  attn_out ← mha_forward (mha m) x (attn_mask m (length x));
  Ok (map (linear (proj m)) attn_out).

Definition forward (m : t) (x : list mat) : result (list mat) :=
  mapM (forward_seq m) x.

End MultiheadAttention.

Module Block.
Import Py Torch.

Record t : Type :=
  { mha : MultiheadAttention.t;
    mlp_fc1 : Linear;
    mlp_fc2 : Linear;
    sa_norm : LayerNorm;
    mlp_norm : LayerNorm }.

Section Activation.
(** [nn.GELU()], x * Phi(x) with Phi the normal distribution function *)
Variable GELU : R -> R.

Definition mlp (b : t) (v : vec) : vec :=
  linear (mlp_fc2 b) (map GELU (linear (mlp_fc1 b) v)).

Definition forward (b : t) (x : list mat) : result (list mat) :=
  a ← MultiheadAttention.forward (mha b) (map (map (layer_norm (sa_norm b))) x);
  let x := tadd x a in
  let x := tadd x (map (map (fun v => mlp b (layer_norm (mlp_norm b) v))) x) in
  Ok x.
End Activation.

End Block.

Record ModelConfig : Type :=
  { vocab : nat; emb_dim : nat; heads : nat; layers : nat; context : nat }.

(** the GPT2 sizes the notebook trains with *)
Definition ModelConfig_default : ModelConfig :=
  {| vocab := Z.to_nat (Qceiling (50257 # 64)) * 64;
     emb_dim := 768; heads := 12; layers := 12; context := 1024 |}.

Module GPT.
Import Py Torch.

Record t : Type :=
  { pos_embedding : mat;
    tok_embedding : mat;
    decoder : list Block.t;
    output : Linear;
    norm : LayerNorm }.

(** an integer tensor of shape [batch, seq_len] *)
Record ids : Type := { batch : nat; seq_len : nat; rows : list (list nat) }.

Definition ids_shaped (x : ids) : Prop :=
  length (rows x) = batch x /\ Forall (fun r => length r = seq_len x) (rows x).

(** [nn.Sequential] *)
Fixpoint sequential (fs : list (list mat -> result (list mat))) (x : list mat)
  : result (list mat) :=
  match fs with
  | [] => Ok x
  | f :: fs' => y ← f x; sequential fs' y
  end.

Section Activation.
Variable GELU : R -> R.

Definition forward (m : t) (x : ids) : result (list mat) :=
  let pos := seq 0 (seq_len x) in
  tok ← mapM (mapM (embedding (tok_embedding m))) (rows x);
  pe ← mapM (embedding (pos_embedding m)) pos;
  let x := map (fun e => madd e pe) tok in
  x ← sequential (map (Block.forward GELU) (decoder m)) x;
  Ok (map (map (fun v => linear (output m) (layer_norm (norm m) v))) x).
End Activation.

(** what [GPT(config)] builds, as far as the shapes that can make a call
    fail are concerned *)
Definition built (c : ModelConfig) (m : t) : Prop :=
  length (pos_embedding m) = context c /\
  length (tok_embedding m) = vocab c /\
  length (weight (output m)) = vocab c /\
  bias (output m) = None /\
  length (decoder m) = layers c /\
  Forall (fun b => MultiheadAttention.context (Block.mha b) = context c) (decoder m).

End GPT.

(** ** Data *)

Module WikiTextDataset.
Import Py.

Record t : Type := { tokens : list nat; max_len : nat }.

Section Tokenizer.
(** [tokenizer.eot_token] *)
Variable eot_token : nat.

Definition getitem (ds : t) (idx : nat) : list nat * list nat :=
  let idx := idx * max_len ds in
  let x := slice idx (idx + max_len ds) (tokens ds) in
  let y := slice (idx + 1) (idx + 1 + max_len ds) (tokens ds) in
  let x := if decide (length x < max_len ds)
           then x ++ replicate (max_len ds - length x) eot_token else x in
  let y := if decide (length y < max_len ds)
           then y ++ replicate (max_len ds - length y) eot_token else y in
  (x, y).
End Tokenizer.

(** [math.ceil(len(self.tokens) / self.max_len)], the quotient taken
    exactly *)
Definition len (ds : t) : result nat :=
  if decide (max_len ds = 0) then Raise ZeroDivisionError
  else Ok (Z.to_nat
             (Qceiling (inject_Z (Z.of_nat (length (tokens ds)))
                        / inject_Z (Z.of_nat (max_len ds))))).

End WikiTextDataset.

(** ** Training loss *)

Module Training.
Import Py Torch.
#[local] Open Scope R_scope.

(** [logits.flatten(0, 1)] and [y.flatten()] *)
Definition flatten01 (logits : list mat) : mat := concat logits.
Definition flatten (y : list (list nat)) : list nat := concat y.

(** [F.cross_entropy(logits.flatten(0, 1), y.flatten())] *)
Definition loss (logits : list mat) (y : list (list nat)) : result R :=
  cross_entropy (flatten01 logits) (flatten y).

Section Activation.
Variable GELU : R -> R.

(** the loss of one step of the training loop *)
Definition step_loss (model : GPT.t) (x y : GPT.ids) : result R :=
  logits ← GPT.forward GELU model x;
  loss logits (GPT.rows y).

Definition evaluate (model : GPT.t) (dl : list (GPT.ids * GPT.ids)) : result R :=
  losses ← mapM (fun xy => step_loss model (fst xy) (snd xy)) dl;
  if decide (length dl = 0%nat) then Raise ZeroDivisionError
  else Ok (Rsum losses / INR (length dl)).
End Activation.

End Training.

(** ** Inference *)

Module Inference.
Import Py Torch.
#[local] Open Scope R_scope.

(** [probs[:, idxs] = vals]: entry [idxs[r][j]] of every row of [probs]
    receives [vals[r][j]], for every [r] and [j]; the writes are taken in
    row-major order. *)
Definition scatter (row : vec) (ivs : list (nat * R)) : vec :=
  foldl (fun acc iv => <[fst iv := snd iv]> acc) row ivs.

Definition put_cols (probs : mat) (idxs : list (list nat)) (vals : mat) : mat :=
  map (fun row => scatter row (zip (concat idxs) (concat vals))) probs.

Definition zeros_like (a : mat) : mat := map (map (fun _ => 0)) a.

Definition topk (logits : mat) (k : Z) : result mat :=
  t ← mapM (fun row => Torch.topk row k) logits;
  let topk_vals := map (map snd) t in
  let topk_idxs := map (map fst) t in
  let probs := zeros_like logits in
  Ok (put_cols probs topk_idxs (map softmax topk_vals)).

(** [logits[:, -1, :]] *)
Definition last_position (logits : list mat) : result mat :=
  mapM (fun m => match last m with
                 | Some v => Ok v
                 | None => Raise IndexError
                 end) logits.

(** [logits / temp].  A tensor with non-finite entries (see [div_scalar])
    is carried as the [RuntimeError] that [multinomial] raises for it; the
    only operation in between that can raise, [torch.topk], raises a
    [RuntimeError] too. *)
Definition div_temp (logits : mat) (temp : R) : result mat :=
  match mapM (fun row => div_scalar row temp) logits with
  | Some l => Ok l
  | None => Raise RuntimeError
  end.

(** The sampling lines of the four [generate] functions, on the logits
    [[batch, vocab]] of the last position; [u] is the random number the
    call consumes.  The result is the column [next_idx]. *)
Definition sample_greedy (logits : mat) : result (list nat) :=
  mapM argmax logits.

Definition sample_softmax (u : R) (logits : mat) : result (list nat) :=
  let probs := map softmax logits in
  mapM (multinomial u) probs.

Definition sample_temperature (temp : R) (u : R) (logits : mat) : result (list nat) :=
  scaled ← div_temp logits temp;
  let probs := map softmax scaled in
  mapM (multinomial u) probs.

(** [k] is the parameter of [topk]; the notebook's [generate] leaves it at
    its default, 5 *)
Definition sample_topk (temp : R) (k : Z) (u : R) (logits : mat) : result (list nat) :=
  scaled ← div_temp logits temp;
  probs ← topk scaled k;
  mapM (multinomial u) probs.

(** [torch.tensor(tokens).unsqueeze(0)] and [torch.cat((a, b), dim=1)] for
    a column [b] *)
Definition unsqueeze0 (l : list nat) : GPT.ids :=
  {| GPT.batch := 1; GPT.seq_len := length l; GPT.rows := [l] |}.

Definition cat1 (a : GPT.ids) (b : list nat) : GPT.ids :=
  {| GPT.batch := GPT.batch a;
     GPT.seq_len := GPT.seq_len a + 1;
     GPT.rows := zip_with (fun r i => r ++ [i]) (GPT.rows a) b |}.

Section Generate.
Variable GELU : R -> R.
(** the tokenizer *)
Variable encode : string -> list nat.
Variable decode : list nat -> string.

(** The loop shared by the four [generate] functions, which differ in
    the sampling lines only.  [n] iterations remain, [t] have been done;
    iteration [t] draws the random number [rng t].  The state is the
    text [prefix] and the tensor [token_ids]. *)
Fixpoint loop (sampler : R -> mat -> result (list nat)) (rng : nat -> R)
    (model : GPT.t) (n t : nat) (prefix : string) (token_ids : GPT.ids)
  : result (string * GPT.ids) :=
  match n with
  | O => Ok (prefix, token_ids)
  | S n' =>
      logits ← GPT.forward GELU model token_ids;
      logits ← last_position logits;
      next_idx ← sampler (rng t) logits;
      loop sampler rng model n' (S t)
           (prefix ++ decode next_idx)%string (cat1 token_ids next_idx)
  end.

Definition run (sampler : R -> mat -> result (list nat)) (rng : nat -> R)
    (model : GPT.t) (prefix : string) (max_new_tokens : nat)
  : result (string * GPT.ids) :=
  loop sampler rng model max_new_tokens 0 prefix (unsqueeze0 (encode prefix)).

(** first version: [argmax] *)
Definition run_greedy (model : GPT.t) (prefix : string) (max_new_tokens : nat) :=
  run (fun _ => sample_greedy) (fun _ => 0) model prefix max_new_tokens.
Definition generate_greedy model prefix max_new_tokens : result string :=
  fst <$> run_greedy model prefix max_new_tokens.

(** second version: [softmax] and [multinomial] *)
Definition run_softmax rng (model : GPT.t) (prefix : string) (max_new_tokens : nat) :=
  run sample_softmax rng model prefix max_new_tokens.
Definition generate_softmax rng model prefix max_new_tokens : result string :=
  fst <$> run_softmax rng model prefix max_new_tokens.

(** third version: [temp] *)
Definition run_temperature rng (model : GPT.t) (prefix : string)
    (max_new_tokens : nat) (temp : R) :=
  run (sample_temperature temp) rng model prefix max_new_tokens.
Definition generate_temperature rng model prefix max_new_tokens temp : result string :=
  fst <$> run_temperature rng model prefix max_new_tokens temp.

(** last version: [topk(logits / temp)], with the default [k=5] *)
Definition run_topk rng (model : GPT.t) (prefix : string)
    (max_new_tokens : nat) (temp : R) :=
  run (sample_topk temp 5) rng model prefix max_new_tokens.
Definition generate rng model prefix max_new_tokens temp : result string :=
  fst <$> run_topk rng model prefix max_new_tokens temp.
End Generate.

End Inference.

(** ** The specification's own words, for comparison with the code *)

Module Spec.
Import Py Torch.
#[local] Open Scope R_scope.

(** right padding with the end-of-text token up to length [L] *)
Definition right_pad (eot L : nat) (s : list nat) : list nat :=
  s ++ replicate (L - length s) eot.

(** the negative log-probability that the softmax of the logits [row]
    gives to the token [t] *)
Definition neg_log_prob (row : vec) (t : nat) : R :=
  - ln (nth t (softmax row) 0).

(** the mean of [neg_log_prob] over all batch elements and all positions
    of a target tensor [y] of shape [[batch, seq_len]] *)
Definition mean_neg_log_prob (logits : list mat) (y : GPT.ids) : R :=
  Rsum (zip_with (fun m ys => Rsum (zip_with neg_log_prob m ys))
          logits (GPT.rows y))
  / INR (GPT.batch y * GPT.seq_len y).

End Spec.

(** ** Shapes *)

(** two sequences, or two batches of sequences, of the same lengths *)
Definition same_len {A B} (x : list A) (y : list B) : Prop := length y = length x.
Definition same_shape {A B} (x : list (list A)) (y : list (list B)) : Prop :=
  Forall2 same_len x y.


(** ** The range of floats *)

Module Float32.
#[local] Open Scope R_scope.

(** [2^-126] is the smallest positive normal number of float32: a
    temperature of at least this magnitude does not round to 0, and its
    reciprocal is finite. *)
Definition smallest_normal : R := / 2 ^ 126.

(** a bound on the exact quotients under which the float quotients,
    computed by a division or by a product with the reciprocal, stay
    below the largest float32, [(2 - 2^-23) * 2^127] *)
Definition quotient_bound : R := 2 ^ 126.

(** every entry of [row / temp] is a finite float *)
Definition finite_quotients (row : list R) (temp : R) : Prop :=
  smallest_normal <= Rabs temp
  /\ Forall (fun a => Rabs (a / temp) <= quotient_bound) row.

End Float32.

(** ** The forward pass of one batch element

    What the model computes for a single sequence of the batch, written
    out for comparison with the batched code. *)

Module PerSequence.
Import Py Torch.

Section Activation.
Variable GELU : R -> R.

Definition block (b : Block.t) (s : list (list R)) : result (list (list R)) :=
  a ← MultiheadAttention.forward_seq (Block.mha b)
         (map (layer_norm (Block.sa_norm b)) s);
  let s := madd s a in
  Ok (madd s (map (fun v => Block.mlp GELU b (layer_norm (Block.mlp_norm b) v)) s)).

Fixpoint decoder (bs : list Block.t) (s : list (list R)) : result (list (list R)) :=
  match bs with
  | [] => Ok s
  | b :: bs' => y ← block b s; decoder bs' y
  end.

Definition head (m : GPT.t) (s : list (list R)) : list (list R) :=
  map (fun v => linear (GPT.output m) (layer_norm (GPT.norm m) v)) s.

(** the logits of the sequence [row], [pe] being the positional
    embeddings of its positions *)
Definition forward (m : GPT.t) (pe : list (list R)) (row : list nat)
  : result (list (list R)) :=
  tok ← mapM (embedding (GPT.tok_embedding m)) row;
  h ← decoder (GPT.decoder m) (madd tok pe);
  Ok (head m h).
End Activation.

End PerSequence.

(** the first [L] positions of a batch of token ids *)
Definition truncate (L : nat) (x : GPT.ids) : GPT.ids :=
  {| GPT.batch := GPT.batch x;
     GPT.seq_len := Nat.min L (GPT.seq_len x);
     GPT.rows := map (take L) (GPT.rows x) |}.

(** a pair of input and target ids as the loaders yield them: both of
    shape [[B, L]], with token ids below [V] *)
Definition batch_ok (B L V : nat) (xy : GPT.ids * GPT.ids) : Prop :=
  GPT.ids_shaped (fst xy) /\ GPT.ids_shaped (snd xy)
  /\ GPT.batch (fst xy) = B /\ GPT.seq_len (fst xy) = L
  /\ GPT.batch (snd xy) = B /\ GPT.seq_len (snd xy) = L
  /\ Forall (Forall (fun t => (t < V)%nat)) (GPT.rows (fst xy))
  /\ Forall (Forall (fun t => (t < V)%nat)) (GPT.rows (snd xy)).

(** the sum of the negative log-probabilities of one batch *)
Definition batch_sum (logits : list (list (list R))) (y : GPT.ids) : R :=
  Torch.Rsum (zip_with (fun m ys => Torch.Rsum (zip_with Spec.neg_log_prob m ys))
          logits (GPT.rows y)).


(** ** The validation loader *)

Module DataLoader.
Import Py.

Section Tokenizer.
Variable eot_token : nat.

(** the default collate function: the inputs of the items stacked into
    one tensor, their targets into another *)
Definition collate (L : nat) (items : list (list nat * list nat))
  : GPT.ids * GPT.ids :=
  ({| GPT.batch := length items; GPT.seq_len := L; GPT.rows := map fst items |},
   {| GPT.batch := length items; GPT.seq_len := L; GPT.rows := map snd items |}).

(** The batches of one pass over
    [DataLoader(ds, batch_size=batch_size, shuffle=False, drop_last=True)]:
    batch [b] stacks the items [b * batch_size .. b * batch_size + batch_size - 1],
    and the items left over at the end are dropped.  A [batch_size] of 0
    is rejected. *)
Definition batches (ds : WikiTextDataset.t) (batch_size : nat)
  : result (list (GPT.ids * GPT.ids)) :=
  if decide (batch_size = 0) then Raise ValueError
  else
    n ← WikiTextDataset.len ds;
    Ok (map (fun b =>
               collate (WikiTextDataset.max_len ds)
                 (map (WikiTextDataset.getitem eot_token ds)
                    (seq (b * batch_size) batch_size)))
            (seq 0 (n / batch_size))).
End Tokenizer.

End DataLoader.

(** ** Counting the parameters *)

Module Parameters.
Import Py Torch.

(** [p.numel()] of a matrix, of the tensors of a layer, of a module *)
Definition numel (a : list (list R)) : nat := sum_list (map length a).

Definition of_linear (l : Linear) : nat :=
  numel (weight l) + from_option length 0 (bias l).

Definition of_layer_norm (p : LayerNorm) : nat :=
  length (ln_weight p) + length (ln_bias p).

Definition of_mha (m : MHA) : nat := of_linear (in_proj m) + of_linear (out_proj m).

(** [mask] is a buffer, not a parameter *)
Definition of_attention (m : MultiheadAttention.t) : nat :=
  of_mha (MultiheadAttention.mha m) + of_linear (MultiheadAttention.proj m).

Definition of_block (b : Block.t) : nat :=
  of_attention (Block.mha b)
  + of_linear (Block.mlp_fc1 b) + of_linear (Block.mlp_fc2 b)
  + of_layer_norm (Block.sa_norm b) + of_layer_norm (Block.mlp_norm b).

(** [count_parameters(model)]: the total it prints, every parameter
    being trainable *)
Definition count_parameters (model : GPT.t) : nat :=
  numel (GPT.pos_embedding model) + numel (GPT.tok_embedding model)
  + sum_list (map of_block (GPT.decoder model))
  + of_linear (GPT.output model) + of_layer_norm (GPT.norm model).

(** The shapes of the tensors that the constructors allocate. *)
Definition mat_shape (r c : nat) (a : list (list R)) : Prop :=
  length a = r /\ Forall (fun v => length v = c) a.

(** [nn.Linear(n_in, n_out)], with its bias *)
Definition linear_shape (n_in n_out : nat) (l : Linear) : Prop :=
  mat_shape n_out n_in (weight l)
  /\ exists b, bias l = Some b /\ length b = n_out.

Definition layer_norm_shape (n : nat) (p : LayerNorm) : Prop :=
  length (ln_weight p) = n /\ length (ln_bias p) = n.

(** [Block(emb_dim, heads, context)] *)
Definition block_shape (c : ModelConfig) (b : Block.t) : Prop :=
  MultiheadAttention.context (Block.mha b) = context c
  /\ embed_dim (MultiheadAttention.mha (Block.mha b)) = emb_dim c
  /\ num_heads (MultiheadAttention.mha (Block.mha b)) = heads c
  /\ linear_shape (emb_dim c) (3 * emb_dim c)
       (in_proj (MultiheadAttention.mha (Block.mha b)))
  /\ linear_shape (emb_dim c) (emb_dim c)
       (out_proj (MultiheadAttention.mha (Block.mha b)))
  /\ linear_shape (emb_dim c) (emb_dim c) (MultiheadAttention.proj (Block.mha b))
  /\ linear_shape (emb_dim c) (4 * emb_dim c) (Block.mlp_fc1 b)
  /\ linear_shape (4 * emb_dim c) (emb_dim c) (Block.mlp_fc2 b)
  /\ layer_norm_shape (emb_dim c) (Block.sa_norm b)
  /\ layer_norm_shape (emb_dim c) (Block.mlp_norm b).

(** [GPT(config)] *)
Definition initialised (c : ModelConfig) (m : GPT.t) : Prop :=
  mat_shape (context c) (emb_dim c) (GPT.pos_embedding m)
  /\ mat_shape (vocab c) (emb_dim c) (GPT.tok_embedding m)
  /\ length (GPT.decoder m) = layers c
  /\ Forall (block_shape c) (GPT.decoder m)
  /\ mat_shape (vocab c) (emb_dim c) (weight (GPT.output m))
  /\ bias (GPT.output m) = None
  /\ layer_norm_shape (emb_dim c) (GPT.norm m).

End Parameters.

(** ** The training loop *)

Module TrainingLoop.
Import Py Torch.

Section Loop.
Variable GELU : R -> R.
Variable encode : string -> list nat.
Variable decode : list nat -> string.

(** The optimizer: its state, and the parameters and state that
    [optimizer.zero_grad(); loss.backward(); optimizer.step()] leave for
    the model, the optimizer state and the batch of the step. *)
Variable Opt : Type.
Variable update : GPT.t -> Opt -> GPT.ids -> GPT.ids -> GPT.t * Opt.

Record state : Type := { model : GPT.t; opt : Opt; losses : list R }.

(** the body of [if i % log_freq == 0]: the validation loss is recorded
    and a sample is generated (with the first version of [generate] and
    its default of 10 new tokens); the checkpoint written in between is
    left out *)
Definition log (val_dl : list (GPT.ids * GPT.ids)) (prefix : string) (st : state)
  : result state :=
  val_loss ← Training.evaluate GELU (model st) val_dl;
  _ ← Inference.generate_greedy GELU encode decode (model st) prefix 10;
  Ok {| model := model st; opt := opt st; losses := losses st ++ [val_loss] |}.

(** one iteration of the inner loop, for batch number [i] of the epoch *)
Definition step (log_freq : nat) (val_dl : list (GPT.ids * GPT.ids))
    (prefix : string) (st : state) (i : nat) (xy : GPT.ids * GPT.ids)
  : result state :=
  st ← (if decide (log_freq = 0) then Raise ZeroDivisionError
        else if decide (i mod log_freq = 0) then log val_dl prefix st
        else Ok st);
  logits ← GPT.forward GELU (model st) (fst xy);
  _ ← Training.loss logits (GPT.rows (snd xy));
  let mo := update (model st) (opt st) (fst xy) (snd xy) in
  Ok {| model := fst mo; opt := snd mo; losses := losses st |}.

(** [for i, (x, y) in enumerate(train_dl)], from batch number [i] on *)
Fixpoint epoch (log_freq : nat) (val_dl : list (GPT.ids * GPT.ids))
    (prefix : string) (st : state) (i : nat) (train_dl : list (GPT.ids * GPT.ids))
  : result state :=
  match train_dl with
  | [] => Ok st
  | xy :: rest =>
      st' ← step log_freq val_dl prefix st i xy;
      epoch log_freq val_dl prefix st' (S i) rest
  end.

(** [for epoch in range(epochs)], from epoch number [e] on; [train_dl e]
    is the sequence of batches that the shuffling loader yields in epoch
    [e] *)
Fixpoint train (log_freq : nat) (val_dl : list (GPT.ids * GPT.ids))
    (prefix : string) (train_dl : nat -> list (GPT.ids * GPT.ids))
    (epochs e : nat) (st : state) : result state :=
  match epochs with
  | O => Ok st
  | S k =>
      st' ← epoch log_freq val_dl prefix st 0 (train_dl e);
      train log_freq val_dl prefix train_dl k (S e) st'
  end.
End Loop.

End TrainingLoop.

(** ** A small model instance, used to run the definitions *)

Module Examples.
Import Py Torch.
#[local] Open Scope R_scope.

Definition dense (w : mat) (b : vec) : Linear := {| weight := w; bias := Some b |}.
Definition unit_norm : LayerNorm := {| ln_weight := [1]; ln_bias := [0] |}.

(** one head of dimension 1 over a context of 2 positions *)
Definition attention : MultiheadAttention.t :=
  {| MultiheadAttention.context := 2;
     MultiheadAttention.mha :=
       {| embed_dim := 1; num_heads := 1;
          in_proj := dense [[1]; [1]; [1]] [0; 0; 0];
          out_proj := dense [[1]] [0] |};
     MultiheadAttention.proj := dense [[1]] [0] |}.

Definition block : Block.t :=
  {| Block.mha := attention;
     Block.mlp_fc1 := dense [[1]; [1]; [1]; [1]] [0; 0; 0; 0];
     Block.mlp_fc2 := dense [[1; 1; 1; 1]] [0];
     Block.sa_norm := unit_norm;
     Block.mlp_norm := unit_norm |}.

Definition config : ModelConfig :=
  {| vocab := 6; emb_dim := 1; heads := 1; layers := 1; context := 2 |}.

Definition model : GPT.t :=
  {| GPT.pos_embedding := [[0]; [1]];
     GPT.tok_embedding := [[0]; [1]; [2]; [3]; [4]; [5]];
     GPT.decoder := [block];
     GPT.output := {| weight := [[1]; [2]; [3]; [4]; [5]; [6]]; bias := None |};
     GPT.norm := unit_norm |}.

(** a tokenizer of one-letter words: every character is the token 1 *)
Fixpoint encode (s : string) : list nat :=
  match s with
  | EmptyString => []
  | String _ s' => 1%nat :: encode s'
  end.

Fixpoint decode (l : list nat) : string :=
  match l with
  | [] => EmptyString
  | _ :: l' => String (Ascii.ascii_of_nat 97) (decode l')
  end.

(** a batch of two sequences of two tokens, with its targets *)
Definition batch : GPT.ids * GPT.ids :=
  ({| GPT.batch := 2; GPT.seq_len := 2; GPT.rows := [[1; 0]; [5; 3]]%nat |},
   {| GPT.batch := 2; GPT.seq_len := 2; GPT.rows := [[0; 4]; [3; 2]]%nat |}).

(** the same model over a context of 12 positions *)
Definition attention12 : MultiheadAttention.t :=
  {| MultiheadAttention.context := 12;
     MultiheadAttention.mha := MultiheadAttention.mha attention;
     MultiheadAttention.proj := MultiheadAttention.proj attention |}.

Definition config12 : ModelConfig :=
  {| vocab := 6; emb_dim := 1; heads := 1; layers := 1; context := 12 |}.

Definition model12 : GPT.t :=
  {| GPT.pos_embedding := replicate 12 [0];
     GPT.tok_embedding := GPT.tok_embedding model;
     GPT.decoder :=
       [{| Block.mha := attention12;
           Block.mlp_fc1 := Block.mlp_fc1 block;
           Block.mlp_fc2 := Block.mlp_fc2 block;
           Block.sa_norm := unit_norm;
           Block.mlp_norm := unit_norm |}];
     GPT.output := GPT.output model;
     GPT.norm := unit_norm |}.

End Examples.

(** * Properties *)

Import Py Torch.

(** ** The exception monad *)

Lemma bind_Ok {A B : Type} (m : result A) (f : A -> result B) (b : B) :
  m ≫= f = Ok b -> exists a, m = Ok a /\ f a = Ok b.
Proof. destruct m as [a|e]; simpl; [eauto | discriminate]. Qed.

Section Result.
Context {A B : Type}.
Implicit Types (f : A -> result B) (l : list A) (k : list B).

Lemma mapM_Ok_Forall2 f l k :
  mapM f l = Ok k -> Forall2 (fun x y => f x = Ok y) l k.
Proof.
  revert k. induction l as [|x l IH]; intros k H; simpl in H.
  - injection H as <-. constructor.
  - apply bind_Ok in H as (y & Hy & H).
    apply bind_Ok in H as (k' & Hk' & H).
    injection H as <-. constructor; auto.
Qed.

Lemma mapM_Ok_length f l k : mapM f l = Ok k -> length k = length l.
Proof.
  intros H. symmetry. eapply Forall2_length, mapM_Ok_Forall2, H.
Qed.

Lemma mapM_Ok_intro f l k :
  Forall2 (fun x y => f x = Ok y) l k -> mapM f l = Ok k.
Proof.
  induction 1 as [|x y l k Hxy _ IH]; simpl; [reflexivity|].
  rewrite Hxy. simpl. rewrite IH. reflexivity.
Qed.

Lemma mapM_returns f l :
  Forall (fun x => returns (f x)) l -> returns (mapM f l).
Proof.
  induction 1 as [|x l [y Hy] _ [k Hk]]; simpl.
  - now exists [].
  - exists (y :: k). rewrite Hy. simpl. rewrite Hk. reflexivity.
Qed.

(** a loop over [l] whose body can only raise [e] raises [e] as soon as
    one element does *)
Lemma mapM_Raise f l (e : exn) :
  Forall (fun x => returns (f x) \/ f x = Raise e) l ->
  Exists (fun x => f x = Raise e) l ->
  mapM f l = Raise e.
Proof.
  induction 1 as [|x l Hx Hl IH]; intros Hex.
  - inversion Hex.
  - simpl. destruct Hx as [[y Hy]|Hx]; [|now rewrite Hx].
    rewrite Hy. simpl.
    inversion Hex as [? ? Hx|? ? Hex']; subst; [congruence|].
    now rewrite (IH Hex').
Qed.

Lemma mapM_returns_or_raises f l (e : exn) :
  Forall (fun x => returns (f x) \/ f x = Raise e) l ->
  returns (mapM f l) \/ mapM f l = Raise e.
Proof.
  induction 1 as [|x l Hx Hl IH]; simpl.
  - left. now exists [].
  - destruct Hx as [[y Hy]|Hx]; [|right; now rewrite Hx].
    rewrite Hy. simpl.
    destruct IH as [[k Hk]|IH]; [left|right].
    + exists (y :: k). now rewrite Hk.
    + now rewrite IH.
Qed.

Lemma mapM_only_raises f l (e e' : exn) :
  Forall (fun x => returns (f x) \/ f x = Raise e) l ->
  mapM f l = Raise e' -> e' = e.
Proof.
  induction 1 as [|x l Hx Hl IH]; simpl; intros H; [discriminate|].
  destruct Hx as [[y Hy]|Hx]; [|rewrite Hx in H; simpl in H; congruence].
  rewrite Hy in H. simpl in H.
  destruct (mapM f l) as [k|e'']; simpl in H; [discriminate|].
  injection H as <-. now apply IH.
Qed.
End Result.

(** ** The dataset *)

Section Dataset.
Context (eot : nat).

Abbreviation right_pad := (Spec.right_pad eot).

Lemma slice_lookup {A} (lo hi : nat) (l : list A) (j : nat) :
  j < hi - lo -> slice lo hi l !! j = l !! (lo + j).
Proof.
  intros Hj. unfold slice.
  rewrite lookup_take_lt by exact Hj. apply lookup_drop.
Qed.

Lemma slice_length {A} (lo hi : nat) (l : list A) :
  length (slice lo hi l) = Nat.min (hi - lo) (length l - lo).
Proof. unfold slice. rewrite length_take, length_drop. reflexivity. Qed.

Lemma pad_branch (L : nat) (s : list nat) :
  (if decide (length s < L) then s ++ replicate (L - length s) eot else s)
  = right_pad L s.
Proof.
  unfold Spec.right_pad. destruct (decide (length s < L)) as [|Hge]; [reflexivity|].
  replace (L - length s) with 0 by lia. simpl. now rewrite app_nil_r.
Qed.

Lemma right_pad_length (L : nat) (s : list nat) :
  length s <= L -> length (right_pad L s) = L.
Proof.
  intros H. unfold Spec.right_pad. rewrite length_app, length_replicate. lia.
Qed.

Lemma right_pad_lookup (L : nat) (s : list nat) (j : nat) :
  j < L -> right_pad L s !! j = Some (default eot (s !! j)).
Proof.
  intros Hj. unfold Spec.right_pad.
  destruct (decide (j < length s)) as [Hlt|Hge].
  - rewrite lookup_app_l by exact Hlt.
    destruct (lookup_lt_is_Some_2 s j Hlt) as [a Ha]. now rewrite Ha.
  - rewrite lookup_app_r by lia.
    rewrite (lookup_ge_None_2 s j) by lia. simpl.
    apply lookup_replicate_2. lia.
Qed.

Lemma getitem_unfold (ds : WikiTextDataset.t) (i : nat) :
  let L := WikiTextDataset.max_len ds in
  let toks := WikiTextDataset.tokens ds in
  WikiTextDataset.getitem eot ds i
  = (right_pad L (slice (i * L) (i * L + L) toks),
     right_pad L (slice (i * L + 1) (i * L + 1 + L) toks)).
Proof.
  intros L toks. unfold WikiTextDataset.getitem. fold L toks.
  now rewrite !pad_branch.
Qed.

(** the ceiling of the exact quotient, on natural numbers *)
Lemma ceil_quotient (T L : nat) :
  L <> 0 ->
  let n := Z.to_nat (Qceiling (inject_Z (Z.of_nat T) / inject_Z (Z.of_nat L))) in
  T <= n * L /\ (forall m, T <= m * L -> n <= m).
Proof.
  intros HL n.
  set (q := (inject_Z (Z.of_nat T) / inject_Z (Z.of_nat L))%Q) in *.
  assert (Hq : (q == Z.of_nat T # Pos.of_nat L)%Q).
  { unfold q, Qdiv, Qinv, inject_Z. simpl.
    destruct L as [|L']; [congruence|].
    simpl. unfold Qeq, Qmult. simpl.
    rewrite Pos.of_nat_succ. lia. }
  unfold n. rewrite (Qceiling_comp _ _ Hq). clear n.
  set (c := Qceiling (Z.of_nat T # Pos.of_nat L)).
  assert (Hup := Qle_ceiling (Z.of_nat T # Pos.of_nat L)).
  assert (Hlo := Qceiling_lt (Z.of_nat T # Pos.of_nat L)).
  fold c in Hup, Hlo.
  unfold Qle, Qlt, inject_Z in Hup, Hlo. simpl in Hup, Hlo.
  assert (HP : Z.pos (Pos.of_nat L) = Z.of_nat L).
  { destruct L; [congruence|]. rewrite <- Pos.of_nat_succ. lia. }
  rewrite HP in Hup, Hlo.
  assert (Hc0 : (0 <= c)%Z) by nia.
  split.
  - apply Nat2Z.inj_le. rewrite Nat2Z.inj_mul.
    rewrite Z2Nat.id by exact Hc0. lia.
  - intros m Hm. apply Nat2Z.inj_le.
    rewrite Z2Nat.id by exact Hc0.
    apply Nat2Z.inj_le in Hm. rewrite Nat2Z.inj_mul in Hm. nia.
Qed.

(** C9.  For a dataset over [T] tokens with stride [L] and a valid
    index [i] (below the number of items), item [i] is the pair of
    [tokens[i*L : i*L+L]] and [tokens[i*L+1 : i*L+1+L]], each padded on
    the right with the end-of-text token to length [L]: entry [j] of
    the input is token [i*L+j], of the target token [i*L+1+j], and the
    end-of-text token past the end of the corpus.  The number of items
    is the ceiling of [T / L], the least [n] with [T <= n * L]. *)
Theorem getitem_slices_padded (ds : WikiTextDataset.t) (n i : nat) :
  let L := WikiTextDataset.max_len ds in
  let toks := WikiTextDataset.tokens ds in
  WikiTextDataset.len ds = Ok n ->
  i < n ->
  WikiTextDataset.getitem eot ds i
    = (right_pad L (slice (i * L) (i * L + L) toks),
       right_pad L (slice (i * L + 1) (i * L + 1 + L) toks))
  /\ length (fst (WikiTextDataset.getitem eot ds i)) = L
  /\ length (snd (WikiTextDataset.getitem eot ds i)) = L
  /\ (forall j, j < L ->
        fst (WikiTextDataset.getitem eot ds i) !! j
          = Some (default eot (toks !! (i * L + j)))
        /\ snd (WikiTextDataset.getitem eot ds i) !! j
          = Some (default eot (toks !! (i * L + 1 + j))))
  /\ (length toks <= n * L /\ forall m, length toks <= m * L -> n <= m).
Proof.
  intros L toks Hlen Hi.
  assert (HL : L <> 0).
  { unfold WikiTextDataset.len in Hlen. fold L in Hlen.
    destruct (decide (L = 0)); [discriminate|assumption]. }
  rewrite getitem_unfold. fold L toks. simpl.
  split; [reflexivity|].
  split; [apply right_pad_length; rewrite slice_length; lia|].
  split; [apply right_pad_length; rewrite slice_length; lia|].
  split.
  - intros j Hj. split.
    + rewrite right_pad_lookup by exact Hj.
      rewrite slice_lookup by lia. reflexivity.
    + rewrite right_pad_lookup by exact Hj.
      rewrite slice_lookup by lia. reflexivity.
  - unfold WikiTextDataset.len in Hlen. fold L toks in Hlen.
    destruct (decide (L = 0)); [congruence|].
    injection Hlen as <-. apply ceil_quotient. exact HL.
Qed.
End Dataset.

Lemma getitem_slices_padded_witness :
  WikiTextDataset.getitem 9
    {| WikiTextDataset.tokens := [1; 2; 3; 4; 5]; WikiTextDataset.max_len := 2 |} 2
  = (Spec.right_pad 9 2 (slice 4 6 [1; 2; 3; 4; 5]),
     Spec.right_pad 9 2 (slice 5 7 [1; 2; 3; 4; 5])).
Proof.
  pose proof (getitem_slices_padded 9
    {| WikiTextDataset.tokens := [1; 2; 3; 4; 5]; WikiTextDataset.max_len := 2 |}
    3 2 eq_refl ltac:(lia)) as H.
  exact (proj1 H).
Defined.

(** the notebook's vocabulary: 50257 rounded up to a multiple of 64 *)
Example default_vocab : Z.of_nat (vocab ModelConfig_default) = 50304%Z.
Proof. vm_compute. reflexivity. Qed.

(** five tokens with stride 2: three items, the last one padded *)
Example getitem_last :
  WikiTextDataset.getitem 9
    {| WikiTextDataset.tokens := [1; 2; 3; 4; 5]; WikiTextDataset.max_len := 2 |} 2
  = ([5; 9], [9; 9]).
Proof. reflexivity. Qed.

Example len_five_by_two :
  WikiTextDataset.len
    {| WikiTextDataset.tokens := [1; 2; 3; 4; 5]; WikiTextDataset.max_len := 2 |}
  = Ok 3.
Proof. reflexivity. Qed.

(** ** More on the dataset *)

Section DatasetItems.
Context (eot : nat).
Abbreviation item ds i := (WikiTextDataset.getitem eot ds i).

Lemma item_input_lookup (ds : WikiTextDataset.t) (i j : nat) :
  j < WikiTextDataset.max_len ds ->
  fst (item ds i) !! j
  = Some (default eot (WikiTextDataset.tokens ds !! (i * WikiTextDataset.max_len ds + j))).
Proof.
  intros Hj. rewrite getitem_unfold. simpl.
  rewrite right_pad_lookup by exact Hj. rewrite slice_lookup by lia. reflexivity.
Qed.

Lemma item_target_lookup (ds : WikiTextDataset.t) (i j : nat) :
  j < WikiTextDataset.max_len ds ->
  snd (item ds i) !! j
  = Some (default eot
            (WikiTextDataset.tokens ds !! (i * WikiTextDataset.max_len ds + 1 + j))).
Proof.
  intros Hj. rewrite getitem_unfold. simpl.
  rewrite right_pad_lookup by exact Hj. rewrite slice_lookup by lia. reflexivity.
Qed.

(** The target of an item is its input shifted by one position, and the
    last target is the first input of the next item, padding included. *)
Theorem target_is_next_input (ds : WikiTextDataset.t) (i j : nat) :
  j < WikiTextDataset.max_len ds ->
  snd (item ds i) !! j
  = if decide (S j < WikiTextDataset.max_len ds)
    then fst (item ds i) !! S j
    else fst (item ds (S i)) !! 0.
Proof.
  intros Hj. rewrite item_target_lookup by exact Hj.
  destruct (decide (S j < WikiTextDataset.max_len ds)) as [Hs|Hs].
  - rewrite item_input_lookup by exact Hs. do 3 f_equal. lia.
  - rewrite item_input_lookup by lia. do 3 f_equal. lia.
Qed.

Lemma len_bounds (ds : WikiTextDataset.t) (n : nat) :
  WikiTextDataset.len ds = Ok n ->
  WikiTextDataset.max_len ds <> 0
  /\ length (WikiTextDataset.tokens ds) <= n * WikiTextDataset.max_len ds
  /\ forall m, length (WikiTextDataset.tokens ds) <= m * WikiTextDataset.max_len ds ->
               n <= m.
Proof.
  unfold WikiTextDataset.len. intros H.
  destruct (decide (WikiTextDataset.max_len ds = 0)) as [|HL]; [discriminate|].
  injection H as <-. split; [exact HL|]. now apply ceil_quotient.
Qed.

(** Every item but the last is cut out of the corpus whole: its input and
    its target are the two slices themselves, of full length, and hold no
    padding. *)
Theorem inner_items_unpadded (ds : WikiTextDataset.t) (n i : nat) :
  let L := WikiTextDataset.max_len ds in
  let toks := WikiTextDataset.tokens ds in
  WikiTextDataset.len ds = Ok n -> S i < n ->
  item ds i = (take L (drop (i * L) toks), take L (drop (i * L + 1) toks))
  /\ length (take L (drop (i * L) toks)) = L
  /\ length (take L (drop (i * L + 1) toks)) = L.
Proof.
  intros L toks Hlen Hi.
  destruct (len_bounds ds n Hlen) as (HL & _ & Hmin). fold L toks in HL, Hmin.
  assert (HT : S i * L < length toks).
  { destruct (decide (length toks <= S i * L)) as [Hle|]; [|lia].
    apply Hmin in Hle. lia. }
  simpl in HT.
  assert (H1 : length (take L (drop (i * L) toks)) = L)
    by (rewrite length_take, length_drop; lia).
  assert (H2 : length (take L (drop (i * L + 1) toks)) = L)
    by (rewrite length_take, length_drop; lia).
  split; [|auto].
  rewrite getitem_unfold. fold L toks. unfold slice, Spec.right_pad.
  replace (i * L + L - i * L) with L by lia.
  replace (i * L + 1 + L - (i * L + 1)) with L by lia.
  rewrite H1, H2, Nat.sub_diag. simpl. now rewrite !app_nil_r.
Qed.

(** An index at or past the end of the corpus raises nothing: the item
    is a pair of sequences of padding only. *)
Theorem item_past_end_is_padding (ds : WikiTextDataset.t) (i : nat) :
  length (WikiTextDataset.tokens ds) <= i * WikiTextDataset.max_len ds ->
  item ds i = (replicate (WikiTextDataset.max_len ds) eot,
               replicate (WikiTextDataset.max_len ds) eot).
Proof.
  intros H. rewrite getitem_unfold. unfold slice, Spec.right_pad.
  rewrite !drop_ge by lia. rewrite !take_nil. simpl.
  now rewrite Nat.sub_0_r.
Qed.

Lemma inputs_of_whole_items (ds : WikiTextDataset.t) (k : nat) :
  let L := WikiTextDataset.max_len ds in
  k * L <= length (WikiTextDataset.tokens ds) ->
  concat (map (fun i => fst (item ds i)) (seq 0 k))
  = take (k * L) (WikiTextDataset.tokens ds).
Proof.
  intros L. induction k as [|k IH]; intros Hk; [reflexivity|].
  rewrite seq_S, map_app, concat_app, IH by (simpl in Hk; lia).
  cbn [map concat Nat.add]. rewrite app_nil_r, getitem_unfold. cbn [fst]. fold L.
  unfold slice, Spec.right_pad.
  replace (k * L + L - k * L) with L by lia.
  rewrite length_take, length_drop.
  replace (L - L `min` (length (WikiTextDataset.tokens ds) - k * L)) with 0
    by (simpl in Hk; lia).
  simpl. rewrite app_nil_r, take_take_drop. f_equal. lia.
Qed.

(** Read one after the other, the inputs of all the items are the corpus
    followed by the padding of the last item; the first [T] tokens are
    the corpus again. *)
Theorem inputs_cover_corpus (ds : WikiTextDataset.t) (n : nat) :
  let L := WikiTextDataset.max_len ds in
  let toks := WikiTextDataset.tokens ds in
  WikiTextDataset.len ds = Ok n ->
  concat (map (fun i => fst (item ds i)) (seq 0 n))
    = toks ++ replicate (n * L - length toks) eot
  /\ take (length toks) (concat (map (fun i => fst (item ds i)) (seq 0 n))) = toks.
Proof.
  intros L toks Hlen.
  destruct (len_bounds ds n Hlen) as (HL & Hup & Hmin). fold L toks in HL, Hup, Hmin.
  assert (Hcat : concat (map (fun i => fst (item ds i)) (seq 0 n))
                 = toks ++ replicate (n * L - length toks) eot).
  { destruct n as [|k].
    - simpl in *. assert (length toks = 0) by lia.
      destruct toks; [reflexivity|discriminate].
    - assert (Hk : k * L < length toks).
      { destruct (decide (length toks <= k * L)) as [Hle|]; [|lia].
        apply Hmin in Hle. lia. }
      rewrite seq_S, map_app, concat_app.
      cbn [map concat Nat.add].
      rewrite (inputs_of_whole_items ds k) by (fold L toks; lia).
      rewrite app_nil_r, getitem_unfold. cbn [fst]. fold L toks.
      unfold slice, Spec.right_pad.
      replace (k * L + L - k * L) with L by lia.
      rewrite (take_ge (drop (k * L) toks))
        by (rewrite length_drop; simpl in Hup; lia).
      rewrite length_drop, app_assoc, take_drop. f_equal. f_equal.
      simpl in Hup. lia. }
  split; [exact Hcat|].
  rewrite Hcat, take_app_length. reflexivity.
Qed.
End DatasetItems.

Lemma target_is_next_input_witness :
  snd (WikiTextDataset.getitem 9
         {| WikiTextDataset.tokens := [1; 2; 3; 4; 5]; WikiTextDataset.max_len := 2 |} 0)
    !! 1
  = fst (WikiTextDataset.getitem 9
           {| WikiTextDataset.tokens := [1; 2; 3; 4; 5]; WikiTextDataset.max_len := 2 |} 1)
      !! 0.
Proof.
  apply (target_is_next_input 9
           {| WikiTextDataset.tokens := [1; 2; 3; 4; 5]; WikiTextDataset.max_len := 2 |}
           0 1).
  simpl. lia.
Defined.

Lemma inner_items_unpadded_witness :
  WikiTextDataset.getitem 9
    {| WikiTextDataset.tokens := [1; 2; 3; 4; 5]; WikiTextDataset.max_len := 2 |} 1
  = (take 2 (drop 2 [1; 2; 3; 4; 5]), take 2 (drop 3 [1; 2; 3; 4; 5])).
Proof.
  exact (proj1 (inner_items_unpadded 9
           {| WikiTextDataset.tokens := [1; 2; 3; 4; 5]; WikiTextDataset.max_len := 2 |}
           3 1 eq_refl ltac:(lia))).
Defined.

Lemma item_past_end_is_padding_witness :
  WikiTextDataset.getitem 9
    {| WikiTextDataset.tokens := [1; 2; 3; 4; 5]; WikiTextDataset.max_len := 2 |} 3
  = ([9; 9], [9; 9]).
Proof.
  apply (item_past_end_is_padding 9
           {| WikiTextDataset.tokens := [1; 2; 3; 4; 5]; WikiTextDataset.max_len := 2 |} 3).
  simpl. lia.
Defined.

Lemma inputs_cover_corpus_witness :
  concat (map (fun i => fst (WikiTextDataset.getitem 9
                 {| WikiTextDataset.tokens := [1; 2; 3; 4; 5];
                    WikiTextDataset.max_len := 2 |} i)) (seq 0 3))
  = [1; 2; 3; 4; 5] ++ replicate (3 * 2 - 5) 9.
Proof.
  exact (proj1 (inputs_cover_corpus 9
           {| WikiTextDataset.tokens := [1; 2; 3; 4; 5]; WikiTextDataset.max_len := 2 |}
           3 eq_refl)).
Defined.

(** ** Causal attention *)

Section Attention.
#[local] Open Scope R_scope.
Variable m : MultiheadAttention.t.
Abbreviation ctx := (MultiheadAttention.context m).

Lemma mask_length : length (MultiheadAttention.mask m) = ctx.
Proof.
  unfold MultiheadAttention.mask, to_bool, triu, ones.
  now rewrite length_map, length_imap, length_replicate.
Qed.

(** entry [(i, j)] of the buffer is [True] exactly above the diagonal *)
Lemma mask_lookup (i j : nat) :
  (i < ctx)%nat -> (j < ctx)%nat ->
  exists row, MultiheadAttention.mask m !! i = Some row
              /\ length row = ctx
              /\ row !! j = Some (bool_decide (i < j)%nat).
Proof.
  intros Hi Hj. unfold MultiheadAttention.mask, to_bool, triu, ones.
  eexists. split; [|split].
  - rewrite list_lookup_fmap, list_lookup_imap, lookup_replicate_2 by exact Hi.
    reflexivity.
  - now rewrite length_map, length_imap, length_replicate.
  - rewrite list_lookup_fmap, list_lookup_imap, lookup_replicate_2 by exact Hj.
    simpl. f_equal.
    destruct (decide (1 <= Z.of_nat j - Z.of_nat i)%Z) as [Hd|Hd].
    + rewrite bool_decide_eq_true_2 by lia.
      destruct (decide (1 = 0)) as [H10|_]; [lra|reflexivity].
    + rewrite bool_decide_eq_false_2 by lia.
      destruct (decide (0 = 0)) as [_|H00]; [reflexivity|congruence].
Qed.

Lemma attn_mask_shape (L : nat) :
  (L <= ctx)%nat -> mask_shape (MultiheadAttention.attn_mask m L) L.
Proof.
  intros HL. unfold mask_shape, MultiheadAttention.attn_mask.
  rewrite Nat.min_l by exact HL. split.
  - rewrite length_map, length_take, mask_length. lia.
  - apply Forall_forall. intros r Hr.
    apply list_elem_of_fmap in Hr as (r' & -> & Hr').
    apply elem_of_take in Hr' as (i & Hr' & Hi).
    destruct (mask_lookup i 0) as (row & Hrow & Hlen & _); [lia..|].
    rewrite Hrow in Hr'. injection Hr' as <-.
    rewrite length_take. lia.
Qed.

Lemma attn_mask_lookup (L i j : nat) :
  (L <= ctx)%nat -> (i < L)%nat -> (j < L)%nat ->
  exists row, MultiheadAttention.attn_mask m L !! i = Some row
              /\ row !! j = Some (bool_decide (i < j)%nat).
Proof.
  intros HL Hi Hj. unfold MultiheadAttention.attn_mask.
  rewrite Nat.min_l by exact HL.
  destruct (mask_lookup i j) as (row & Hrow & _ & Hj'); [lia..|].
  exists (take L row). split.
  - rewrite list_lookup_fmap, lookup_take_lt, Hrow by exact Hi. reflexivity.
  - rewrite lookup_take_lt by exact Hj. exact Hj'.
Qed.

(** a masked score has weight 0 after the softmax *)
Lemma softmax_scores_masked (s : list score) (j : nat) :
  s !! j = Some NegInf -> softmax_scores s !! j = Some 0.
Proof.
  intros H. unfold softmax_scores. rewrite list_lookup_fmap, H. simpl.
  f_equal. unfold Rdiv. apply Rmult_0_l.
Qed.

Lemma head_weights_shape (d : nat) (q k : mat) (am : list (list bool)) (L : nat) :
  length q = L -> length k = L -> mask_shape am L ->
  length (head_weights d q k am) = L
  /\ Forall (fun r => length r = L) (head_weights d q k am).
Proof.
  intros Hq Hk [Hm Hrows]. unfold head_weights. split.
  - rewrite length_zip_with. lia.
  - apply Forall_forall. intros r Hr.
    apply elem_of_lookup_zip_with in Hr
      as (i & qi & mrow & -> & _ & Hmrow).
    unfold softmax_scores, masked_fill.
    rewrite length_map, length_zip_with, length_map, Hk.
    rewrite Forall_forall in Hrows.
    rewrite (Hrows mrow); [lia|].
    eapply list_elem_of_lookup_2, Hmrow.
Qed.

(** the module's forward pass computes these weights first *)
Lemma forward_seq_weights (x : mat) :
  MultiheadAttention.forward_seq m x
  = (w ← MultiheadAttention.weights m x;
     Ok (map (linear (MultiheadAttention.proj m))
           (map (linear (out_proj (MultiheadAttention.mha m)))
              (merge_heads (length x)
                 (zip_with
                    (fun h wh =>
                       attend (head_dim (MultiheadAttention.mha m)) wh
                         (map (split_head (head_dim (MultiheadAttention.mha m)) h)
                            (values (MultiheadAttention.mha m) x)))
                    (seq 0 (num_heads (MultiheadAttention.mha m))) w))))).
Proof.
  unfold MultiheadAttention.forward_seq, MultiheadAttention.weights, mha_forward.
  destruct (mha_weights _ _ _); reflexivity.
Qed.

(** C1.  For an input of [seq_len <= context] positions the attention
    sublayer computes, in every head, a [seq_len x seq_len] matrix of
    post-softmax weights in which the weight that position [i] gives to
    a later position [j > i] is exactly 0. *)
Theorem attention_is_causal (x : mat) :
  (length x <= ctx)%nat ->
  exists W,
    MultiheadAttention.weights m x = Ok W
    /\ length W = num_heads (MultiheadAttention.mha m)
    /\ Forall (fun Wh => length Wh = length x
                         /\ Forall (fun r => length r = length x) Wh) W
    /\ forall h Wh i row j w,
         W !! h = Some Wh -> Wh !! i = Some row -> row !! j = Some w ->
         (i < j)%nat -> w = 0.
Proof.
  intros HL. unfold MultiheadAttention.weights, mha_weights.
  pose proof (attn_mask_shape (length x) HL) as Hshape.
  destruct (decide (mask_shape _ _)) as [_|Hn]; [|contradiction].
  eexists. split; [reflexivity|]. split; [|split].
  - now rewrite length_map, length_seq.
  - apply Forall_forall. intros Wh HWh.
    apply list_elem_of_fmap in HWh as (h & -> & _).
    apply head_weights_shape; [| |exact Hshape];
      unfold queries, keys; now rewrite !length_map.
  - intros h Wh i row j w HWh Hrow Hw Hij.
    rewrite list_lookup_fmap in HWh.
    destruct (seq 0 _ !! h) as [h'|]; [|discriminate].
    injection HWh as <-.
    pose proof (head_weights_shape (head_dim (MultiheadAttention.mha m))
      (map (split_head (head_dim (MultiheadAttention.mha m)) h')
         (queries (MultiheadAttention.mha m) x))
      (map (split_head (head_dim (MultiheadAttention.mha m)) h')
         (keys (MultiheadAttention.mha m) x))
      (MultiheadAttention.attn_mask m (length x)) (length x)) as [Hlen Hrows];
      [unfold queries; now rewrite !length_map
      |unfold keys; now rewrite !length_map|exact Hshape|].
    assert (Hi : (i < length x)%nat).
    { rewrite <- Hlen. eapply lookup_lt_Some, Hrow. }
    assert (Hj : (j < length x)%nat).
    { rewrite Forall_forall in Hrows.
      rewrite <- (Hrows row).
      - eapply lookup_lt_Some, Hw.
      - eapply list_elem_of_lookup_2, Hrow. }
    unfold head_weights in Hrow.
    apply lookup_zip_with_Some in Hrow as (qi & mrow & -> & _ & Hmrow).
    destruct (attn_mask_lookup (length x) i j HL Hi Hj) as (mrow' & Hm' & Hb).
    rewrite Hm' in Hmrow. injection Hmrow as <-.
    rewrite bool_decide_eq_true_2 in Hb by exact Hij.
    unfold softmax_scores in Hw. rewrite list_lookup_fmap in Hw.
    destruct (masked_fill _ _ !! j) as [sc|] eqn:Hs; [|discriminate].
    unfold masked_fill in Hs.
    apply lookup_zip_with_Some in Hs as (a & b & -> & _ & Hb').
    rewrite Hb in Hb'. injection Hb' as <-.
    simpl in Hw. injection Hw as <-.
    unfold Rdiv. apply Rmult_0_l.
Qed.
End Attention.

Lemma attention_is_causal_witness :
  exists W,
    MultiheadAttention.weights Examples.attention [[1%R]; [2%R]] = Ok W
    /\ length W = 1%nat
    /\ Forall (fun Wh => length Wh = 2%nat
                         /\ Forall (fun r => length r = 2%nat) Wh) W
    /\ forall h Wh i row j w,
         W !! h = Some Wh -> Wh !! i = Some row -> row !! j = Some w ->
         (i < j)%nat -> w = 0%R.
Proof.
  apply (attention_is_causal Examples.attention [[1%R]; [2%R]]).
  simpl. lia.
Defined.

(** ** Shapes and failures of the forward pass *)

Lemma same_shape_refl {A} (x : list (list A)) : same_shape x x.
Proof. induction x; constructor; [reflexivity|assumption]. Qed.

Lemma same_shape_trans {A B C} (x : list (list A)) (y : list (list B))
    (z : list (list C)) :
  same_shape x y -> same_shape y z -> same_shape x z.
Proof.
  intros Hxy. revert z. induction Hxy as [|a b x y Hab _ IH]; intros z Hyz.
  - inversion Hyz. constructor.
  - inversion Hyz as [|? c ? z' Hbc Hyz']; subst. constructor; [|now apply IH].
    unfold same_len in *. congruence.
Qed.

Lemma same_shape_map {A B C} (f : list B -> list C) (x : list (list A))
    (y : list (list B)) :
  (forall b, length (f b) = length b) ->
  same_shape x y -> same_shape x (map f y).
Proof.
  intros Hf. induction 1 as [|a b x y Hab _ IH]; simpl; constructor; [|exact IH].
  unfold same_len in *. now rewrite Hf.
Qed.

Lemma same_shape_tadd (x a : list mat) :
  same_shape x a -> same_shape x (tadd x a).
Proof.
  induction 1 as [|u v x a Huv _ IH]; simpl; constructor; [|exact IH].
  unfold same_len, madd in *. rewrite length_zip_with. lia.
Qed.

Lemma same_shape_Forall_len {A B} (x : list (list A)) (y : list (list B)) (n : nat) :
  same_shape x y -> Forall (fun r => length r = n) x -> Forall (fun r => length r = n) y.
Proof.
  induction 1 as [|a b x y Hab _ IH]; intros HF; [constructor|].
  inversion HF; subst. constructor; [|now apply IH].
  unfold same_len in Hab. congruence.
Qed.

Section Forward.
Variable GELU : R -> R.

Lemma attention_seq_length (m : MultiheadAttention.t) (x y : mat) :
  MultiheadAttention.forward_seq m x = Ok y -> length y = length x.
Proof.
  unfold MultiheadAttention.forward_seq, mha_forward. intros H.
  apply bind_Ok in H as (a & Ha & H). injection H as <-.
  apply bind_Ok in Ha as (w & _ & Ha). injection Ha as <-.
  unfold merge_heads. now rewrite !length_map, length_seq.
Qed.

Lemma attention_seq_returns (m : MultiheadAttention.t) (x : mat) :
  length x <= MultiheadAttention.context m ->
  returns (MultiheadAttention.forward_seq m x).
Proof.
  intros HL. unfold MultiheadAttention.forward_seq, mha_forward, mha_weights.
  pose proof (attn_mask_shape m (length x) HL) as Hshape.
  destruct (decide (mask_shape _ _)) as [_|Hn]; [|contradiction].
  simpl. eexists. reflexivity.
Qed.

Lemma attention_shape (m : MultiheadAttention.t) (x y : list mat) :
  MultiheadAttention.forward m x = Ok y -> same_shape x y.
Proof.
  intros H. apply mapM_Ok_Forall2 in H.
  induction H as [|a b x y Hab _ IH]; constructor; [|exact IH].
  now apply attention_seq_length in Hab.
Qed.

Lemma attention_returns (m : MultiheadAttention.t) (x : list mat) :
  Forall (fun s => length s <= MultiheadAttention.context m) x ->
  returns (MultiheadAttention.forward m x).
Proof.
  intros H. apply mapM_returns.
  induction H; constructor; [now apply attention_seq_returns|assumption].
Qed.

Lemma block_shape (b : Block.t) (x y : list mat) :
  Block.forward GELU b x = Ok y -> same_shape x y.
Proof.
  unfold Block.forward. intros H.
  apply bind_Ok in H as (a & Ha & H). injection H as <-.
  apply attention_shape in Ha.
  assert (Hxa : same_shape x a).
  { eapply same_shape_trans; [|exact Ha].
    apply same_shape_map; [|apply same_shape_refl].
    intros r. apply length_map. }
  pose proof (same_shape_tadd x a Hxa) as H1.
  eapply same_shape_trans; [exact H1|].
  apply same_shape_tadd, same_shape_map; [|apply same_shape_refl].
  intros r. apply length_map.
Qed.

Lemma block_returns (b : Block.t) (x : list mat) :
  Forall (fun s => length s <= MultiheadAttention.context (Block.mha b)) x ->
  returns (Block.forward GELU b x).
Proof.
  intros H. unfold Block.forward.
  destruct (attention_returns (Block.mha b)
              (map (map (layer_norm (Block.sa_norm b))) x)) as [a Ha].
  - induction H; simpl; constructor; [now rewrite length_map|assumption].
  - rewrite Ha. simpl. eexists. reflexivity.
Qed.

Lemma sequential_shape (bs : list Block.t) (x y : list mat) :
  GPT.sequential (map (Block.forward GELU) bs) x = Ok y -> same_shape x y.
Proof.
  revert x. induction bs as [|b bs IH]; simpl; intros x H.
  - injection H as <-. apply same_shape_refl.
  - apply bind_Ok in H as (z & Hz & H).
    eapply same_shape_trans; [eapply block_shape, Hz|apply IH, H].
Qed.

Lemma sequential_returns (bs : list Block.t) (x : list mat) (c n : nat) :
  Forall (fun b => MultiheadAttention.context (Block.mha b) = c) bs ->
  Forall (fun s => length s = n) x -> n <= c ->
  returns (GPT.sequential (map (Block.forward GELU) bs) x).
Proof.
  intros Hbs. revert x. induction Hbs as [|b bs Hb _ IH]; simpl; intros x Hx Hn.
  - eexists. reflexivity.
  - destruct (block_returns b x) as [z Hz].
    { eapply Forall_impl; [exact Hx|]. simpl. intros s Hs. lia. }
    rewrite Hz. simpl. apply IH; [|exact Hn].
    eapply same_shape_Forall_len; [eapply block_shape, Hz|exact Hx].
Qed.

Lemma embedding_cases (table : mat) (i : nat) :
  returns (embedding table i) \/ embedding table i = Raise IndexError.
Proof.
  unfold embedding. destruct (table !! i); [left; eexists|right]; reflexivity.
Qed.

Lemma embedding_returns (table : mat) (i : nat) :
  i < length table -> returns (embedding table i).
Proof.
  intros Hi. unfold embedding.
  destruct (lookup_lt_is_Some_2 table i Hi) as [r ->]. eexists. reflexivity.
Qed.

Lemma token_embeddings_cases (table : mat) (rows : list (list nat)) :
  returns (mapM (mapM (embedding table)) rows)
  \/ mapM (mapM (embedding table)) rows = Raise IndexError.
Proof.
  apply mapM_returns_or_raises, Forall_forall. intros r _.
  apply mapM_returns_or_raises, Forall_forall. intros i _.
  apply embedding_cases.
Qed.

Lemma token_embeddings_returns (table : mat) (rows : list (list nat)) :
  Forall (Forall (fun i => i < length table)) rows ->
  exists tok, mapM (mapM (embedding table)) rows = Ok tok /\ same_shape rows tok.
Proof.
  intros H.
  destruct (mapM_returns (mapM (embedding table)) rows) as [tok Htok].
  - eapply Forall_impl; [exact H|]. simpl. intros r Hr. apply mapM_returns.
    eapply Forall_impl; [exact Hr|]. simpl. intros i. apply embedding_returns.
  - exists tok. split; [exact Htok|].
    apply mapM_Ok_Forall2 in Htok.
    eapply Forall2_impl; [exact Htok|]. simpl. intros r e Hre.
    now apply mapM_Ok_length in Hre.
Qed.

Lemma positions_raise (table : mat) (n : nat) :
  length table < n -> mapM (embedding table) (seq 0 n) = Raise IndexError.
Proof.
  intros Hn. apply mapM_Raise.
  - apply Forall_forall. intros i _. apply embedding_cases.
  - apply Exists_exists. exists (length table). split.
    + apply elem_of_seq. lia.
    + unfold embedding. now rewrite lookup_ge_None_2.
Qed.

Lemma positions_return (table : mat) (n : nat) :
  n <= length table ->
  exists pe, mapM (embedding table) (seq 0 n) = Ok pe /\ length pe = n.
Proof.
  intros Hn. destruct (mapM_returns (embedding table) (seq 0 n)) as [pe Hpe].
  - apply Forall_forall. intros i Hi. apply elem_of_seq in Hi.
    apply embedding_returns. lia.
  - exists pe. split; [exact Hpe|].
    apply mapM_Ok_length in Hpe. now rewrite length_seq in Hpe.
Qed.

(** a sequence longer than the positional table is rejected *)
Lemma forward_too_long (m : GPT.t) (x : GPT.ids) :
  length (GPT.pos_embedding m) < GPT.seq_len x ->
  GPT.forward GELU m x = Raise IndexError.
Proof.
  intros H. unfold GPT.forward.
  destruct (token_embeddings_cases (GPT.tok_embedding m) (GPT.rows x))
    as [[tok ->]| ->]; simpl; [|reflexivity].
  now rewrite positions_raise.
Qed.

(** whenever the forward pass returns, the batch size is kept *)
Lemma forward_batch (m : GPT.t) (x : GPT.ids) (logits : list mat) :
  GPT.forward GELU m x = Ok logits -> length logits = length (GPT.rows x).
Proof.
  unfold GPT.forward. intros H.
  apply bind_Ok in H as (tok & Htok & H).
  apply bind_Ok in H as (pe & _ & H).
  apply bind_Ok in H as (z & Hz & H). injection H as <-.
  apply sequential_shape, Forall2_length in Hz.
  apply mapM_Ok_length in Htok.
  rewrite length_map in *. congruence.
Qed.

Lemma forward_shape (c : ModelConfig) (m : GPT.t) (x : GPT.ids) :
  GPT.built c m -> GPT.ids_shaped x ->
  Forall (Forall (fun t => t < vocab c)) (GPT.rows x) ->
  GPT.seq_len x <= context c ->
  exists logits,
    GPT.forward GELU m x = Ok logits
    /\ length logits = GPT.batch x
    /\ Forall (fun l => length l = GPT.seq_len x
                        /\ Forall (fun v => length v = vocab c) l) logits.
Proof.
  intros (Hpos & Htok & Hout & Hbias & _ & Hctx) [Hb Hrows] Hvalid Hlen.
  unfold GPT.forward.
  destruct (token_embeddings_returns (GPT.tok_embedding m) (GPT.rows x))
    as (tok & -> & Hshape); [now rewrite Htok|]. simpl.
  destruct (positions_return (GPT.pos_embedding m) (GPT.seq_len x))
    as (pe & -> & Hpe); [lia|]. simpl.
  assert (Hx0 : Forall (fun s => length s = GPT.seq_len x)
                  (map (fun e => madd e pe) tok)).
  { apply Forall_fmap. eapply same_shape_Forall_len in Hrows; [|exact Hshape].
    eapply Forall_impl; [exact Hrows|]. simpl. intros e He.
    unfold madd. rewrite length_zip_with. lia. }
  destruct (sequential_returns (GPT.decoder m) _ (context c) (GPT.seq_len x)
              Hctx Hx0 Hlen) as [z Hz].
  rewrite Hz. simpl. eexists. split; [reflexivity|].
  pose proof (sequential_shape _ _ _ Hz) as Hsh.
  split.
  - rewrite length_map. apply Forall2_length in Hsh, Hshape.
    rewrite length_map in Hsh. congruence.
  - apply Forall_fmap.
    eapply same_shape_Forall_len in Hx0; [|exact Hsh].
    eapply Forall_impl; [exact Hx0|]. simpl. intros s Hs. split.
    + now rewrite length_map.
    + apply Forall_fmap, Forall_forall. intros v _. simpl.
      unfold linear. rewrite Hbias. now rewrite length_map.
Qed.

(** C7.  On a model built from a configuration and a batch of token
    ids of shape [[batch, seq_len]], the forward pass raises (an
    [IndexError], from the positional embedding, the first thing it
    computes) whenever [seq_len > context_length]; for
    [seq_len <= context_length] it returns logits of shape
    [[batch, seq_len, vocab_size]]. *)
Theorem forward_rejects_long_sequences (c : ModelConfig) (m : GPT.t) (x : GPT.ids) :
  GPT.built c m -> GPT.ids_shaped x ->
  Forall (Forall (fun t => t < vocab c)) (GPT.rows x) ->
  (context c < GPT.seq_len x -> GPT.forward GELU m x = Raise IndexError)
  /\ (GPT.seq_len x <= context c ->
      exists logits,
        GPT.forward GELU m x = Ok logits
        /\ length logits = GPT.batch x
        /\ Forall (fun l => length l = GPT.seq_len x
                            /\ Forall (fun v => length v = vocab c) l) logits).
Proof.
  intros Hm Hx Hv. split.
  - intros Hlong. apply forward_too_long.
    destruct Hm as (-> & _). exact Hlong.
  - intros Hfit. now apply (forward_shape c).
Qed.
End Forward.

Lemma example_model_built : GPT.built Examples.config Examples.model.
Proof.
  unfold GPT.built. simpl. repeat split; try reflexivity.
  repeat constructor.
Qed.

Lemma forward_rejects_long_sequences_witness :
  (GPT.forward (fun a => a) Examples.model
     {| GPT.batch := 1; GPT.seq_len := 3; GPT.rows := [[1; 0; 2]] |}
   = Raise IndexError)
  /\ (exists logits,
        GPT.forward (fun a => a) Examples.model
          {| GPT.batch := 2; GPT.seq_len := 2; GPT.rows := [[1; 0]; [5; 3]] |}
        = Ok logits
        /\ length logits = 2
        /\ Forall (fun l => length l = 2 /\ Forall (fun v => length v = 6) l) logits).
Proof.
  split.
  - apply (forward_rejects_long_sequences (fun a => a) Examples.config Examples.model
             {| GPT.batch := 1; GPT.seq_len := 3; GPT.rows := [[1; 0; 2]] |}).
    + exact example_model_built.
    + split; [reflexivity|]. repeat constructor.
    + repeat constructor.
    + simpl. lia.
  - apply (forward_rejects_long_sequences (fun a => a) Examples.config Examples.model
             {| GPT.batch := 2; GPT.seq_len := 2; GPT.rows := [[1; 0]; [5; 3]] |}).
    + exact example_model_built.
    + split; [reflexivity|]. repeat constructor.
    + repeat constructor; simpl; lia.
    + simpl. lia.
Defined.

(** ** Batch elements are processed one by one *)

Section Batch.
Variable GELU : R -> R.

Lemma mapM_Ok_iff {A B} (f : A -> result B) (l : list A) (k : list B) :
  mapM f l = Ok k <-> Forall2 (fun x y => f x = Ok y) l k.
Proof. split; [apply mapM_Ok_Forall2|apply mapM_Ok_intro]. Qed.

Lemma block_rows (b : Block.t) (x y : list mat) :
  Block.forward GELU b x = Ok y
  <-> Forall2 (fun s t => PerSequence.block GELU b s = Ok t) x y.
Proof.
  unfold Block.forward. split.
  - intros H. apply bind_Ok in H as (a & Ha & H). injection H as <-.
    apply mapM_Ok_Forall2 in Ha. apply Forall2_fmap_l in Ha.
    induction Ha as [|s a1 x a Hs _ IH]; simpl; constructor; [|exact IH].
    unfold PerSequence.block. simpl in Hs. rewrite Hs. reflexivity.
  - intros H.
    assert (Ha : exists a,
               Forall2 (fun s a1 => MultiheadAttention.forward_seq (Block.mha b)
                          (map (layer_norm (Block.sa_norm b)) s) = Ok a1) x a
               /\ y = tadd (tadd x a)
                        (map (map (fun v => Block.mlp GELU b
                                     (layer_norm (Block.mlp_norm b) v)))
                           (tadd x a))).
    { induction H as [|s t x y Hs _ (a & Ha & ->)].
      - exists []. split; [constructor|reflexivity].
      - unfold PerSequence.block in Hs.
        apply bind_Ok in Hs as (a1 & Ha1 & Hs). injection Hs as <-.
        exists (a1 :: a). split; [constructor; assumption|reflexivity]. }
    destruct Ha as (a & Ha & ->).
    assert (Hm : MultiheadAttention.forward (Block.mha b)
                   (map (map (layer_norm (Block.sa_norm b))) x) = Ok a).
    { apply mapM_Ok_intro, Forall2_fmap_l. exact Ha. }
    rewrite Hm. reflexivity.
Qed.

Lemma decoder_rows (bs : list Block.t) (x y : list mat) :
  GPT.sequential (map (Block.forward GELU) bs) x = Ok y
  <-> Forall2 (fun s t => PerSequence.decoder GELU bs s = Ok t) x y.
Proof.
  revert x y. induction bs as [|b bs IH]; intros x y; simpl.
  - split.
    + intros H. injection H as <-. induction x; constructor; auto.
    + intros H. f_equal. induction H as [|s t x y Hs _ IH]; [reflexivity|].
      injection Hs as <-. now rewrite IH.
  - split.
    + intros H. apply bind_Ok in H as (z & Hz & H).
      apply block_rows in Hz. apply IH in H.
      revert y H. induction Hz as [|s u x z Hs _ IHz]; intros y H.
      * inversion H. constructor.
      * inversion H as [|? t ? y' Ht Hy]; subst. constructor; [|now apply IHz].
        now rewrite Hs.
    + intros H.
      assert (Hz : exists z,
                 Forall2 (fun s u => PerSequence.block GELU b s = Ok u) x z
                 /\ Forall2 (fun u t => PerSequence.decoder GELU bs u = Ok t) z y).
      { induction H as [|s t x y Hs _ (z & Hz1 & Hz2)].
        - exists []. split; constructor.
        - apply bind_Ok in Hs as (u & Hu & Hs).
          exists (u :: z). split; constructor; assumption. }
      destruct Hz as (z & Hz1 & Hz2).
      apply block_rows in Hz1. rewrite Hz1. simpl. now apply IH.
Qed.

Lemma forward_rows (m : GPT.t) (x : GPT.ids) (logits : list mat) :
  GPT.forward GELU m x = Ok logits
  <-> exists pe,
        mapM (embedding (GPT.pos_embedding m)) (seq 0 (GPT.seq_len x)) = Ok pe
        /\ Forall2 (fun row lg => PerSequence.forward GELU m pe row = Ok lg)
             (GPT.rows x) logits.
Proof.
  unfold GPT.forward. split.
  - intros H. apply bind_Ok in H as (tok & Htok & H).
    apply bind_Ok in H as (pe & Hpe & H).
    apply bind_Ok in H as (z & Hz & H). injection H as <-.
    exists pe. split; [exact Hpe|].
    apply mapM_Ok_Forall2 in Htok. apply decoder_rows in Hz.
    apply Forall2_fmap_l in Hz. apply Forall2_fmap_r.
    revert z Hz. induction Htok as [|row e rows tok Hrow _ IH]; intros z Hz.
    + inversion Hz. constructor.
    + inversion Hz as [|? u ? z' Hu Hz']; subst. constructor; [|now apply IH].
      unfold PerSequence.forward. rewrite Hrow. simpl. simpl in Hu.
      rewrite Hu. reflexivity.
  - intros (pe & Hpe & H).
    assert (Ht : exists tok z,
               Forall2 (fun row e => mapM (embedding (GPT.tok_embedding m)) row = Ok e)
                 (GPT.rows x) tok
               /\ Forall2 (fun e u => PerSequence.decoder GELU (GPT.decoder m)
                                        (madd e pe) = Ok u) tok z
               /\ logits = map (PerSequence.head m) z).
    { induction H as [|row lg rows logits Hrow _ (tok & z & H1 & H2 & ->)].
      - exists [], []. repeat split; constructor.
      - unfold PerSequence.forward in Hrow.
        apply bind_Ok in Hrow as (e & He & Hrow).
        apply bind_Ok in Hrow as (u & Hu & Hrow). injection Hrow as <-.
        exists (e :: tok), (u :: z). repeat split; try constructor; assumption. }
    destruct Ht as (tok & z & H1 & H2 & ->).
    apply mapM_Ok_intro in H1. rewrite H1. simpl. rewrite Hpe. simpl.
    assert (Hz : GPT.sequential (map (Block.forward GELU) (GPT.decoder m))
                   (map (fun e => madd e pe) tok) = Ok z).
    { apply decoder_rows, Forall2_fmap_l. exact H2. }
    rewrite Hz. reflexivity.
Qed.

(** The elements of a batch do not influence each other: the forward
    pass returns the logits of a non-empty batch exactly when, run on each
    row alone, it returns the logits of that row. *)
Theorem batch_rows_independent (m : GPT.t) (x : GPT.ids) (logits : list mat) :
  GPT.rows x <> [] ->
  (GPT.forward GELU m x = Ok logits
   <-> Forall2 (fun row lg =>
                  GPT.forward GELU m
                    {| GPT.batch := 1; GPT.seq_len := GPT.seq_len x;
                       GPT.rows := [row] |} = Ok [lg])
         (GPT.rows x) logits).
Proof.
  intros Hne. split.
  - intros H. apply forward_rows in H as (pe & Hpe & H).
    eapply Forall2_impl; [exact H|]. simpl. intros row lg Hrow.
    apply forward_rows. exists pe. split; [exact Hpe|].
    constructor; [exact Hrow|constructor].
  - intros H. apply forward_rows.
    destruct (GPT.rows x) as [|row rows] eqn:Hrows; [congruence|].
    inversion H as [|? lg ? logits' H1 Hrest]; subst.
    apply forward_rows in H1 as (pe & Hpe & H1). simpl in Hpe.
    exists pe. split; [exact Hpe|].
    eapply Forall2_impl; [exact H|]. simpl. intros row' lg' Hrow'.
    apply forward_rows in Hrow' as (pe' & Hpe' & Hrow'). simpl in Hpe'.
    rewrite Hpe in Hpe'. injection Hpe' as <-.
    now inversion Hrow'.
Qed.
End Batch.

Lemma batch_rows_independent_witness :
  exists logits,
    GPT.forward (fun a => a) Examples.model
      {| GPT.batch := 2; GPT.seq_len := 2; GPT.rows := [[1; 0]; [5; 3]] |}
    = Ok logits
    /\ Forall2 (fun row lg =>
                   GPT.forward (fun a => a) Examples.model
                     {| GPT.batch := 1; GPT.seq_len := 2; GPT.rows := [row] |}
                   = Ok [lg])
          [[1; 0]; [5; 3]] logits.
Proof.
  destruct (forward_shape (fun a => a) Examples.config Examples.model
              {| GPT.batch := 2; GPT.seq_len := 2; GPT.rows := [[1; 0]; [5; 3]] |})
    as (logits & Hf & _).
  - exact example_model_built.
  - split; [reflexivity|]. repeat constructor.
  - repeat constructor; simpl; lia.
  - simpl. lia.
  - exists logits. split; [exact Hf|].
    apply (batch_rows_independent (fun a => a) Examples.model
             {| GPT.batch := 2; GPT.seq_len := 2; GPT.rows := [[1; 0]; [5; 3]] |}
             logits); [discriminate|exact Hf].
Defined.

(** ** Sums, softmax and random draws *)

Section Sums.
#[local] Open Scope R_scope.

Lemma Rsum_app (l k : vec) : Rsum (l ++ k) = Rsum l + Rsum k.
Proof. induction l as [|a l IH]; simpl; [lra|]. rewrite IH. lra. Qed.

Lemma Rsum_nonneg (l : vec) : Forall (fun p => 0 <= p) l -> 0 <= Rsum l.
Proof. induction 1; simpl; lra. Qed.

Lemma Rsum_exp_pos (l : vec) : l <> [] -> 0 < Rsum (map exp l).
Proof.
  destruct l as [|a l]; [congruence|]. intros _. simpl.
  assert (0 <= Rsum (map exp l)).
  { apply Rsum_nonneg, Forall_fmap, Forall_forall. intros x _. simpl.
    left. apply exp_pos. }
  pose proof (exp_pos a). lra.
Qed.

Lemma Rsum_div {A} (f : A -> R) (c : R) (l : list A) :
  Rsum (map (fun a => f a / c) l) = Rsum (map f l) / c.
Proof. induction l as [|a l IH]; simpl; [lra|]. rewrite IH. lra. Qed.

Lemma Rsum_zeros {A} (l : list A) : Rsum (map (fun _ => 0) l) = 0.
Proof. induction l as [|a l IH]; simpl; [reflexivity|]. rewrite IH. lra. Qed.

Lemma softmax_length (l : vec) : length (softmax l) = length l.
Proof. apply length_map. Qed.

Lemma softmax_sum (l : vec) : l <> [] -> Rsum (softmax l) = 1.
Proof.
  intros Hl. unfold softmax. rewrite (Rsum_div exp).
  pose proof (Rsum_exp_pos l Hl). field. lra.
Qed.

Lemma softmax_pos (l : vec) : Forall (fun p => 0 < p) (softmax l).
Proof.
  destruct l as [|a l]; [constructor|].
  pose proof (Rsum_exp_pos (a :: l) ltac:(congruence)) as HS.
  unfold softmax. apply Forall_fmap, Forall_forall. intros x _. simpl.
  apply Rdiv_lt_0_compat; [apply exp_pos|exact HS].
Qed.

(** the draw lands on an entry of positive probability *)
Lemma inverse_cdf_support (p : vec) (t : R) :
  Forall (fun x => 0 <= x) p -> 0 <= t < Rsum p ->
  exists x, p !! inverse_cdf t p = Some x /\ 0 < x.
Proof.
  intros Hp. revert t. induction Hp as [|x p Hx _ IH]; intros t Ht; simpl in *.
  - lra.
  - destruct (decide (t < x)) as [Hlt|Hge].
    + exists x. split; [reflexivity|lra].
    + apply IH. lra.
Qed.

Lemma multinomial_returns (u : R) (probs : vec) :
  Forall (fun x => 0 <= x) probs -> 0 < Rsum probs -> 0 <= u < 1 ->
  exists i x, multinomial u probs = Ok i /\ probs !! i = Some x /\ 0 < x.
Proof.
  intros Hp HS Hu. unfold multinomial.
  destruct (decide _) as [_|Hn]; [|tauto].
  destruct (inverse_cdf_support probs (u * Rsum probs) Hp) as (x & Hx & Hpos).
  - split; [apply Rmult_le_pos; lra|]. nra.
  - eauto.
Qed.

Lemma multinomial_raises (u : R) (probs : vec) :
  Rsum probs <= 0 -> multinomial u probs = Raise RuntimeError.
Proof.
  intros HS. unfold multinomial.
  destruct (decide _) as [[_ H]|_]; [lra|reflexivity].
Qed.
End Sums.

(** ** Maximum and selection of the [k] largest *)

Section Selection.
#[local] Open Scope R_scope.
Implicit Types (c b x : nat * R) (l cands : list (nat * R)).

Lemma indexed_fst (row : vec) : map fst (indexed row) = seq 0 (length row).
Proof.
  unfold indexed. apply list_eq. intros i.
  rewrite list_lookup_fmap, list_lookup_imap.
  destruct (decide (i < length row)%nat) as [Hi|Hi].
  - destruct (lookup_lt_is_Some_2 row i Hi) as [a ->]. simpl.
    now rewrite lookup_seq_lt.
  - rewrite lookup_ge_None_2 by lia. simpl.
    symmetry. apply lookup_ge_None_2. rewrite length_seq. lia.
Qed.

Lemma indexed_lookup (row : vec) (i : nat) (a : R) :
  (i, a) ∈ indexed row <-> row !! i = Some a.
Proof.
  unfold indexed. rewrite elem_of_lookup_imap. split.
  - intros (j & y & Heq & Hj). injection Heq as -> ->. exact Hj.
  - intros H. eauto.
Qed.

Lemma indexed_length (row : vec) : length (indexed row) = length row.
Proof. apply length_imap. Qed.

Lemma best_elem c l : best c l ∈ c :: l.
Proof.
  revert c. induction l as [|x l IH]; intros c; simpl.
  - apply list_elem_of_here.
  - destruct (decide (snd c < snd x)).
    + apply list_elem_of_further, IH.
    + specialize (IH c). apply elem_of_cons in IH as [->|IH].
      * apply list_elem_of_here.
      * now do 2 apply list_elem_of_further.
Qed.

Lemma best_ge_start c l : snd c <= snd (best c l).
Proof.
  revert c. induction l as [|x l IH]; intros c; simpl; [lra|].
  destruct (decide (snd c < snd x)).
  - specialize (IH x). lra.
  - apply IH.
Qed.

Lemma best_max c l x : x ∈ c :: l -> snd x <= snd (best c l).
Proof.
  revert c. induction l as [|y l IH]; intros c Hx; simpl.
  - apply list_elem_of_singleton in Hx as ->. lra.
  - destruct (decide (snd c < snd y)) as [Hlt|Hge].
    + apply elem_of_cons in Hx as [->|Hx].
      * pose proof (best_ge_start y l). lra.
      * apply IH, Hx.
    + apply elem_of_cons in Hx as [->|Hx]; [apply best_ge_start|].
      apply elem_of_cons in Hx as [->|Hx].
      * pose proof (best_ge_start c l). lra.
      * apply IH. now apply list_elem_of_further.
Qed.

Lemma filter_keeps_all (P : nat * R -> Prop) `{forall x, Decision (P x)} l :
  Forall P l -> filter P l = l.
Proof.
  induction 1 as [|x l Hx _ IH]; [reflexivity|].
  rewrite filter_cons_True by exact Hx. now rewrite IH.
Qed.

Lemma filter_other_length b cands :
  NoDup (map fst cands) -> b ∈ cands ->
  S (length (filter (fun x => fst x <> fst b) cands)) = length cands.
Proof.
  induction cands as [|c l IH]; simpl; intros Hnd Hb.
  - inversion Hb.
  - apply NoDup_cons in Hnd as [Hc Hnd].
    apply elem_of_cons in Hb as [->|Hb].
    + rewrite filter_cons_False by tauto. f_equal.
      rewrite filter_keeps_all; [reflexivity|].
      apply Forall_forall. intros x Hx Heq. apply Hc.
      rewrite <- Heq. now apply list_elem_of_fmap_2.
    + rewrite filter_cons_True.
      * simpl. f_equal. now apply IH.
      * intros Heq. apply Hc. rewrite Heq. now apply list_elem_of_fmap_2.
Qed.

Lemma filter_other_NoDup b cands :
  NoDup (map fst cands) ->
  NoDup (map fst (filter (fun x => fst x <> fst b) cands)).
Proof.
  intros H. eapply sublist_NoDup; [exact H|].
  apply fmap_sublist, sublist_filter.
Qed.

Lemma select_length k cands :
  NoDup (map fst cands) -> length (select k cands) = Nat.min k (length cands).
Proof.
  revert cands. induction k as [|k IH]; intros cands Hnd; [reflexivity|].
  destruct cands as [|c l]; [reflexivity|]. simpl select. simpl length.
  rewrite IH by now apply filter_other_NoDup.
  pose proof (filter_other_length (best c l) (c :: l) Hnd (best_elem c l)) as H.
  simpl length in H. lia.
Qed.

Lemma select_elem k cands x : x ∈ select k cands -> x ∈ cands.
Proof.
  revert cands. induction k as [|k IH]; intros cands Hx; [inversion Hx|].
  destruct cands as [|c l]; [inversion Hx|]. simpl select in Hx.
  apply elem_of_cons in Hx as [->|Hx]; [apply best_elem|].
  apply IH in Hx. now apply list_elem_of_filter in Hx as [_ Hx].
Qed.

Lemma select_NoDup k cands :
  NoDup (map fst cands) -> NoDup (map fst (select k cands)).
Proof.
  revert cands. induction k as [|k IH]; intros cands Hnd; [constructor|].
  destruct cands as [|c l]; [constructor|]. simpl select. simpl map.
  apply NoDup_cons. split.
  - intros Hin. apply list_elem_of_fmap in Hin as (x & Heq & Hx).
    apply select_elem, list_elem_of_filter in Hx as [Hne _]. congruence.
  - apply IH. now apply filter_other_NoDup.
Qed.

(** every selected entry is at least as large as every entry left out *)
Lemma select_largest k cands x y :
  x ∈ select k cands -> y ∈ cands -> fst y ∉ map fst (select k cands) ->
  snd y <= snd x.
Proof.
  revert cands. induction k as [|k IH]; intros cands Hx Hy Hout; [inversion Hx|].
  destruct cands as [|c l]; [inversion Hx|]. simpl select in Hx, Hout.
  simpl map in Hout. apply not_elem_of_cons in Hout as [Hne Hout].
  apply elem_of_cons in Hx as [->|Hx]; [now apply best_max|].
  apply (IH _ Hx); [|exact Hout].
  apply list_elem_of_filter. split; [exact Hne|exact Hy].
Qed.
End Selection.

(** ** The top-k probabilities *)

Section TopK.
#[local] Open Scope R_scope.

Abbreviation scatter := Inference.scatter.

Lemma scatter_length (ivs : list (nat * R)) (acc : vec) :
  length (scatter acc ivs) = length acc.
Proof.
  unfold Inference.scatter.
  revert acc. induction ivs as [|iv ivs IH]; intros acc; simpl; [reflexivity|].
  now rewrite IH, length_insert.
Qed.

Lemma scatter_other (ivs : list (nat * R)) (acc : vec) (i : nat) :
  i ∉ map fst ivs -> scatter acc ivs !! i = acc !! i.
Proof.
  unfold Inference.scatter.
  revert acc. induction ivs as [|iv ivs IH]; intros acc Hi; simpl; [reflexivity|].
  simpl in Hi. apply not_elem_of_cons in Hi as [Hne Hi].
  rewrite IH by exact Hi. now apply list_lookup_insert_ne.
Qed.

Lemma scatter_written (ivs : list (nat * R)) (acc : vec) (i : nat) (v : R) :
  NoDup (map fst ivs) -> (i, v) ∈ ivs -> (i < length acc)%nat ->
  scatter acc ivs !! i = Some v.
Proof.
  revert acc. induction ivs as [|iv ivs IH]; intros acc Hnd Hin Hi; simpl.
  - inversion Hin.
  - simpl in Hnd. apply NoDup_cons in Hnd as [Hfresh Hnd].
    apply elem_of_cons in Hin as [<-|Hin].
    + change (scatter (<[i:=v]> acc) ivs !! i = Some v).
      rewrite scatter_other by exact Hfresh.
      now apply list_lookup_insert_eq.
    + apply IH; [exact Hnd|exact Hin|now rewrite length_insert].
Qed.

Lemma Rsum_entry_pos (l : vec) (i : nat) (x : R) :
  Forall (fun p => 0 <= p) l -> l !! i = Some x -> 0 < x -> 0 < Rsum l.
Proof.
  intros Hl. revert i. induction Hl as [|a l Ha Hl IH]; intros i Hi Hx.
  - discriminate.
  - simpl. pose proof (Rsum_nonneg l Hl). destruct i as [|i]; simpl in Hi.
    + injection Hi as ->. lra.
    + specialize (IH i Hi Hx). lra.
Qed.

Lemma topk_one_row (row : vec) (k : Z) :
  Inference.topk [row] k
  = (sel ← Torch.topk row k;
     Ok [scatter (map (fun _ => 0) row)
           (zip (map fst sel) (softmax (map snd sel)))]).
Proof.
  unfold Inference.topk. simpl.
  destruct (Torch.topk row k) as [sel|e]; simpl; [|reflexivity].
  now rewrite !app_nil_r.
Qed.

(** what [topk] computes on a single row of logits *)
Lemma topk_single_row (row : vec) (k : Z) :
  (0 <= k <= Z.of_nat (length row))%Z ->
  let sel := select (Z.to_nat k) (indexed row) in
  let idxs := map fst sel in
  exists probs,
    Torch.topk row k = Ok sel
    /\ Inference.topk [row] k = Ok [probs]
    /\ length probs = length row
    /\ length idxs = Z.to_nat k
    /\ NoDup idxs
    /\ (forall i, i ∈ idxs -> (i < length row)%nat)
    /\ (forall i j a b, i ∈ idxs -> j ∉ idxs ->
          row !! i = Some a -> row !! j = Some b -> b <= a)
    /\ (forall j, (j < length row)%nat -> j ∉ idxs -> probs !! j = Some 0)
    /\ map (fun i => default 0 (probs !! i)) idxs = softmax (map snd sel)
    /\ (forall i, i ∈ idxs -> exists p, probs !! i = Some p /\ 0 < p).
Proof.
  intros Hk sel idxs.
  assert (Hnd0 : NoDup (map fst (indexed row))).
  { rewrite indexed_fst. apply NoDup_seq. }
  assert (Hnd : NoDup idxs) by now apply select_NoDup.
  assert (Hlen : length idxs = Z.to_nat k).
  { unfold idxs. rewrite length_map. unfold sel.
    rewrite select_length, indexed_length by exact Hnd0. lia. }
  assert (Hrange : forall i, i ∈ idxs -> (i < length row)%nat).
  { intros i Hi. apply list_elem_of_fmap in Hi as ([i' a] & -> & Hin).
    apply select_elem, indexed_lookup in Hin. simpl.
    eapply lookup_lt_Some, Hin. }
  assert (Htopk : Torch.topk row k = Ok sel).
  { unfold Torch.topk. destruct (decide _) as [_|Hn]; [reflexivity|lia]. }
  set (sm := softmax (map snd sel)).
  assert (Hsm : length sm = length idxs).
  { unfold sm, idxs. now rewrite softmax_length, !length_map. }
  assert (Hfst : map fst (zip idxs sm) = idxs).
  { apply fst_zip. lia. }
  set (probs := scatter (map (fun _ => 0) row) (zip idxs sm)).
  assert (Hwritten : forall p i, idxs !! p = Some i ->
            exists v, sm !! p = Some v /\ probs !! i = Some v /\ 0 < v).
  { intros p i Hp.
    destruct (lookup_lt_is_Some_2 sm p) as [v Hv].
    { rewrite Hsm. eapply lookup_lt_Some, Hp. }
    exists v. split; [exact Hv|]. split.
    - apply scatter_written.
      + now rewrite Hfst.
      + apply list_elem_of_lookup. exists p. now apply lookup_zip_Some.
      + rewrite length_map. apply Hrange. eapply list_elem_of_lookup_2, Hp.
    - pose proof (softmax_pos (map snd sel)) as Hpos. fold sm in Hpos.
      eapply Forall_lookup_1 in Hpos; [|exact Hv]. exact Hpos. }
  exists probs. split; [exact Htopk|]. split.
  { rewrite topk_one_row, Htopk. reflexivity. }
  split. { unfold probs. now rewrite scatter_length, length_map. }
  split; [exact Hlen|]. split; [exact Hnd|]. split; [exact Hrange|].
  split.
  { intros i j a b Hi Hj Ha Hb.
    apply list_elem_of_fmap in Hi as ([i' a'] & -> & Hin). simpl in Ha.
    pose proof Hin as Hin'. apply select_elem, indexed_lookup in Hin'.
    rewrite Hin' in Ha. injection Ha as <-.
    apply (select_largest (Z.to_nat k) (indexed row) (i', a') (j, b));
      [exact Hin|now apply indexed_lookup|exact Hj]. }
  split.
  { intros j Hj Hout. unfold probs. rewrite scatter_other by now rewrite Hfst.
    rewrite list_lookup_fmap.
    destruct (lookup_lt_is_Some_2 row j Hj) as [a ->]. reflexivity. }
  split.
  { apply list_eq. intros p. rewrite list_lookup_fmap.
    destruct (idxs !! p) as [i|] eqn:Hp; simpl.
    - destruct (Hwritten p i Hp) as (v & Hv & Hpi & _).
      now rewrite Hpi, Hv.
    - symmetry. apply lookup_ge_None_2. rewrite Hsm.
      now apply lookup_ge_None_1. }
  { intros i Hi. apply list_elem_of_lookup in Hi as [p Hp].
    destruct (Hwritten p i Hp) as (v & _ & Hpi & Hv). eauto. }
Qed.

(** C5.  For a logits vector of [vocab_size] entries and
    [1 <= k <= vocab_size], [topk] selects [k] distinct indices whose
    logits are at least as large as every other logit; the returned
    probabilities are exactly 0 at every index that is not selected, and
    the probabilities of the [k] selected indices sum to 1. *)
Theorem topk_restricted_distribution (row : vec) (k : Z) :
  (1 <= k <= Z.of_nat (length row))%Z ->
  exists sel probs,
    Torch.topk row k = Ok sel
    /\ Inference.topk [row] k = Ok [probs]
    /\ length probs = length row
    /\ length (map fst sel) = Z.to_nat k
    /\ NoDup (map fst sel)
    /\ (forall i, i ∈ map fst sel -> (i < length row)%nat)
    /\ (forall i j a b, i ∈ map fst sel -> j ∉ map fst sel ->
          row !! i = Some a -> row !! j = Some b -> b <= a)
    /\ (forall j, (j < length row)%nat -> j ∉ map fst sel -> probs !! j = Some 0)
    /\ Rsum (map (fun i => default 0 (probs !! i)) (map fst sel)) = 1.
Proof.
  intros Hk.
  destruct (topk_single_row row k ltac:(lia))
    as (probs & H1 & H2 & H3 & H4 & H5 & H6 & H7 & H8 & H9 & _).
  exists (select (Z.to_nat k) (indexed row)), probs.
  repeat (split; [assumption|]).
  rewrite H9. apply softmax_sum.
  intros Hnil. apply (f_equal length) in Hnil.
  rewrite length_map in Hnil. rewrite length_map in H4. simpl in Hnil. lia.
Qed.
End TopK.

Lemma topk_restricted_distribution_witness :
  exists sel probs,
    Torch.topk [3; 1; 2]%R 2 = Ok sel
    /\ Inference.topk [[3; 1; 2]%R] 2 = Ok [probs]
    /\ length probs = 3
    /\ length (map fst sel) = 2
    /\ NoDup (map fst sel)
    /\ (forall i, i ∈ map fst sel -> i < 3)
    /\ (forall i j a b, i ∈ map fst sel -> j ∉ map fst sel ->
          [3; 1; 2]%R !! i = Some a -> [3; 1; 2]%R !! j = Some b -> (b <= a)%R)
    /\ (forall j, j < 3 -> j ∉ map fst sel -> probs !! j = Some 0%R)
    /\ Rsum (map (fun i => default 0%R (probs !! i)) (map fst sel)) = 1%R.
Proof.
  apply (topk_restricted_distribution [3; 1; 2]%R 2). simpl. lia.
Defined.

(** ** The logits of a position depend on no later token *)

Section ZeroTail.
#[local] Open Scope R_scope.

Lemma vadd_zeros (a : vec) (n : nat) :
  (length a <= n)%nat -> vadd a (replicate n 0) = a.
Proof.
  unfold vadd. revert n. induction a as [|a0 a IH]; intros n Hn; [reflexivity|].
  destruct n as [|n]; [simpl in Hn; lia|]. simpl in *.
  rewrite IH by lia. f_equal. lra.
Qed.

Lemma scale_zero (v : vec) : scale 0 v = replicate (length v) 0.
Proof.
  unfold scale. induction v as [|a v IH]; [reflexivity|]. simpl.
  rewrite IH. f_equal. lra.
Qed.

Lemma foldr_vadd_base (A : list vec) (l d1 d2 : nat) :
  A <> [] -> Forall (fun a => length a = l) A -> (l <= d1)%nat -> (l <= d2)%nat ->
  foldr vadd (replicate d1 0) A = foldr vadd (replicate d2 0) A.
Proof.
  intros Hne HA H1 H2. induction HA as [|a A Ha HA IH]; [congruence|].
  simpl. destruct A as [|a' A].
  - simpl. rewrite !vadd_zeros by lia. reflexivity.
  - rewrite IH by discriminate. reflexivity.
Qed.

Lemma foldr_vadd_zeros (Z : list vec) (l d : nat) :
  Forall (fun z => z = replicate l 0) Z -> (l <= d)%nat ->
  exists d', (l <= d')%nat /\ foldr vadd (replicate d 0) Z = replicate d' 0.
Proof.
  intros HZ Hd. induction HZ as [|z Z -> _ (d' & Hd' & IH)].
  - exists d. auto.
  - exists l. split; [lia|]. simpl. rewrite IH.
    apply vadd_zeros. rewrite length_replicate. lia.
Qed.

(** terms of weight 0 at the end of a weighted sum change nothing *)
Lemma vsum_zero_tail (d l : nat) (A Z : list vec) :
  A <> [] -> Forall (fun a => length a = l) A ->
  Forall (fun z => z = replicate l 0) Z -> (l <= d)%nat ->
  vsum d (A ++ Z) = vsum d A.
Proof.
  intros Hne HA HZ Hd. unfold vsum. rewrite foldr_app.
  destruct (foldr_vadd_zeros Z l d HZ Hd) as (d' & Hd' & ->).
  now apply (foldr_vadd_base A l).
Qed.

Lemma masked_fill_extend (s se : vec) (b : list bool) :
  length s = length b ->
  masked_fill (s ++ se) (b ++ replicate (length se) true)
  = masked_fill s b ++ replicate (length se) NegInf.
Proof.
  intros Hlen. unfold masked_fill. rewrite zip_with_app by exact Hlen. f_equal.
  induction se as [|a se IH]; [reflexivity|]. simpl. now rewrite IH.
Qed.

Lemma softmax_scores_extend (S : list score) (n : nat) :
  softmax_scores (S ++ replicate n NegInf) = softmax_scores S ++ replicate n 0.
Proof.
  unfold softmax_scores.
  assert (Hsum : Rsum (map score_exp (S ++ replicate n NegInf))
                 = Rsum (map score_exp S)).
  { rewrite map_app, Rsum_app.
    assert (Hz : Rsum (map score_exp (replicate n NegInf)) = 0).
    { induction n as [|n IH]; simpl; [reflexivity|]. rewrite IH. lra. }
    rewrite Hz. lra. }
  rewrite Hsum, map_app. f_equal. clear Hsum.
  induction n as [|n IH]; simpl; [reflexivity|]. rewrite IH. f_equal.
  unfold Rdiv. apply Rmult_0_l.
Qed.
End ZeroTail.

Section AttentionPrefix.
#[local] Open Scope R_scope.
Variable m : MultiheadAttention.t.
Abbreviation ctx' := (MultiheadAttention.context m).

Lemma mask_row (i : nat) :
  (i < ctx')%nat ->
  exists mr, MultiheadAttention.mask m !! i = Some mr
             /\ length mr = ctx'
             /\ forall j, (j < ctx')%nat -> mr !! j = Some (bool_decide (i < j)%nat).
Proof.
  intros Hi. destruct (mask_lookup m i i Hi Hi) as (mr & Hmr & Hlen & _).
  exists mr. split; [exact Hmr|]. split; [exact Hlen|].
  intros j Hj. destruct (mask_lookup m i j Hi Hj) as (mr' & Hmr' & _ & Hj').
  rewrite Hmr in Hmr'. now injection Hmr' as <-.
Qed.

Lemma attn_mask_row (L i : nat) (mr : list bool) :
  (L <= ctx')%nat -> (i < L)%nat -> MultiheadAttention.mask m !! i = Some mr ->
  MultiheadAttention.attn_mask m L !! i = Some (take L mr).
Proof.
  intros HL Hi Hmr. unfold MultiheadAttention.attn_mask.
  rewrite Nat.min_l by exact HL.
  rewrite list_lookup_fmap, lookup_take_lt, Hmr by exact Hi. reflexivity.
Qed.

Lemma mask_row_extend (mr : list bool) (i L L' : nat) :
  length mr = ctx' ->
  (forall j, (j < ctx')%nat -> mr !! j = Some (bool_decide (i < j)%nat)) ->
  (i < L)%nat -> (L <= L')%nat -> (L' <= ctx')%nat ->
  take L' mr = take L mr ++ replicate (L' - L) true.
Proof.
  intros Hlen Hmr Hi HL HL'. apply list_eq. intros j.
  destruct (decide (j < L)%nat) as [Hj|Hj].
  - rewrite lookup_app_l by (rewrite length_take; lia).
    rewrite !lookup_take_lt by lia. reflexivity.
  - rewrite lookup_app_r by (rewrite length_take; lia).
    rewrite length_take, Nat.min_l by lia.
    destruct (decide (j < L')%nat) as [Hj'|Hj'].
    + rewrite lookup_take_lt, Hmr by lia.
      rewrite bool_decide_eq_true_2 by lia.
      symmetry. apply lookup_replicate_2. lia.
    + rewrite lookup_take_ge by lia. symmetry.
      apply lookup_replicate_None. lia.
Qed.

(** on a longer input, the weights of position [i] are followed by zeros *)
Lemma head_weights_prefix (d : nat) (q qe k ke : mat) (i : nat) :
  length q = length k ->
  (length (k ++ ke) <= ctx')%nat -> (i < length k)%nat ->
  head_weights d (q ++ qe) (k ++ ke)
    (MultiheadAttention.attn_mask m (length (k ++ ke))) !! i
  = (fun w => w ++ replicate (length ke) 0)
    <$> head_weights d q k (MultiheadAttention.attn_mask m (length k)) !! i.
Proof.
  intros Hq Hctx Hi. rewrite length_app in Hctx.
  destruct (mask_row i ltac:(lia)) as (mr & Hmr & Hlen & Hent).
  unfold head_weights. rewrite !lookup_zip_with.
  rewrite lookup_app_l by lia.
  rewrite (attn_mask_row (length (k ++ ke)) i mr), (attn_mask_row (length k) i mr);
    [|lia|lia|exact Hmr|rewrite length_app; lia|rewrite length_app; lia|exact Hmr].
  destruct (q !! i) as [qi|]; [|reflexivity]. simpl. f_equal.
  rewrite (mask_row_extend mr i (length k) (length (k ++ ke)))
    by (rewrite ?length_app; auto with lia).
  rewrite length_app, map_app.
  replace (length k + length ke - length k)%nat
    with (length (map (fun kj => dot qi kj / sqrt (INR d)) ke))
    by (rewrite length_map; lia).
  rewrite masked_fill_extend by (rewrite length_map, length_take; lia).
  rewrite softmax_scores_extend. now rewrite length_map.
Qed.

Lemma head_weights_row_length (d : nat) (q k : mat) (L i : nat) (w : vec) :
  length q = L -> length k = L -> (L <= ctx')%nat ->
  head_weights d q k (MultiheadAttention.attn_mask m L) !! i = Some w ->
  length w = L.
Proof.
  intros Hq Hk HL Hw.
  destruct (head_weights_shape d q k (MultiheadAttention.attn_mask m L) L Hq Hk)
    as [_ Hrows]; [now apply attn_mask_shape|].
  eapply Forall_lookup_1 in Hrows; [exact Hrows|exact Hw].
Qed.

Lemma attend_prefix (d l : nat) (q qe k ke v ve : mat) (i : nat) :
  length q = length k -> length v = length k -> length ve = length ke ->
  (length (k ++ ke) <= ctx')%nat -> (i < length k)%nat ->
  Forall (fun a => length a = l) (v ++ ve) -> (l <= d)%nat ->
  attend d (head_weights d (q ++ qe) (k ++ ke)
              (MultiheadAttention.attn_mask m (length (k ++ ke)))) (v ++ ve) !! i
  = attend d (head_weights d q k (MultiheadAttention.attn_mask m (length k))) v !! i.
Proof.
  intros Hq Hv Hve Hctx Hi Hl Hd. unfold attend.
  rewrite !list_lookup_fmap, head_weights_prefix by assumption.
  destruct (head_weights d q k _ !! i) as [w|] eqn:Hw; [|reflexivity].
  simpl. f_equal.
  assert (Hwl : length w = length k).
  { eapply head_weights_row_length; [exact Hq|reflexivity| |exact Hw].
    rewrite length_app in Hctx. lia. }
  rewrite zip_with_app by congruence.
  apply Forall_app in Hl as [Hlv Hlve].
  apply (vsum_zero_tail d l).
  - intros Hnil. apply (f_equal length) in Hnil.
    rewrite length_zip_with in Hnil. simpl in Hnil. lia.
  - apply Forall_forall. intros a Ha.
    apply elem_of_lookup_zip_with in Ha as (j & wj & vj & -> & _ & Hvj).
    unfold scale. rewrite length_map.
    eapply Forall_lookup_1 in Hlv; [exact Hlv|exact Hvj].
  - apply Forall_forall. intros z Hz.
    apply elem_of_lookup_zip_with in Hz as (j & wj & vj & -> & Hwj & Hvj).
    apply lookup_replicate in Hwj as [-> _]. rewrite scale_zero.
    eapply Forall_lookup_1 in Hlve; [|exact Hvj]. now rewrite Hlve.
  - exact Hd.
Qed.

Lemma attend_prefix_at (d l : nat) (q qe k ke v ve : mat) (i L L' : nat) :
  L = length k -> L' = length (k ++ ke) ->
  length q = length k -> length v = length k -> length ve = length ke ->
  (L' <= ctx')%nat -> (i < L)%nat ->
  Forall (fun a => length a = l) (v ++ ve) -> (l <= d)%nat ->
  attend d (head_weights d (q ++ qe) (k ++ ke)
              (MultiheadAttention.attn_mask m L')) (v ++ ve) !! i
  = attend d (head_weights d q k (MultiheadAttention.attn_mask m L)) v !! i.
Proof. intros -> ->. apply attend_prefix. Qed.

Lemma linear_length (l : Linear) (x y : vec) :
  length (linear l x) = length (linear l y).
Proof.
  unfold linear. destruct (bias l) as [b|].
  - unfold vadd. now rewrite !length_zip_with, !length_map.
  - now rewrite !length_map.
Qed.

Lemma forward_seq_bound (x y : mat) :
  MultiheadAttention.forward_seq m x = Ok y -> (length x <= ctx')%nat.
Proof.
  unfold MultiheadAttention.forward_seq, mha_forward, mha_weights. intros H.
  destruct (decide (mask_shape _ _)) as [[Hlen _]|]; [|discriminate].
  unfold MultiheadAttention.attn_mask in Hlen.
  rewrite length_map, length_take, mask_length in Hlen. lia.
Qed.

(** The attention of the first positions of a sequence is the first
    positions of the attention of the whole sequence. *)
Lemma attention_prefix (x e : mat) :
  (length (x ++ e) <= ctx')%nat ->
  MultiheadAttention.forward_seq m x
  = take (length x) <$> MultiheadAttention.forward_seq m (x ++ e).
Proof.
  intros Hctx.
  assert (Hx : (length x <= ctx')%nat) by (rewrite length_app in Hctx; lia).
  unfold MultiheadAttention.forward_seq, mha_forward, mha_weights.
  destruct (decide (mask_shape _ (length x))) as [_|Hn];
    [|destruct Hn; now apply attn_mask_shape].
  destruct (decide (mask_shape _ (length (x ++ e)))) as [_|Hn];
    [|destruct Hn; now apply attn_mask_shape].
  simpl. f_equal. rewrite <- !fmap_take. do 2 f_equal.
  unfold merge_heads. rewrite <- fmap_take, take_seq.
  rewrite Nat.min_l by (rewrite length_app; lia).
  apply map_ext_in. intros i Hi. apply in_seq in Hi. f_equal.
  rewrite !zip_with_fmap_r, !zip_with_diag, !map_map.
  apply map_ext. intros h. f_equal.
  set (d := head_dim (MultiheadAttention.mha m)).
  unfold queries, keys, values. rewrite !map_app.
  set (sh := split_head d h).
  symmetry.
  apply (attend_prefix_at d
           (length (sh (slice (2 * embed_dim (MultiheadAttention.mha m))
                           (3 * embed_dim (MultiheadAttention.mha m))
                           (linear (in_proj (MultiheadAttention.mha m)) []))))
           _ _ _ _ _ _ i (length x) (length (x ++ e))).
  - now rewrite !length_map.
  - now rewrite !length_app, !length_map.
  - now rewrite !length_map.
  - now rewrite !length_map.
  - now rewrite !length_map.
  - exact Hctx.
  - lia.
  - rewrite <- !map_app. apply Forall_fmap, Forall_fmap, Forall_forall.
    intros xi _. simpl. unfold sh, split_head.
    rewrite !slice_length.
    now rewrite (linear_length _ xi []).
  - unfold sh, split_head. rewrite slice_length. lia.
Qed.
End AttentionPrefix.

Section Causality.
Variable GELU : R -> R.

Lemma mapM_take {A B} (f : A -> result B) (l : list A) (k : list B) (n : nat) :
  mapM f l = Ok k -> mapM f (take n l) = Ok (take n k).
Proof. intros H. apply mapM_Ok_iff, Forall2_take, mapM_Ok_iff, H. Qed.

Lemma take_min_length {A} (a : list A) (L n : nat) :
  length a = n -> take (Nat.min L n) a = take L a.
Proof.
  intros Hn. destruct (decide (L <= n)) as [Hle|Hgt].
  - now rewrite Nat.min_l.
  - rewrite Nat.min_r by lia. rewrite !take_ge by lia. reflexivity.
Qed.

Lemma block_prefix (b : Block.t) (s y : mat) (L : nat) :
  PerSequence.block GELU b s = Ok y ->
  PerSequence.block GELU b (take L s) = Ok (take L y).
Proof.
  unfold PerSequence.block. intros H.
  apply bind_Ok in H as (a & Ha & H). injection H as <-.
  set (n := map (layer_norm (Block.sa_norm b)) s) in *.
  pose proof (forward_seq_bound _ _ _ Ha) as Hbound.
  pose proof (attention_seq_length _ _ _ Ha) as Hlen.
  pose proof (attention_prefix (Block.mha b) (take L n) (drop L n)) as Hpre.
  rewrite take_drop, Ha in Hpre. specialize (Hpre Hbound). simpl in Hpre.
  rewrite length_take, (take_min_length a L (length n) Hlen) in Hpre.
  assert (Hn : map (layer_norm (Block.sa_norm b)) (take L s) = take L n)
    by exact (fmap_take _ _ _).
  rewrite Hn, Hpre. simpl. f_equal.
  unfold madd. rewrite !zip_with_take. f_equal.
  rewrite <- (zip_with_take vadd L s a). exact (fmap_take _ _ _).
Qed.

Lemma decoder_prefix (bs : list Block.t) (s y : mat) (L : nat) :
  PerSequence.decoder GELU bs s = Ok y ->
  PerSequence.decoder GELU bs (take L s) = Ok (take L y).
Proof.
  revert s. induction bs as [|b bs IH]; simpl; intros s H.
  - now injection H as <-.
  - apply bind_Ok in H as (z & Hz & H).
    rewrite (block_prefix b s z L Hz). simpl. now apply IH.
Qed.

Lemma per_sequence_prefix (m : GPT.t) (pe : mat) (row : list nat) (lg : mat)
    (L : nat) :
  PerSequence.forward GELU m pe row = Ok lg ->
  PerSequence.forward GELU m (take L pe) (take L row) = Ok (take L lg).
Proof.
  unfold PerSequence.forward. intros H.
  apply bind_Ok in H as (tok & Htok & H).
  apply bind_Ok in H as (h & Hh & H). injection H as <-.
  rewrite (mapM_take _ _ _ L Htok). simpl.
  unfold madd in *. rewrite <- zip_with_take.
  rewrite (decoder_prefix _ _ _ L Hh). simpl.
  unfold PerSequence.head. f_equal. exact (fmap_take _ _ _).
Qed.

Lemma forward_prefix (m : GPT.t) (x : GPT.ids) (logits : list mat) (L : nat) :
  GPT.forward GELU m x = Ok logits ->
  GPT.forward GELU m (truncate L x) = Ok (map (take L) logits).
Proof.
  intros H. apply forward_rows in H as (pe & Hpe & H).
  apply forward_rows. exists (take L pe). simpl. split.
  - rewrite <- take_seq. now apply mapM_take.
  - apply Forall2_fmap. eapply Forall2_impl; [exact H|]. simpl.
    intros row lg. apply per_sequence_prefix.
Qed.

(** Causality of the whole model.  If the forward pass returns on a
    batch, it returns on the batch cut to its first [L] positions, with
    the first [L] positions of the same logits.  So two batches with the
    same first [L] tokens in every row get the same logits at the first
    [L] positions: the logits of a position depend on no later token. *)
Theorem logits_ignore_later_tokens (m : GPT.t) (x1 x2 : GPT.ids)
    (l1 l2 : list mat) (L : nat) :
  GPT.forward GELU m x1 = Ok l1 ->
  GPT.forward GELU m x2 = Ok l2 ->
  GPT.forward GELU m (truncate L x1) = Ok (map (take L) l1)
  /\ (truncate L x1 = truncate L x2 -> map (take L) l1 = map (take L) l2).
Proof.
  intros H1 H2. split; [now apply forward_prefix|].
  intros Heq. apply (forward_prefix m x1 l1 L) in H1.
  apply (forward_prefix m x2 l2 L) in H2. rewrite Heq in H1. congruence.
Qed.
End Causality.

Lemma logits_ignore_later_tokens_witness :
  exists l1 l2,
    GPT.forward (fun a => a) Examples.model
      {| GPT.batch := 1; GPT.seq_len := 2; GPT.rows := [[1; 0]] |} = Ok l1
    /\ GPT.forward (fun a => a) Examples.model
         {| GPT.batch := 1; GPT.seq_len := 2; GPT.rows := [[1; 5]] |} = Ok l2
    /\ GPT.forward (fun a => a) Examples.model
         (truncate 1 {| GPT.batch := 1; GPT.seq_len := 2; GPT.rows := [[1; 0]] |})
       = Ok (map (take 1) l1)
    /\ map (take 1) l1 = map (take 1) l2.
Proof.
  destruct (forward_shape (fun a => a) Examples.config Examples.model
              {| GPT.batch := 1; GPT.seq_len := 2; GPT.rows := [[1; 0]] |})
    as (l1 & H1 & _);
    [exact example_model_built|split; [reflexivity|repeat constructor]
    |repeat constructor; simpl; lia|simpl; lia|].
  destruct (forward_shape (fun a => a) Examples.config Examples.model
              {| GPT.batch := 1; GPT.seq_len := 2; GPT.rows := [[1; 5]] |})
    as (l2 & H2 & _);
    [exact example_model_built|split; [reflexivity|repeat constructor]
    |repeat constructor; simpl; lia|simpl; lia|].
  exists l1, l2. split; [exact H1|]. split; [exact H2|].
  destruct (logits_ignore_later_tokens (fun a => a) Examples.model _ _ l1 l2 1 H1 H2)
    as [Ht Heq].
  split; [exact Ht|]. apply Heq. reflexivity.
Defined.

(** ** Attention weights are distributions *)

Section AttentionRows.
#[local] Open Scope R_scope.

Lemma score_exp_nonneg (S : list score) : Forall (fun p => 0 <= p) (map score_exp S).
Proof.
  apply Forall_fmap, Forall_forall. intros [|r] _; simpl; [lra|].
  left. apply exp_pos.
Qed.

Lemma softmax_scores_distribution (S : list score) (j : nat) (r : R) :
  S !! j = Some (Fin r) ->
  Forall (fun p => 0 <= p) (softmax_scores S) /\ Rsum (softmax_scores S) = 1.
Proof.
  intros Hj.
  assert (HS : 0 < Rsum (map score_exp S)).
  { apply (Rsum_entry_pos _ j (exp r)); [apply score_exp_nonneg| |apply exp_pos].
    rewrite list_lookup_fmap, Hj. reflexivity. }
  unfold softmax_scores. split.
  - apply Forall_fmap, Forall_forall. intros s _. simpl.
    apply Rmult_le_pos; [|left; now apply Rinv_0_lt_compat].
    destruct s; simpl; [lra|left; apply exp_pos].
  - rewrite (Rsum_div score_exp). field. lra.
Qed.

(** For an input of at least one and at most [context] positions, every
    row of every head's attention weights is a probability distribution:
    its entries are non-negative and sum to 1. *)
Theorem attention_rows_are_distributions (m : MultiheadAttention.t) (x : mat) :
  (length x <= MultiheadAttention.context m)%nat ->
  exists W,
    MultiheadAttention.weights m x = Ok W
    /\ forall h Wh i row,
         W !! h = Some Wh -> Wh !! i = Some row ->
         Forall (fun p => 0 <= p) row /\ Rsum row = 1.
Proof.
  intros HL. unfold MultiheadAttention.weights, mha_weights.
  pose proof (attn_mask_shape m (length x) HL) as Hshape.
  destruct (decide (mask_shape _ _)) as [_|Hn]; [|contradiction].
  eexists. split; [reflexivity|].
  intros h Wh i row HWh Hrow.
  rewrite list_lookup_fmap in HWh.
  destruct (seq 0 _ !! h) as [h'|]; [|discriminate].
  injection HWh as <-.
  set (d := head_dim (MultiheadAttention.mha m)) in *.
  set (qh := map (split_head d h') (queries (MultiheadAttention.mha m) x)) in *.
  set (kh := map (split_head d h') (keys (MultiheadAttention.mha m) x)) in *.
  assert (Hq : length qh = length x) by (unfold qh, queries; now rewrite !length_map).
  assert (Hk : length kh = length x) by (unfold kh, keys; now rewrite !length_map).
  destruct (head_weights_shape d qh kh _ (length x) Hq Hk Hshape) as [Hlen _].
  assert (Hi : (i < length x)%nat).
  { rewrite <- Hlen. eapply lookup_lt_Some, Hrow. }
  unfold head_weights in Hrow.
  apply lookup_zip_with_Some in Hrow as (qi & mrow & -> & _ & Hmrow).
  destruct (attn_mask_lookup m (length x) i i HL Hi Hi) as (mrow' & Hm' & Hb).
  rewrite Hm' in Hmrow. injection Hmrow as <-.
  rewrite bool_decide_eq_false_2 in Hb by lia.
  destruct (lookup_lt_is_Some_2
              (map (fun kj => dot qi kj / sqrt (INR d)) kh) i) as [s Hs].
  { now rewrite length_map, Hk. }
  apply (softmax_scores_distribution _ i s).
  unfold masked_fill. apply lookup_zip_with_Some.
  exists s, false. auto.
Qed.
End AttentionRows.

Lemma attention_rows_are_distributions_witness :
  exists W,
    MultiheadAttention.weights Examples.attention [[1%R]; [2%R]] = Ok W
    /\ forall h Wh i row,
         W !! h = Some Wh -> Wh !! i = Some row ->
         Forall (fun p => (0 <= p)%R) row /\ Rsum row = 1%R.
Proof.
  apply (attention_rows_are_distributions Examples.attention [[1%R]; [2%R]]).
  simpl. lia.
Defined.

(** ** The sampling strategies *)

Section Samplers.
#[local] Open Scope R_scope.

Lemma div_temp_nonzero (logits : mat) (temp : R) :
  temp <> 0 ->
  Inference.div_temp logits temp = Ok (map (map (fun a => a / temp)) logits).
Proof.
  intros Ht. unfold Inference.div_temp.
  assert (H : mapM (fun row => div_scalar row temp) logits
              = Some (map (map (fun a => a / temp)) logits)).
  { induction logits as [|row logits IH]; [reflexivity|].
    change (mapM (fun row => div_scalar row temp) (row :: logits))
      with (div_scalar row temp ≫= fun y =>
            mapM (fun row => div_scalar row temp) logits ≫= fun k =>
            mret (y :: k)).
    rewrite IH. unfold div_scalar.
    destruct (decide (temp = 0)); [contradiction|]. reflexivity. }
  now rewrite H.
Qed.

Lemma div_temp_zero (row : vec) (logits : mat) :
  Inference.div_temp (row :: logits) 0 = Raise RuntimeError.
Proof.
  unfold Inference.div_temp.
  change (mapM (fun row => div_scalar row 0) (row :: logits))
    with (div_scalar row 0 ≫= fun y =>
          mapM (fun row => div_scalar row 0) logits ≫= fun k =>
          mret (y :: k)).
  assert (H0 : div_scalar row 0 = None).
  { unfold div_scalar. destruct (decide (0 = 0)); [reflexivity|congruence]. }
  rewrite H0. reflexivity.
Qed.

Lemma div_one (row : vec) : map (fun a => a / 1) row = row.
Proof.
  induction row as [|a row IH]; simpl; [reflexivity|].
  rewrite IH. f_equal. lra.
Qed.

Lemma topk_probs_nonneg (row probs : vec) (idxs : list nat) :
  length probs = length row ->
  (forall j, (j < length row)%nat -> j ∉ idxs -> probs !! j = Some 0) ->
  (forall i, i ∈ idxs -> exists p, probs !! i = Some p /\ 0 < p) ->
  Forall (fun p => 0 <= p) probs.
Proof.
  intros Hlen Hout Hin. apply Forall_lookup. intros j x Hj.
  destruct (decide (j ∈ idxs)) as [Hd|Hd].
  - destruct (Hin j Hd) as (p & Hp & Hpos). rewrite Hp in Hj.
    injection Hj as <-. lra.
  - rewrite Hout in Hj; [injection Hj as <-; lra| |exact Hd].
    rewrite <- Hlen. eapply lookup_lt_Some, Hj.
Qed.

(** with [k >= 1] the draw from the top-k probabilities returns one of
    the selected indices *)
Lemma draw_topk (row : vec) (k : Z) (u : R) :
  (1 <= k <= Z.of_nat (length row))%Z -> 0 <= u < 1 ->
  exists probs i,
    Inference.topk [row] k = Ok [probs]
    /\ multinomial u probs = Ok i
    /\ i ∈ map fst (select (Z.to_nat k) (indexed row))
    /\ (i < length row)%nat.
Proof.
  intros Hk Hu.
  destruct (topk_single_row row k ltac:(lia))
    as (probs & _ & Htop & Hlen & Hk' & _ & Hrange & _ & Hout & _ & Hin).
  set (idxs := map fst (select (Z.to_nat k) (indexed row))) in *.
  pose proof (topk_probs_nonneg row probs idxs Hlen Hout Hin) as Hnn.
  assert (HS : 0 < Rsum probs).
  { destruct idxs as [|i0 idxs'] eqn:Hidxs; [simpl in Hk'; lia|].
    destruct (Hin i0 ltac:(apply list_elem_of_here)) as (p & Hp & Hpos).
    eapply Rsum_entry_pos; eauto. }
  destruct (multinomial_returns u probs Hnn HS Hu) as (i & x & Hi & Hx & Hpos).
  exists probs, i. split; [exact Htop|]. split; [exact Hi|].
  assert (Hil : (i < length row)%nat).
  { rewrite <- Hlen. eapply lookup_lt_Some, Hx. }
  destruct (decide (i ∈ idxs)) as [Hd|Hd]; [auto|].
  rewrite (Hout i Hil Hd) in Hx. injection Hx as <-. lra.
Qed.

Lemma sample_topk_returns (row : vec) (temp : R) (k : Z) (u : R) :
  temp <> 0 -> (1 <= k <= Z.of_nat (length row))%Z -> 0 <= u < 1 ->
  exists i, Inference.sample_topk temp k u [row] = Ok [i] /\ (i < length row)%nat.
Proof.
  intros Ht Hk Hu. unfold Inference.sample_topk.
  rewrite div_temp_nonzero by exact Ht. simpl.
  destruct (draw_topk (map (fun a => a / temp) row) k u)
    as (probs & i & Htop & Hi & _ & Hil); [now rewrite length_map|exact Hu|].
  rewrite length_map in Hil.
  exists i. split; [|exact Hil].
  rewrite Htop. simpl. rewrite Hi. reflexivity.
Qed.

Lemma sample_topk_raises (row : vec) (temp : R) (k : Z) (u : R) :
  (k < 1 \/ Z.of_nat (length row) < k)%Z ->
  raises (Inference.sample_topk temp k u [row]).
Proof.
  intros Hk. unfold Inference.sample_topk.
  destruct (decide (temp = 0)) as [->|Ht].
  { rewrite div_temp_zero. eexists. reflexivity. }
  rewrite div_temp_nonzero by exact Ht. simpl.
  set (scaled := map (fun a => a / temp) row).
  assert (Hlen : length scaled = length row) by apply length_map.
  destruct (decide (k = 0%Z)) as [->|Hk0].
  - destruct (topk_single_row scaled 0 ltac:(lia))
      as (probs & _ & Htop & Hl & _ & _ & _ & _ & Hout & _ & _).
    rewrite Htop. simpl.
    assert (HS : Rsum probs = 0).
    { assert (Hp : probs = map (fun _ => 0) scaled).
      { apply list_eq. intros j. rewrite list_lookup_fmap.
        destruct (decide (j < length scaled)%nat) as [Hj|Hj].
        - rewrite Hout; [|exact Hj|simpl; apply not_elem_of_nil].
          destruct (lookup_lt_is_Some_2 scaled j Hj) as [a ->]. reflexivity.
        - rewrite !lookup_ge_None_2 by lia. reflexivity. }
      rewrite Hp. apply Rsum_zeros. }
    rewrite multinomial_raises by lra. eexists. reflexivity.
  - rewrite topk_one_row. unfold Torch.topk.
    destruct (decide _) as [Hin|_]; [lia|]. eexists. reflexivity.
Qed.

Lemma sample_temperature_returns (row : vec) (temp : R) (u : R) :
  row <> [] -> temp <> 0 -> 0 <= u < 1 ->
  exists i, Inference.sample_temperature temp u [row] = Ok [i]
            /\ (i < length row)%nat.
Proof.
  intros Hrow Ht Hu. unfold Inference.sample_temperature.
  rewrite div_temp_nonzero by exact Ht. simpl.
  set (probs := softmax (map (fun a => a / temp) row)).
  assert (Hne : map (fun a => a / temp) row <> []).
  { destruct row; [congruence|discriminate]. }
  destruct (multinomial_returns u probs) as (i & x & Hi & Hx & _).
  - eapply Forall_impl; [apply softmax_pos|]. simpl. intros; lra.
  - unfold probs. rewrite softmax_sum by exact Hne. lra.
  - exact Hu.
  - exists i. rewrite Hi. split; [reflexivity|].
    apply lookup_lt_Some in Hx. unfold probs in Hx.
    now rewrite softmax_length, length_map in Hx.
Qed.

Lemma argmax_best (row : vec) :
  row <> [] ->
  exists c l, indexed row = c :: l /\ argmax row = Ok (fst (best c l))
              /\ (fst (best c l) < length row)%nat.
Proof.
  intros Hrow. unfold argmax.
  destruct (indexed row) as [|c l] eqn:Hix.
  - apply (f_equal length) in Hix. rewrite indexed_length in Hix.
    destruct row; [congruence|discriminate].
  - exists c, l. repeat split.
    pose proof (best_elem c l) as Hb. rewrite <- Hix in Hb.
    destruct (best c l) as [i a]. apply indexed_lookup in Hb. simpl.
    eapply lookup_lt_Some, Hb.
Qed.

Lemma sample_greedy_returns (row : vec) :
  row <> [] ->
  exists i, Inference.sample_greedy [row] = Ok [i] /\ (i < length row)%nat.
Proof.
  intros Hrow. destruct (argmax_best row Hrow) as (c & l & _ & Ha & Hi).
  exists (fst (best c l)). unfold Inference.sample_greedy. simpl.
  rewrite Ha. split; [reflexivity|exact Hi].
Qed.

Lemma finite_quotients_nonzero (row : vec) (temp : R) :
  Float32.finite_quotients row temp -> temp <> 0.
Proof.
  intros [Ht _] ->. unfold Float32.smallest_normal in Ht. rewrite Rabs_R0 in Ht.
  pose proof (Rinv_0_lt_compat (2 ^ 126) (pow_lt 2 126 ltac:(lra))). lra.
Qed.



(** C8, as the code has it.  No sampling parameter is checked.  The
    temperature strategy raises at [temperature = 0]; it returns a token
    at every temperature, the negative ones included, at which the
    quotients [logits / temperature] are finite floats.  The top-k
    strategy raises whenever [k < 1] or [k > vocab_size]; with
    [1 <= k <= vocab_size] and finite quotients it returns a token. *)
Theorem sampling_parameter_failures (row : vec) (u : R) :
  row <> [] -> 0 <= u < 1 ->
  raises (Inference.sample_temperature 0 u [row])
  /\ (forall temp, Float32.finite_quotients row temp ->
        returns (Inference.sample_temperature temp u [row]))
  /\ (forall temp k, (k < 1 \/ Z.of_nat (length row) < k)%Z ->
        raises (Inference.sample_topk temp k u [row]))
  /\ (forall temp k, Float32.finite_quotients row temp ->
        (1 <= k <= Z.of_nat (length row))%Z ->
        returns (Inference.sample_topk temp k u [row])).
Proof.
  intros Hrow Hu. repeat split.
  - exists RuntimeError. unfold Inference.sample_temperature.
    now rewrite div_temp_zero.
  - intros temp Hfin. pose proof (finite_quotients_nonzero row temp Hfin) as Ht.
    destruct (sample_temperature_returns row temp u Hrow Ht Hu) as (i & Hi & _).
    eexists. exact Hi.
  - intros temp k Hk. now apply sample_topk_raises.
  - intros temp k Hfin Hk.
    pose proof (finite_quotients_nonzero row temp Hfin) as Ht.
    destruct (sample_topk_returns row temp k u Ht Hk Hu) as (i & Hi & _).
    eexists. exact Hi.
Qed.
End Samplers.

(** quotients by a temperature of magnitude 1 are as finite as the
    logits *)
Lemma finite_quotients_unit (row : vec) (temp : R) :
  Rabs temp = 1%R -> Forall (fun a => (Rabs a <= 4)%R) row ->
  Float32.finite_quotients row temp.
Proof.
  intros Ht Hrow. unfold Float32.finite_quotients, Float32.smallest_normal,
    Float32.quotient_bound.
  assert (H124 : (1 <= 2 ^ 124)%R) by (apply pow_R1_Rle; lra).
  assert (H126 : (2 ^ 126 = 4 * 2 ^ 124)%R).
  { replace 126%nat with (2 + 124)%nat by reflexivity. rewrite pow_add.
    f_equal. change (2 ^ 2)%R with (2 * (2 * 1))%R. lra. }
  set (p := (2 ^ 124)%R) in *. rewrite H126. split.
  - rewrite Ht. rewrite <- Rinv_1. apply Rinv_le_contravar; lra.
  - eapply Forall_impl; [exact Hrow|]. simpl. intros a Ha.
    unfold Rdiv. rewrite Rabs_mult, Rabs_inv, Ht, Rinv_1. lra.
Qed.


Lemma sampling_parameter_failures_witness :
  raises (Inference.sample_temperature 0 (1 / 2) [[1; 3; 2]%R])
  /\ (forall temp, Float32.finite_quotients [1; 3; 2]%R temp ->
        returns (Inference.sample_temperature temp (1 / 2) [[1; 3; 2]%R]))
  /\ (forall temp k, (k < 1 \/ 3 < k)%Z ->
        raises (Inference.sample_topk temp k (1 / 2) [[1; 3; 2]%R]))
  /\ (forall temp k, Float32.finite_quotients [1; 3; 2]%R temp ->
        (1 <= k <= 3)%Z ->
        returns (Inference.sample_topk temp k (1 / 2) [[1; 3; 2]%R])).
Proof.
  apply (sampling_parameter_failures [1; 3; 2]%R (1 / 2)%R); [discriminate|lra].
Defined.

(** a negative temperature is accepted: at [-1] the quotients are
    finite and the call returns a token *)
Lemma negative_temperature_accepted :
  (-1 <= 0)%R
  /\ Float32.finite_quotients [1; 3; 2]%R (-1)
  /\ ~ raises (Inference.sample_temperature (-1) (1 / 2) [[1; 3; 2]%R]).
Proof.
  split; [lra|]. split.
  - apply finite_quotients_unit.
    + rewrite Rabs_left by lra. lra.
    + repeat constructor; rewrite Rabs_right; lra.
  - intros [e He].
    destruct (sample_temperature_returns [1; 3; 2]%R (-1) (1 / 2))
      as (i & Hi & _); [discriminate|lra|lra|].
    rewrite Hi in He. discriminate.
Qed.

(** ** More on top-k and temperature *)

Section TopKMore.
#[local] Open Scope R_scope.

Lemma Rsum_Permutation (l k : vec) : Permutation l k -> Rsum l = Rsum k.
Proof. induction 1; simpl; lra. Qed.

Lemma indexed_snd (row : vec) : map snd (indexed row) = row.
Proof.
  unfold indexed. apply list_eq. intros i.
  rewrite list_lookup_fmap, list_lookup_imap.
  destruct (row !! i); reflexivity.
Qed.

(** the values kept by a selection are the entries of the row at the
    selected indices *)
Lemma selected_values (row : vec) (sel : list (nat * R)) :
  (forall x, x ∈ sel -> x ∈ indexed row) ->
  map snd sel = map (fun j => default 0 (row !! j)) (map fst sel).
Proof.
  induction sel as [|[i a] sel IH]; intros Hin; [reflexivity|].
  simpl. rewrite IH by (intros x Hx; apply Hin; now apply list_elem_of_further).
  f_equal. assert (H : row !! i = Some a).
  { apply indexed_lookup, Hin, list_elem_of_here. }
  now rewrite H.
Qed.

(** The top-k probabilities are the softmax probabilities renormalised
    over the selected indices: a selected index [i] gets
    [softmax(row)[i]] divided by the softmax mass of the selection, which
    is [exp(row[i])] divided by the sum of the selected exponentials. *)
Theorem topk_renormalises_softmax (row : vec) (k : Z) :
  (1 <= k <= Z.of_nat (length row))%Z ->
  exists sel probs,
    Torch.topk row k = Ok sel
    /\ Inference.topk [row] k = Ok [probs]
    /\ forall i a, i ∈ map fst sel -> row !! i = Some a ->
         probs !! i
           = Some (exp a / Rsum (map (fun j => exp (default 0 (row !! j))) (map fst sel)))
         /\ probs !! i
           = Some (default 0 (softmax row !! i)
                   / Rsum (map (fun j => default 0 (softmax row !! j)) (map fst sel))).
Proof.
  intros Hk.
  destruct (topk_single_row row k ltac:(lia))
    as (probs & Htopk & Htop & Hlen & _ & _ & Hrange & _ & _ & Hmap & Hpos).
  set (sel := select (Z.to_nat k) (indexed row)) in *.
  exists sel, probs. split; [exact Htopk|]. split; [exact Htop|].
  assert (Hvals : map snd sel = map (fun j => default 0 (row !! j)) (map fst sel)).
  { apply selected_values. intros x. apply select_elem. }
  assert (Hfirst : forall i a, i ∈ map fst sel -> row !! i = Some a ->
            probs !! i
            = Some (exp a / Rsum (map (fun j => exp (default 0 (row !! j))) (map fst sel)))).
  { intros i a Hi Ha.
    destruct (Hpos i Hi) as (p & Hp & _). rewrite Hp. f_equal.
    apply list_elem_of_lookup in Hi as [q Hq].
    assert (Hq' : map (fun i => default 0 (probs !! i)) (map fst sel) !! q = Some p).
    { rewrite list_lookup_fmap, Hq. simpl. now rewrite Hp. }
    rewrite Hmap in Hq'. unfold softmax in Hq'.
    rewrite Hvals in Hq'. rewrite 2!list_lookup_fmap, Hq in Hq'. simpl in Hq'.
    rewrite Ha in Hq'. simpl in Hq'. injection Hq' as <-.
    f_equal. f_equal. rewrite <- !list_fmap_compose. reflexivity. }
  intros i a Hi Ha. split; [now apply Hfirst|].
  rewrite (Hfirst i a Hi Ha). f_equal.
  assert (Hne : row <> []) by (destruct row; [simpl in Hk; lia|discriminate]).
  pose proof (Rsum_exp_pos row Hne) as HS.
  unfold softmax at 1. rewrite list_lookup_fmap, Ha. simpl.
  assert (Hden : Rsum (map (fun j => default 0 (softmax row !! j)) (map fst sel))
                 = Rsum (map (fun j => exp (default 0 (row !! j))) (map fst sel))
                   / Rsum (map exp row)).
  { rewrite <- (Rsum_div (fun j => exp (default 0 (row !! j)))).
    f_equal. apply map_ext_in. intros j Hj.
    apply list_elem_of_In in Hj. apply Hrange in Hj.
    destruct (lookup_lt_is_Some_2 row j Hj) as [b Hb].
    unfold softmax. rewrite list_lookup_fmap, Hb. reflexivity. }
  rewrite Hden.
  assert (Hsel : 0 < Rsum (map (fun j => exp (default 0 (row !! j))) (map fst sel))).
  { rewrite <- (map_map (fun j => default 0 (row !! j)) exp (map fst sel)).
    apply Rsum_exp_pos. intros Hnil. apply (f_equal length) in Hnil.
    rewrite !length_map in Hnil.
    assert (length sel = Z.to_nat k).
    { unfold sel. rewrite select_length, indexed_length.
      - lia.
      - rewrite indexed_fst. apply NoDup_seq. }
    simpl in Hnil. lia. }
  field. split; lra.
Qed.

Lemma select_all (cands : list (nat * R)) :
  NoDup (map fst cands) -> Permutation (select (length cands) cands) cands.
Proof.
  intros Hnd. apply submseteq_length_Permutation.
  - apply NoDup_submseteq.
    + eapply NoDup_fmap_1, select_NoDup, Hnd.
    + intros x. apply select_elem.
  - rewrite select_length by exact Hnd. lia.
Qed.

(** With [k] equal to the size of the vocabulary nothing is cut: the
    top-k probabilities are the plain softmax. *)
Theorem topk_of_whole_vocabulary_is_softmax (row : vec) :
  Inference.topk [row] (Z.of_nat (length row)) = Ok [softmax row].
Proof.
  destruct (topk_single_row row (Z.of_nat (length row)) ltac:(lia))
    as (probs & _ & Htop & Hlen & Hk & _ & Hrange & _ & _ & Hmap & Hpos).
  rewrite Nat2Z.id in *.
  set (sel := select (length row) (indexed row)) in *.
  assert (Hnd0 : NoDup (map fst (indexed row))).
  { rewrite indexed_fst. apply NoDup_seq. }
  assert (Hperm : Permutation sel (indexed row)).
  { unfold sel. rewrite <- (indexed_length row) at 1. now apply select_all. }
  rewrite Htop. do 2 f_equal.
  apply list_eq. intros i.
  destruct (decide (i < length row)%nat) as [Hi|Hi].
  - destruct (lookup_lt_is_Some_2 row i Hi) as [a Ha].
    assert (Hin : i ∈ map fst sel).
    { rewrite Hperm. apply list_elem_of_fmap. exists (i, a).
      split; [reflexivity|]. now apply indexed_lookup. }
    destruct (Hpos i Hin) as (p & Hp & _). rewrite Hp.
    apply list_elem_of_lookup in Hin as [q Hq].
    assert (Hq' : map (fun i => default 0 (probs !! i)) (map fst sel) !! q = Some p).
    { rewrite list_lookup_fmap, Hq. simpl. now rewrite Hp. }
    rewrite Hmap in Hq'. unfold softmax in Hq'.
    rewrite list_lookup_fmap in Hq'.
    rewrite list_lookup_fmap in Hq.
    destruct (sel !! q) as [[i' a']|] eqn:Hsel; [|discriminate].
    simpl in Hq. injection Hq as ->.
    assert (Ha' : row !! i = Some a').
    { apply indexed_lookup. rewrite <- Hperm.
      eapply list_elem_of_lookup_2, Hsel. }
    rewrite Ha in Ha'. injection Ha' as <-.
    rewrite list_lookup_fmap, Hsel in Hq'. simpl in Hq'. injection Hq' as <-.
    unfold softmax. rewrite list_lookup_fmap, Ha. simpl. do 2 f_equal.
    apply Rsum_Permutation.
    rewrite <- (indexed_snd row).
    apply (fmap_Permutation exp), (fmap_Permutation snd), Hperm.
  - rewrite !lookup_ge_None_2; [reflexivity| |]; rewrite ?softmax_length; lia.
Qed.
End TopKMore.


Lemma topk_renormalises_softmax_witness :
  exists sel probs,
    Torch.topk [3; 1; 2]%R 2 = Ok sel
    /\ Inference.topk [[3; 1; 2]%R] 2 = Ok [probs]
    /\ forall i a, i ∈ map fst sel -> [3; 1; 2]%R !! i = Some a ->
         probs !! i
           = Some (exp a / Rsum (map (fun j => exp (default 0 ([3; 1; 2] !! j)))
                                    (map fst sel)))%R
         /\ probs !! i
           = Some (default 0 (softmax [3; 1; 2] !! i)
                   / Rsum (map (fun j => default 0 (softmax [3; 1; 2] !! j))
                             (map fst sel)))%R.
Proof.
  apply (topk_renormalises_softmax [3; 1; 2]%R 2). simpl. lia.
Defined.

(** ** Top-k on several rows *)

Section Rows.
#[local] Open Scope R_scope.

Lemma topk_two_rows (r1 r2 : vec) (k : Z) :
  Inference.topk [r1; r2] k
  = (s1 ← Torch.topk r1 k;
     s2 ← Torch.topk r2 k;
     Ok (Inference.put_cols (Inference.zeros_like [r1; r2])
           [map fst s1; map fst s2]
           [softmax (map snd s1); softmax (map snd s2)])).
Proof.
  unfold Inference.topk.
  change (mapM (fun row => Torch.topk row k) [r1; r2])
    with (Torch.topk r1 k ≫= (fun y =>
          (Torch.topk r2 k ≫= (fun y' => mret [] ≫= (fun k' => mret (y' :: k'))))
          ≫= (fun k' => mret (y :: k')))).
  destruct (Torch.topk r1 k) as [s1|e1]; [|reflexivity].
  destruct (Torch.topk r2 k) as [s2|e2]; reflexivity.
Qed.

Lemma top1_first : Torch.topk [1; 0] 1 = Ok [(0%nat, 1)].
Proof.
  unfold Torch.topk. destruct (decide _) as [_|Hn]; [|simpl in Hn; lia].
  simpl. destruct (decide (1 < 0)); [lra|reflexivity].
Qed.

Lemma top1_second : Torch.topk [0; 1] 1 = Ok [(1%nat, 1)].
Proof.
  unfold Torch.topk. destruct (decide _) as [_|Hn]; [|simpl in Hn; lia].
  simpl. destruct (decide (0 < 1)); [reflexivity|lra].
Qed.

(** C10.  There is a logits matrix with two rows, [[1, 0]] and
    [[0, 1]], for which [topk] with [k = 1] gives, in row 0, a non-zero
    probability to index 1, which is not the index of the largest logit
    of row 0: the column assignment writes the selected indices of every
    row into every row.  On a single row the probability is 0 at every
    index outside the row's own selection. *)
Theorem topk_mixes_rows :
  (exists (logits probs : mat) (k : Z) (r i : nat) (row prow : vec)
          (sel : list (nat * R)) (p : R),
      (2 <= length logits)%nat
      /\ Inference.topk logits k = Ok probs
      /\ logits !! r = Some row
      /\ Torch.topk row k = Ok sel
      /\ (i ∉ map fst sel)
      /\ probs !! r = Some prow
      /\ prow !! i = Some p
      /\ p <> 0)
  /\ (forall (row : vec) (k : Z),
        (1 <= k <= Z.of_nat (length row))%Z ->
        exists sel probs,
          Torch.topk row k = Ok sel
          /\ Inference.topk [row] k = Ok [probs]
          /\ forall j, (j < length row)%nat -> j ∉ map fst sel ->
                       probs !! j = Some 0).
Proof.
  split.
  - exists [[1; 0]; [0; 1]].
    exists [[exp 1 / (exp 1 + 0); exp 1 / (exp 1 + 0)];
            [exp 1 / (exp 1 + 0); exp 1 / (exp 1 + 0)]].
    exists 1%Z, 0%nat, 1%nat, [1; 0], [exp 1 / (exp 1 + 0); exp 1 / (exp 1 + 0)].
    exists [(0%nat, 1)], (exp 1 / (exp 1 + 0)).
    split; [simpl; lia|]. split.
    { rewrite topk_two_rows, top1_first, top1_second. reflexivity. }
    split; [reflexivity|]. split; [exact top1_first|].
    split.
    { simpl. intros H. apply list_elem_of_singleton in H. discriminate. }
    split; [reflexivity|]. split; [reflexivity|].
    pose proof (exp_pos 1) as He.
    apply Rgt_not_eq. apply Rdiv_lt_0_compat; lra.
  - intros row k Hk.
    destruct (topk_single_row row k ltac:(lia))
      as (probs & H1 & H2 & _ & _ & _ & _ & _ & H8 & _).
    exists (select (Z.to_nat k) (indexed row)), probs. auto.
Qed.
End Rows.

(** ** The training loss *)

Section Loss.
#[local] Open Scope R_scope.

(** the loss of one position, as [cross_entropy] computes it from
    [log_softmax], is the negative logarithm of the softmax probability *)
Lemma nll_neg_log_prob (row : vec) (t : nat) :
  (t < length row)%nat -> nll row t = Ok (Spec.neg_log_prob row t).
Proof.
  intros Ht. unfold nll, Spec.neg_log_prob, log_softmax, softmax.
  destruct (lookup_lt_is_Some_2 row t Ht) as [a Ha].
  rewrite list_lookup_fmap, Ha. simpl.
  rewrite nth_lookup, list_lookup_fmap, Ha. simpl.
  assert (HS : 0 < Rsum (map exp row)).
  { apply Rsum_exp_pos. destruct row; [simpl in Ht; lia|discriminate]. }
  do 2 f_equal. unfold Rdiv.
  rewrite ln_mult, ln_Rinv, ln_exp;
    [lra|exact HS|apply exp_pos|now apply Rinv_0_lt_compat].
Qed.

Lemma nll_rows (V : nat) (m : mat) (ys : list nat) :
  Forall (fun v => length v = V) m -> Forall (fun t => (t < V)%nat) ys ->
  mapM (fun rt => nll (fst rt) (snd rt)) (zip m ys)
  = Ok (zip_with Spec.neg_log_prob m ys).
Proof.
  intros Hm. revert ys. induction Hm as [|v m Hv _ IH]; intros ys Hys.
  - reflexivity.
  - destruct Hys as [|t ys Ht Hys]; [reflexivity|].
    change (mapM (fun rt => nll (fst rt) (snd rt)) (zip (v :: m) (t :: ys)))
      with (nll v t ≫= (fun l =>
            mapM (fun rt => nll (fst rt) (snd rt)) (zip m ys) ≫= (fun k =>
            mret (l :: k)))).
    rewrite nll_neg_log_prob by lia. rewrite (IH ys Hys). reflexivity.
Qed.

Lemma concat_length_uniform {A} (L : nat) (ls : list (list A)) :
  Forall (fun l => length l = L) ls -> length (concat ls) = (length ls * L)%nat.
Proof.
  induction 1 as [|l ls Hl _ IH]; simpl; [reflexivity|].
  rewrite length_app, IH, Hl. reflexivity.
Qed.

Lemma Rsum_concat_zip (L : nat) (logits : list mat) (y : list (list nat)) :
  Forall (fun m => length m = L) logits -> Forall (fun ys => length ys = L) y ->
  Rsum (zip_with Spec.neg_log_prob (concat logits) (concat y))
  = Rsum (zip_with (fun m ys => Rsum (zip_with Spec.neg_log_prob m ys)) logits y).
Proof.
  intros Hl. revert y. induction Hl as [|m logits Hm _ IH]; intros y Hy.
  - reflexivity.
  - destruct Hy as [|ys y Hys Hy].
    + simpl. now rewrite zip_with_nil_r.
    + simpl. rewrite zip_with_app by congruence.
      rewrite Rsum_app, (IH y Hy). reflexivity.
Qed.

Lemma loss_is_mean (B L V : nat) (logits : list mat) (y : list (list nat)) :
  length logits = B -> length y = B ->
  Forall (fun m => length m = L /\ Forall (fun v => length v = V) m) logits ->
  Forall (fun ys => length ys = L /\ Forall (fun t => (t < V)%nat) ys) y ->
  Training.loss logits y
  = Ok (Rsum (zip_with (fun m ys => Rsum (zip_with Spec.neg_log_prob m ys)) logits y)
        / INR (B * L)).
Proof.
  intros HB HB' Hlog Hy.
  assert (Hl1 : Forall (fun m => length m = L) logits)
    by (eapply Forall_impl; [exact Hlog|]; simpl; tauto).
  assert (Hl2 : Forall (Forall (fun v => length v = V)) logits)
    by (eapply Forall_impl; [exact Hlog|]; simpl; tauto).
  assert (Hy1 : Forall (fun ys => length ys = L) y)
    by (eapply Forall_impl; [exact Hy|]; simpl; tauto).
  assert (Hy2 : Forall (Forall (fun t => (t < V)%nat)) y)
    by (eapply Forall_impl; [exact Hy|]; simpl; tauto).
  unfold Training.loss, Training.flatten01, Training.flatten, cross_entropy.
  pose proof (concat_length_uniform L logits Hl1) as Hc1.
  pose proof (concat_length_uniform L y Hy1) as Hc2.
  destruct (decide _) as [_|Hn]; [|congruence].
  rewrite (nll_rows V) by now apply Forall_concat.
  simpl. rewrite length_zip_with, Hc1, Hc2, HB, HB', Nat.min_id.
  now rewrite (Rsum_concat_zip L).
Qed.

(** C2.  For a model built from a configuration and a batch of input
    and target ids of one shape [[batch, seq_len]], [seq_len] within the
    context, the forward pass returns logits, and the loss of the
    training step is the mean, over all batch elements and all
    positions, of the negative logarithm of the probability that the
    softmax of the logits at that position gives to the target token
    at that position. *)
Theorem step_loss_is_mean_neg_log_prob (GELU : R -> R) (c : ModelConfig)
    (m : GPT.t) (x y : GPT.ids) :
  GPT.built c m -> GPT.ids_shaped x -> GPT.ids_shaped y ->
  GPT.batch y = GPT.batch x -> GPT.seq_len y = GPT.seq_len x ->
  Forall (Forall (fun t => (t < vocab c)%nat)) (GPT.rows x) ->
  Forall (Forall (fun t => (t < vocab c)%nat)) (GPT.rows y) ->
  (GPT.seq_len x <= context c)%nat ->
  exists logits,
    GPT.forward GELU m x = Ok logits
    /\ Training.step_loss GELU m x y = Ok (Spec.mean_neg_log_prob logits y).
Proof.
  intros Hm Hx [Hyb Hyr] Hb Hs Hvx Hvy Hfit.
  destruct (forward_shape GELU c m x Hm Hx Hvx Hfit) as (logits & Hf & Hlb & Hsh).
  exists logits. split; [exact Hf|].
  unfold Training.step_loss. rewrite Hf. simpl.
  unfold Spec.mean_neg_log_prob.
  apply (loss_is_mean (GPT.batch y) (GPT.seq_len y) (vocab c)).
  - congruence.
  - exact Hyb.
  - rewrite Hs. exact Hsh.
  - apply Forall_lookup. intros i ys Hi. split.
    + eapply Forall_lookup_1 in Hyr; [exact Hyr|exact Hi].
    + eapply Forall_lookup_1 in Hvy; [exact Hvy|exact Hi].
Qed.
End Loss.

Lemma step_loss_is_mean_neg_log_prob_witness :
  exists logits,
    GPT.forward (fun a => a) Examples.model
      {| GPT.batch := 2; GPT.seq_len := 2; GPT.rows := [[1; 0]; [5; 3]] |}
    = Ok logits
    /\ Training.step_loss (fun a => a) Examples.model
         {| GPT.batch := 2; GPT.seq_len := 2; GPT.rows := [[1; 0]; [5; 3]] |}
         {| GPT.batch := 2; GPT.seq_len := 2; GPT.rows := [[0; 4]; [3; 2]] |}
       = Ok (Spec.mean_neg_log_prob logits
               {| GPT.batch := 2; GPT.seq_len := 2; GPT.rows := [[0; 4]; [3; 2]] |}).
Proof.
  apply (step_loss_is_mean_neg_log_prob (fun a => a) Examples.config Examples.model
           {| GPT.batch := 2; GPT.seq_len := 2; GPT.rows := [[1; 0]; [5; 3]] |}
           {| GPT.batch := 2; GPT.seq_len := 2; GPT.rows := [[0; 4]; [3; 2]] |}).
  - exact example_model_built.
  - split; [reflexivity|]. repeat constructor.
  - split; [reflexivity|]. repeat constructor.
  - reflexivity.
  - reflexivity.
  - repeat constructor; simpl; lia.
  - repeat constructor; simpl; lia.
  - simpl. lia.
Defined.

(** ** Evaluation *)

Section Evaluate.
#[local] Open Scope R_scope.
Variable GELU : R -> R.

Lemma step_loss_value (c : ModelConfig) (m : GPT.t) (B L : nat)
    (xy : GPT.ids * GPT.ids) :
  GPT.built c m -> batch_ok B L (vocab c) xy -> (L <= context c)%nat ->
  exists logits,
    GPT.forward GELU m (fst xy) = Ok logits
    /\ Training.step_loss GELU m (fst xy) (snd xy)
       = Ok (batch_sum logits (snd xy) / INR (B * L)).
Proof.
  intros Hm (Hx & [Hyb Hyr] & Hbx & Hlx & Hby & Hly & Hvx & Hvy) Hfit.
  destruct (forward_shape GELU c m (fst xy) Hm Hx Hvx) as (logits & Hf & Hlb & Hsh);
    [lia|].
  exists logits. split; [exact Hf|].
  unfold Training.step_loss. rewrite Hf. simpl. unfold batch_sum.
  apply (loss_is_mean B L (vocab c)).
  - congruence.
  - congruence.
  - rewrite <- Hlx. exact Hsh.
  - apply Forall_lookup. intros i ys Hi. split.
    + eapply Forall_lookup_1 in Hyr; [|exact Hi]. congruence.
    + eapply Forall_lookup_1 in Hvy; [exact Hvy|exact Hi].
Qed.

Lemma Rsum_scaled {A} (f : A -> R) (c : R) (l : list A) :
  Rsum (map (fun a => f a * c) l) = Rsum (map f l) * c.
Proof. induction l as [|a l IH]; simpl; [lra|]. rewrite IH. lra. Qed.

Lemma step_losses (c : ModelConfig) (m : GPT.t) (B L : nat)
    (dl : list (GPT.ids * GPT.ids)) :
  GPT.built c m -> Forall (batch_ok B L (vocab c)) dl -> (L <= context c)%nat ->
  exists ls,
    Forall2 (fun xy lg => GPT.forward GELU m (fst xy) = Ok lg) dl ls
    /\ mapM (fun xy => Training.step_loss GELU m (fst xy) (snd xy)) dl
       = Ok (map (fun p => batch_sum (snd p) (snd (fst p)) / INR (B * L)) (zip dl ls)).
Proof.
  intros Hm Hdl Hfit. induction Hdl as [|xy dl Hxy _ (ls & Hls & IH)].
  - exists []. split; [constructor|reflexivity].
  - destruct (step_loss_value c m B L xy Hm Hxy Hfit) as (lg & Hf & Hstep).
    exists (lg :: ls). split; [constructor; assumption|].
    change (mapM (fun xy => Training.step_loss GELU m (fst xy) (snd xy)) (xy :: dl))
      with (Training.step_loss GELU m (fst xy) (snd xy) ≫= (fun l =>
            mapM (fun xy => Training.step_loss GELU m (fst xy) (snd xy)) dl
            ≫= (fun k => mret (l :: k)))).
    rewrite Hstep, IH. reflexivity.
Qed.

(** On a non-empty loader whose batches all have the shape [[B, L]],
    [L] within the context, [evaluate] returns the mean over the batches
    of the batch losses, which is the mean of the negative
    log-probability of the target over every position of every sequence
    of every batch: the sum over the whole loader divided by
    [len(dl) * B * L]. *)
Theorem evaluate_is_overall_mean (c : ModelConfig) (m : GPT.t) (B L : nat)
    (dl : list (GPT.ids * GPT.ids)) :
  GPT.built c m -> dl <> [] ->
  Forall (batch_ok B L (vocab c)) dl -> (L <= context c)%nat ->
  exists ls,
    Forall2 (fun xy lg => GPT.forward GELU m (fst xy) = Ok lg) dl ls
    /\ Training.evaluate GELU m dl
       = Ok (Rsum (map (fun p => Spec.mean_neg_log_prob (snd p) (snd (fst p)))
                     (zip dl ls))
             / INR (length dl))
    /\ Training.evaluate GELU m dl
       = Ok (Rsum (map (fun p => batch_sum (snd p) (snd (fst p))) (zip dl ls))
             / INR (length dl * (B * L))).
Proof.
  intros Hm Hne Hdl Hfit.
  destruct (step_losses c m B L dl Hm Hdl Hfit) as (ls & Hls & Hsteps).
  exists ls. split; [exact Hls|].
  assert (Hev : Training.evaluate GELU m dl
                = Ok (Rsum (map (fun p => batch_sum (snd p) (snd (fst p)) / INR (B * L))
                              (zip dl ls))
                      / INR (length dl))).
  { unfold Training.evaluate. rewrite Hsteps. simpl.
    destruct (decide (length dl = 0%nat)) as [H0|_]; [|reflexivity].
    destruct dl; [congruence|discriminate]. }
  split.
  - rewrite Hev. do 2 f_equal. f_equal.
    apply map_ext_in. intros [xy lg] Hin. simpl.
    unfold Spec.mean_neg_log_prob, batch_sum. do 2 f_equal.
    apply list_elem_of_In, elem_of_zip_l in Hin.
    eapply Forall_forall in Hdl; [|exact Hin].
    destruct Hdl as (_ & _ & _ & _ & -> & -> & _). reflexivity.
  - rewrite Hev. f_equal. unfold Rdiv at 2.
    rewrite (Rsum_scaled (fun p => batch_sum (snd p) (snd (fst p)))).
    unfold Rdiv. rewrite (mult_INR (length dl)), Rinv_mult. ring.
Qed.

End Evaluate.

Lemma example_batch_ok : batch_ok 2 2 6 Examples.batch.
Proof.
  unfold batch_ok, GPT.ids_shaped. simpl.
  repeat split; repeat constructor; simpl; lia.
Qed.

Lemma evaluate_is_overall_mean_witness :
  exists ls,
    Forall2 (fun xy lg => GPT.forward (fun a => a) Examples.model (fst xy) = Ok lg)
      [Examples.batch] ls
    /\ Training.evaluate (fun a => a) Examples.model [Examples.batch]
       = Ok (Rdiv (Rsum (map (fun p => Spec.mean_neg_log_prob (snd p) (snd (fst p)))
                           (zip [Examples.batch] ls)))
                  (INR 1))
    /\ Training.evaluate (fun a => a) Examples.model [Examples.batch]
       = Ok (Rdiv (Rsum (map (fun p => batch_sum (snd p) (snd (fst p)))
                           (zip [Examples.batch] ls)))
                  (INR (1 * (2 * 2)))).
Proof.
  apply (evaluate_is_overall_mean (fun a => a) Examples.config Examples.model 2 2
           [Examples.batch]).
  - exact example_model_built.
  - discriminate.
  - constructor; [exact example_batch_ok|constructor].
  - simpl. lia.
Defined.

(** ** From the corpus to the validation loss *)

Section Loader.
Variable GELU : R -> R.
Variable eot : nat.

Lemma getitem_valid (V : nat) (ds : WikiTextDataset.t) (i : nat) :
  Forall (fun t => t < V) (WikiTextDataset.tokens ds) -> eot < V ->
  let L := WikiTextDataset.max_len ds in
  (length (fst (WikiTextDataset.getitem eot ds i)) = L
   /\ Forall (fun t => t < V) (fst (WikiTextDataset.getitem eot ds i)))
  /\ (length (snd (WikiTextDataset.getitem eot ds i)) = L
      /\ Forall (fun t => t < V) (snd (WikiTextDataset.getitem eot ds i))).
Proof.
  intros Htok Heot L. rewrite getitem_unfold. fold L. simpl.
  assert (Hpad : forall lo hi, hi - lo = L ->
            length (Spec.right_pad eot L (slice lo hi (WikiTextDataset.tokens ds))) = L
            /\ Forall (fun t => t < V)
                 (Spec.right_pad eot L (slice lo hi (WikiTextDataset.tokens ds)))).
  { intros lo hi Hhl. split.
    - apply right_pad_length. rewrite slice_length. lia.
    - unfold Spec.right_pad. apply Forall_app. split.
      + unfold slice. now apply Forall_take, Forall_drop.
      + apply Forall_replicate. exact Heot. }
  split; apply Hpad; lia.
Qed.

Lemma batches_shape (V : nat) (ds : WikiTextDataset.t) (batch_size n : nat)
    (dl : list (GPT.ids * GPT.ids)) :
  Forall (fun t => t < V) (WikiTextDataset.tokens ds) -> eot < V ->
  WikiTextDataset.len ds = Ok n ->
  DataLoader.batches eot ds batch_size = Ok dl ->
  length dl = n / batch_size
  /\ Forall (batch_ok batch_size (WikiTextDataset.max_len ds) V) dl.
Proof.
  intros Htok Heot Hlen H. unfold DataLoader.batches in H.
  destruct (decide (batch_size = 0)) as [|Hbs]; [discriminate|].
  rewrite Hlen in H. simpl in H. injection H as <-.
  split; [now rewrite length_map, length_seq|].
  apply Forall_fmap, Forall_forall. intros b _.
  unfold batch_ok, DataLoader.collate, GPT.ids_shaped. simpl.
  rewrite !length_map, length_seq.
  repeat split; try reflexivity;
    apply Forall_fmap, Forall_fmap, Forall_forall; intros i _; simpl;
    apply (getitem_valid V ds i Htok Heot).
Qed.

(** The loader yields [len(ds) // batch_size] batches, each of shape
    [[batch_size, max_len]] for the inputs and for the targets, holding
    only tokens of the corpus and the end-of-text token; row [r] of
    batch [b] is item [b * batch_size + r] of the dataset. *)
Theorem loader_batches (V : nat) (ds : WikiTextDataset.t) (batch_size n : nat)
    (dl : list (GPT.ids * GPT.ids)) :
  Forall (fun t => t < V) (WikiTextDataset.tokens ds) -> eot < V ->
  WikiTextDataset.len ds = Ok n ->
  DataLoader.batches eot ds batch_size = Ok dl ->
  length dl = n / batch_size
  /\ Forall (batch_ok batch_size (WikiTextDataset.max_len ds) V) dl
  /\ forall b r xy, dl !! b = Some xy -> r < batch_size ->
       GPT.rows (fst xy) !! r
         = Some (fst (WikiTextDataset.getitem eot ds (b * batch_size + r)))
       /\ GPT.rows (snd xy) !! r
         = Some (snd (WikiTextDataset.getitem eot ds (b * batch_size + r))).
Proof.
  intros Htok Heot Hlen H.
  destruct (batches_shape V ds batch_size n dl Htok Heot Hlen H) as [Hn Hok].
  split; [exact Hn|]. split; [exact Hok|]. clear Hn Hok.
  unfold DataLoader.batches in H.
  destruct (decide (batch_size = 0)) as [|Hbs]; [discriminate|].
  rewrite Hlen in H. simpl in H. injection H as <-.
  - intros b r xy Hxy Hr.
    rewrite list_lookup_fmap in Hxy.
    destruct (seq 0 (n / batch_size) !! b) as [b'|] eqn:Hb; [|discriminate].
    apply lookup_seq in Hb as [-> _]. injection Hxy as <-. simpl.
    rewrite !list_lookup_fmap, lookup_seq_lt by exact Hr. simpl. auto.
Qed.

(** The pipeline of the notebook, from the corpus to the validation
    loss: on a model built from a configuration, with a dataset of stride
    at most the context whose tokens and end-of-text token are ids of the
    vocabulary, [evaluate] over the loader returns as soon as the dataset
    holds one full batch, and raises [ZeroDivisionError] when it holds
    fewer items than [batch_size]. *)
Theorem evaluate_on_loader (c : ModelConfig) (m : GPT.t) (ds : WikiTextDataset.t)
    (batch_size n : nat) (dl : list (GPT.ids * GPT.ids)) :
  GPT.built c m ->
  Forall (fun t => t < vocab c) (WikiTextDataset.tokens ds) -> eot < vocab c ->
  WikiTextDataset.max_len ds <= context c ->
  WikiTextDataset.len ds = Ok n ->
  DataLoader.batches eot ds batch_size = Ok dl ->
  (batch_size <= n -> returns (Training.evaluate GELU m dl))
  /\ (n < batch_size -> Training.evaluate GELU m dl = Raise ZeroDivisionError).
Proof.
  intros Hm Htok Heot Hfit Hlen Hdl.
  destruct (batches_shape (vocab c) ds batch_size n dl Htok Heot Hlen Hdl)
    as [Hn Hok].
  assert (Hbs : batch_size <> 0).
  { unfold DataLoader.batches in Hdl.
    destruct (decide (batch_size = 0)); [discriminate|assumption]. }
  split.
  - intros Hle.
    destruct (step_losses GELU c m batch_size (WikiTextDataset.max_len ds) dl
                Hm Hok Hfit) as (ls & _ & Hsteps).
    unfold Training.evaluate. rewrite Hsteps. simpl.
    destruct (decide (length dl = 0)) as [H0|_]; [|eexists; reflexivity].
    rewrite Hn in H0. apply Nat.div_small_iff in H0; [lia|exact Hbs].
  - intros Hlt. rewrite Nat.div_small in Hn by exact Hlt.
    destruct dl; [reflexivity|discriminate].
Qed.
End Loader.

Lemma loader_batches_witness :
  length [DataLoader.collate 2
            (map (WikiTextDataset.getitem 0
                    {| WikiTextDataset.tokens := [1; 2; 3; 4; 5];
                       WikiTextDataset.max_len := 2 |}) (seq 0 2))] = 3 / 2.
Proof.
  exact (proj1 (loader_batches 0 6
           {| WikiTextDataset.tokens := [1; 2; 3; 4; 5]; WikiTextDataset.max_len := 2 |}
           2 3 _ ltac:(repeat constructor; simpl; lia) ltac:(lia) eq_refl eq_refl)).
Defined.

Lemma evaluate_on_loader_witness :
  returns (Training.evaluate (fun a => a) Examples.model
             [DataLoader.collate 2
                (map (WikiTextDataset.getitem 0
                        {| WikiTextDataset.tokens := [1; 2; 3; 4; 5];
                           WikiTextDataset.max_len := 2 |}) (seq 0 2))]).
Proof.
  apply (evaluate_on_loader (fun a => a) 0 Examples.config Examples.model
           {| WikiTextDataset.tokens := [1; 2; 3; 4; 5]; WikiTextDataset.max_len := 2 |}
           2 3 _ example_model_built
           ltac:(repeat constructor; simpl; lia) ltac:(simpl; lia)
           ltac:(simpl; lia) eq_refl eq_refl).
  lia.
Defined.

(** ** Generation *)

Section Generation.
#[local] Open Scope nat_scope.
Variable GELU : R -> R.
Variable encode : string -> list nat.
Variable decode : list nat -> string.

(** the text after the tokens [gen] have been generated one by one *)
Abbreviation decoded prefix gen :=
  (foldl (fun s g => (s ++ decode [g])%string) prefix gen).

Section Loop.
Variable sampler : R -> mat -> result (list nat).
Variable rng : nat -> R.
Variable model : GPT.t.

(** a sampler returns one token per row *)
Hypothesis sampler_batch :
  forall u logits l, sampler u logits = Ok l -> length l = length logits.

Lemma last_position_length (logits : list mat) (l : mat) :
  Inference.last_position logits = Ok l -> length l = length logits.
Proof. apply mapM_Ok_length. Qed.

(** whenever the loop returns, it has appended one token per iteration *)
Lemma loop_appends (n t : nat) (prefix text : string) (ids ids' : GPT.ids)
    (toks : list nat) :
  GPT.rows ids = [toks] ->
  Inference.loop GELU decode sampler rng model n t prefix ids = Ok (text, ids') ->
  exists gen,
    length gen = n
    /\ GPT.rows ids' = [toks ++ gen]
    /\ GPT.seq_len ids' = GPT.seq_len ids + n
    /\ GPT.batch ids' = GPT.batch ids
    /\ text = decoded prefix gen.
Proof.
  revert t prefix ids toks. induction n as [|n IH]; intros t prefix ids toks Hrows H.
  - simpl in H. injection H as <- <-. exists [].
    rewrite app_nil_r, Nat.add_0_r. auto.
  - simpl in H.
    apply bind_Ok in H as (logits & Hf & H).
    apply bind_Ok in H as (lastl & Hl & H).
    apply bind_Ok in H as (next & Hs & H).
    apply forward_batch in Hf. apply last_position_length in Hl.
    apply sampler_batch in Hs. rewrite Hrows in Hf. simpl in Hf.
    destruct next as [|g [|g' next]]; simpl in Hs; try lia.
    apply (IH _ _ _ (toks ++ [g])) in H as (gen & Hlen & Hr & Hsl & Hb & Htext).
    + exists (g :: gen). simpl in *.
      rewrite <- app_assoc in Hr. simpl in Hr.
      repeat split; [lia|exact Hr|lia|exact Hb|exact Htext].
    + simpl. rewrite Hrows. reflexivity.
Qed.

Variable c : ModelConfig.
Hypothesis model_built : GPT.built c model.

(** on the logits of one position the sampler returns a token of the
    vocabulary *)
Hypothesis sampler_returns :
  forall t row, length row = vocab c ->
    exists i, sampler (rng t) [row] = Ok [i] /\ i < vocab c.

Lemma step_returns (t : nat) (toks : list nat) :
  toks <> [] -> Forall (fun i => i < vocab c) toks ->
  length toks <= context c ->
  exists logits lastl i,
    GPT.forward GELU model
      {| GPT.batch := 1; GPT.seq_len := length toks; GPT.rows := [toks] |}
    = Ok logits
    /\ Inference.last_position logits = Ok lastl
    /\ sampler (rng t) lastl = Ok [i]
    /\ i < vocab c.
Proof.
  intros Hne Hvalid Hfit.
  destruct (forward_shape GELU c model
              {| GPT.batch := 1; GPT.seq_len := length toks; GPT.rows := [toks] |})
    as (logits & Hf & Hb & Hsh); simpl; auto.
  { split; [reflexivity|]. repeat constructor. }
  simpl in Hb, Hsh.
  destruct logits as [|lm [|lm' logits]]; simpl in Hb; try lia.
  apply Forall_inv in Hsh as [HL HV].
  destruct (last lm) as [v|] eqn:Hlast.
  - assert (Hv : length v = vocab c).
    { eapply Forall_forall in HV; [exact HV|].
      apply last_Some in Hlast as [l' ->].
      apply elem_of_app. right. apply list_elem_of_here. }
    destruct (sampler_returns t v Hv) as (i & Hi & Hlt).
    exists [lm], [v], i. split; [exact Hf|]. split; [|auto].
    unfold Inference.last_position. simpl. rewrite Hlast. reflexivity.
  - apply last_None in Hlast. subst lm. simpl in HL.
    destruct toks; [congruence|discriminate].
Qed.

(** the loop returns when no iteration exceeds the context *)
Lemma loop_returns (n t : nat) (prefix : string) (toks : list nat) :
  toks <> [] -> Forall (fun i => i < vocab c) toks ->
  (n = 0 \/ length toks + n - 1 <= context c) ->
  returns (Inference.loop GELU decode sampler rng model n t prefix
             {| GPT.batch := 1; GPT.seq_len := length toks; GPT.rows := [toks] |}).
Proof.
  revert t prefix toks.
  induction n as [|n IH]; intros t prefix toks Hne Hvalid Hfit.
  - eexists. reflexivity.
  - destruct (step_returns t toks Hne Hvalid)
      as (logits & lastl & i & Hf & Hl & Hs & Hi); [lia|].
    simpl. rewrite Hf. simpl. rewrite Hl. simpl. rewrite Hs. simpl.
    unfold Inference.cat1. simpl.
    replace (length toks + 1) with (length (toks ++ [i]))
      by (rewrite length_app; reflexivity).
    apply IH.
    + destruct toks; discriminate.
    + apply Forall_app. split; [exact Hvalid|]. repeat constructor. exact Hi.
    + rewrite length_app. simpl. lia.
Qed.

(** the loop raises [IndexError] when an iteration exceeds the context *)
Lemma loop_raises (n t : nat) (prefix : string) (toks : list nat) :
  toks <> [] -> Forall (fun i => i < vocab c) toks ->
  1 <= n -> context c < length toks + n - 1 ->
  Inference.loop GELU decode sampler rng model n t prefix
    {| GPT.batch := 1; GPT.seq_len := length toks; GPT.rows := [toks] |}
  = Raise IndexError.
Proof.
  revert t prefix toks.
  induction n as [|n IH]; intros t prefix toks Hne Hvalid Hn Hlong; [lia|].
  destruct (decide (length toks <= context c)) as [Hfit|Hover].
  - destruct (step_returns t toks Hne Hvalid Hfit)
      as (logits & lastl & i & Hf & Hl & Hs & Hi).
    simpl. rewrite Hf. simpl. rewrite Hl. simpl. rewrite Hs. simpl.
    unfold Inference.cat1. simpl.
    replace (length toks + 1) with (length (toks ++ [i]))
      by (rewrite length_app; reflexivity).
    apply IH.
    + destruct toks; discriminate.
    + apply Forall_app. split; [exact Hvalid|]. repeat constructor. exact Hi.
    + lia.
    + rewrite length_app. simpl. lia.
  - simpl. rewrite forward_too_long; [reflexivity|].
    destruct model_built as (-> & _). simpl. lia.
Qed.
End Loop.

Lemma sample_greedy_batch (logits : mat) (l : list nat) :
  Inference.sample_greedy logits = Ok l -> length l = length logits.
Proof. apply mapM_Ok_length. Qed.

Lemma div_temp_batch (logits scaled : mat) (temp : R) :
  Inference.div_temp logits temp = Ok scaled -> length scaled = length logits.
Proof.
  destruct (decide (temp = 0%R)) as [->|Ht].
  - destruct logits as [|row logits].
    + intros H. unfold Inference.div_temp in H. simpl in H. now injection H as <-.
    + now rewrite div_temp_zero.
  - rewrite div_temp_nonzero by exact Ht. intros H. injection H as <-.
    apply length_map.
Qed.

Lemma topk_batch (logits probs : mat) (k : Z) :
  Inference.topk logits k = Ok probs -> length probs = length logits.
Proof.
  unfold Inference.topk. intros H. apply bind_Ok in H as (s & _ & H).
  injection H as <-. unfold Inference.put_cols, Inference.zeros_like.
  now rewrite !length_map.
Qed.

Lemma sample_topk_batch (temp : R) (k : Z) (u : R) (logits : mat) (l : list nat) :
  Inference.sample_topk temp k u logits = Ok l -> length l = length logits.
Proof.
  unfold Inference.sample_topk. intros H.
  apply bind_Ok in H as (scaled & Hd & H).
  apply bind_Ok in H as (probs & Hp & H).
  apply mapM_Ok_length in H. apply topk_batch in Hp.
  apply div_temp_batch in Hd. congruence.
Qed.

Lemma run_greedy_returns (c : ModelConfig) (model : GPT.t) (prefix : string)
    (n : nat) :
  GPT.built c model -> 1 <= vocab c ->
  encode prefix <> [] -> Forall (fun i => i < vocab c) (encode prefix) ->
  (n = 0 \/ length (encode prefix) + n - 1 <= context c) ->
  returns (Inference.run_greedy GELU encode decode model prefix n).
Proof.
  intros Hm Hv Hne Hvalid Hfit.
  unfold Inference.run_greedy, Inference.run, Inference.unsqueeze0.
  apply (loop_returns _ _ model c Hm); auto.
  intros t row Hrow. destruct (sample_greedy_returns row) as (i & Hi & Hlt).
  - destruct row; [simpl in Hrow; lia|discriminate].
  - exists i. split; [exact Hi|lia].
Qed.

Lemma topk_sampler_returns (c : ModelConfig) (rng : nat -> R) (temp : R) :
  5 <= vocab c -> temp <> 0%R -> (forall t, (0 <= rng t < 1)%R) ->
  forall t row, length row = vocab c ->
    exists i, Inference.sample_topk temp 5 (rng t) [row] = Ok [i] /\ i < vocab c.
Proof.
  intros Hv Ht Hrng t row Hrow.
  destruct (sample_topk_returns row temp 5 (rng t) Ht) as (i & Hi & Hlt);
    [lia|apply Hrng|].
  exists i. split; [exact Hi|lia].
Qed.

(** C4.  Whenever a generation call returns, with the greedy sampler
    of the first version or the top-k sampler of the last, the token
    tensor it has built holds one row of exactly
    [len(prefix_tokens) + max_new_tokens] tokens: the prefix tokens
    followed by [max_new_tokens] generated ones, one appended per
    iteration; the text returned is the prefix followed by the decoded
    generated tokens. *)
Theorem generate_token_count (rng : nat -> R) (model : GPT.t) (prefix : string)
    (max_new_tokens : nat) (temp : R) (text : string) (ids : GPT.ids) :
  Inference.run_greedy GELU encode decode model prefix max_new_tokens
    = Ok (text, ids)
  \/ Inference.run_topk GELU encode decode rng model prefix max_new_tokens temp
    = Ok (text, ids) ->
  exists gen,
    length gen = max_new_tokens
    /\ GPT.rows ids = [encode prefix ++ gen]
    /\ GPT.seq_len ids = length (encode prefix) + max_new_tokens
    /\ length (encode prefix ++ gen) = length (encode prefix) + max_new_tokens
    /\ text = decoded prefix gen.
Proof.
  intros [H|H].
  - unfold Inference.run_greedy, Inference.run in H.
    eapply loop_appends in H as (gen & Hlen & Hr & Hs & _ & Ht);
      [|intros u; apply sample_greedy_batch|reflexivity].
    exists gen. rewrite length_app. simpl in Hs. auto with lia.
  - unfold Inference.run_topk, Inference.run in H.
    eapply loop_appends in H as (gen & Hlen & Hr & Hs & _ & Ht);
      [|apply sample_topk_batch|reflexivity].
    exists gen. rewrite length_app. simpl in Hs. auto with lia.
Qed.

(** generation under any sampler that returns a token of the vocabulary
    on the logits of one position *)
Lemma run_within_context (sampler : R -> mat -> result (list nat)) (rng : nat -> R)
    (c : ModelConfig) (model : GPT.t) (prefix : string) (max_new_tokens : nat) :
  GPT.built c model ->
  encode prefix <> [] -> Forall (fun i => i < vocab c) (encode prefix) ->
  (forall t row, length row = vocab c ->
     exists i, sampler (rng t) [row] = Ok [i] /\ i < vocab c) ->
  (max_new_tokens = 0 \/ length (encode prefix) + max_new_tokens - 1 <= context c ->
     returns (Inference.run GELU encode decode sampler rng model prefix
                max_new_tokens))
  /\ (1 <= max_new_tokens ->
      context c < length (encode prefix) + max_new_tokens - 1 ->
      Inference.run GELU encode decode sampler rng model prefix max_new_tokens
      = Raise IndexError).
Proof.
  intros Hm Hne Hvalid Hs. unfold Inference.run, Inference.unsqueeze0. split.
  - intros Hfit.
    exact (loop_returns sampler rng model c Hm Hs max_new_tokens 0 prefix
             (encode prefix) Hne Hvalid Hfit).
  - intros Hn Hlong.
    exact (loop_raises sampler rng model c Hm Hs max_new_tokens 0 prefix
             (encode prefix) Hne Hvalid Hn Hlong).
Qed.

(** C3, as the code has it.  [generate] runs the model over the whole
    current sequence and truncates nothing.  On a model built from a
    configuration, with a non-empty prefix of tokens of the vocabulary:
    when [len(prefix_tokens) + max_new_tokens - 1 <= context_length] no
    iteration exceeds the context and the call returns; when
    [max_new_tokens >= 1] and
    [len(prefix_tokens) + max_new_tokens - 1 > context_length] the call
    raises the [IndexError] of the positional embedding.  This holds of
    the first version, whose greedy sampler always returns, and of the
    last one provided its top-k sampler returns a token of the vocabulary
    on every logits vector of the width of the vocabulary. *)
Theorem generate_within_context (rng : nat -> R) (c : ModelConfig) (model : GPT.t)
    (prefix : string) (max_new_tokens : nat) (temp : R) :
  GPT.built c model ->
  encode prefix <> [] -> Forall (fun i => i < vocab c) (encode prefix) ->
  ((max_new_tokens = 0 \/ length (encode prefix) + max_new_tokens - 1 <= context c ->
      returns (Inference.generate_greedy GELU encode decode model prefix
                 max_new_tokens))
   /\ (1 <= max_new_tokens ->
       context c < length (encode prefix) + max_new_tokens - 1 ->
       Inference.generate_greedy GELU encode decode model prefix max_new_tokens
       = Raise IndexError))
  /\ ((forall t row, length row = vocab c ->
         exists i, Inference.sample_topk temp 5 (rng t) [row] = Ok [i]
                   /\ i < vocab c) ->
      (max_new_tokens = 0
       \/ length (encode prefix) + max_new_tokens - 1 <= context c ->
         returns (Inference.generate GELU encode decode rng model prefix
                    max_new_tokens temp))
      /\ (1 <= max_new_tokens ->
          context c < length (encode prefix) + max_new_tokens - 1 ->
          Inference.generate GELU encode decode rng model prefix max_new_tokens temp
          = Raise IndexError)).
Proof.
  intros Hm Hne Hvalid.
  assert (Hgreedy : forall (t : nat) row, length row = vocab c ->
            exists i, Inference.sample_greedy [row] = Ok [i] /\ i < vocab c).
  { intros t row Hrow. destruct (sample_greedy_returns row) as (i & Hi & Hlt).
    - intros ->. simpl in Hrow. rewrite <- Hrow in Hvalid.
      destruct (encode prefix) as [|i0 l]; [congruence|].
      apply Forall_inv in Hvalid. lia.
    - exists i. split; [exact Hi|lia]. }
  split.
  - destruct (run_within_context (fun _ => Inference.sample_greedy) (fun _ => 0%R)
                c model prefix max_new_tokens Hm Hne Hvalid Hgreedy) as [Hret Hraise].
    unfold Inference.generate_greedy, Inference.run_greedy. split.
    + intros Hfit. destruct (Hret Hfit) as [[text ids] ->]. eexists. reflexivity.
    + intros Hn Hlong. rewrite (Hraise Hn Hlong). reflexivity.
  - intros Hs.
    destruct (run_within_context (Inference.sample_topk temp 5) rng
                c model prefix max_new_tokens Hm Hne Hvalid Hs) as [Hret Hraise].
    unfold Inference.generate, Inference.run_topk. split.
    + intros Hfit. destruct (Hret Hfit) as [[text ids] ->]. eexists. reflexivity.
    + intros Hn Hlong. rewrite (Hraise Hn Hlong). reflexivity.
Qed.
End Generation.

Lemma generate_token_count_witness :
  exists text ids gen,
    Inference.run_greedy (fun a => a) Examples.encode Examples.decode
      Examples.model "a" 2 = Ok (text, ids)
    /\ length gen = 2
    /\ GPT.rows ids = [Examples.encode "a" ++ gen]
    /\ GPT.seq_len ids = length (Examples.encode "a") + 2
    /\ length (Examples.encode "a" ++ gen) = length (Examples.encode "a") + 2
    /\ text = foldl (fun s g => (s ++ Examples.decode [g])%string) "a"%string gen.
Proof.
  destruct (run_greedy_returns (fun a => a) Examples.encode Examples.decode
              Examples.config Examples.model "a" 2)
    as [[text ids] Hrun].
  - exact example_model_built.
  - simpl. lia.
  - discriminate.
  - repeat constructor.
  - right. simpl. lia.
  - destruct (generate_token_count (fun a => a) Examples.encode Examples.decode
                (fun _ => 0%R) Examples.model "a" 2 1%R text ids (or_introl Hrun))
      as (gen & Hgen).
    exists text, ids, gen. split; [exact Hrun|exact Hgen].
Defined.

Lemma generate_within_context_witness :
  (returns (Inference.generate_greedy (fun a => a) Examples.encode Examples.decode
              Examples.model "a" 2)
   /\ returns (Inference.generate (fun a => a) Examples.encode Examples.decode
                 (fun _ => 0%R) Examples.model "a" 2 1%R))
  /\ (Inference.generate_greedy (fun a => a) Examples.encode Examples.decode
        Examples.model "aaa" 1 = Raise IndexError
      /\ Inference.generate (fun a => a) Examples.encode Examples.decode
           (fun _ => 0%R) Examples.model "aaa" 1 1%R = Raise IndexError).
Proof.
  assert (Hs : forall t row, length row = vocab Examples.config ->
            exists i, Inference.sample_topk 1 5 ((fun _ : nat => 0%R) t) [row] = Ok [i]
                      /\ i < vocab Examples.config).
  { apply (topk_sampler_returns Examples.config (fun _ => 0%R) 1%R);
      [simpl; lia|lra|intros t; lra]. }
  split.
  - destruct (generate_within_context (fun a => a) Examples.encode Examples.decode
                (fun _ => 0%R) Examples.config Examples.model "a" 2 1%R
                example_model_built ltac:(discriminate) ltac:(repeat constructor))
      as [[Hg _] Hk].
    destruct (Hk Hs) as [Ht _].
    split; [apply Hg|apply Ht]; right; simpl; lia.
  - destruct (generate_within_context (fun a => a) Examples.encode Examples.decode
                (fun _ => 0%R) Examples.config Examples.model "aaa" 1 1%R
                example_model_built ltac:(discriminate) ltac:(repeat constructor))
      as [[_ Hg] Hk].
    destruct (Hk Hs) as [_ Ht].
    split; [apply Hg|apply Ht]; simpl; lia.
Defined.

(** a prefix of three tokens on a context of two positions: nothing is
    truncated, the first call of the model runs over all three tokens and
    the positional embedding raises *)
Lemma generate_exceeds_context :
  length (Examples.encode "aaa") = 3
  /\ context Examples.config = 2
  /\ GPT.forward (fun a => a) Examples.model
       (Inference.unsqueeze0 (Examples.encode "aaa")) = Raise IndexError
  /\ Inference.generate (fun a => a) Examples.encode Examples.decode
       (fun _ => 0%R) Examples.model "aaa" 1 1%R = Raise IndexError.
Proof.
  assert (H : GPT.forward (fun a => a) Examples.model
                (Inference.unsqueeze0 (Examples.encode "aaa")) = Raise IndexError)
    by reflexivity.
  split; [reflexivity|]. split; [reflexivity|]. split; [exact H|].
  reflexivity.
Qed.

(** ** More on generation *)

Section GenerationMore.
#[local] Open Scope nat_scope.
Variable GELU : R -> R.
Variable encode : string -> list nat.
Variable decode : list nat -> string.

Lemma loop_ext (s1 s2 : R -> mat -> result (list nat)) (rng : nat -> R)
    (model : GPT.t) (n t : nat) (prefix : string) (ids : GPT.ids) :
  (forall u logits, s1 u logits = s2 u logits) ->
  Inference.loop GELU decode s1 rng model n t prefix ids
  = Inference.loop GELU decode s2 rng model n t prefix ids.
Proof.
  intros Hs. revert t prefix ids. induction n as [|n IH]; intros t prefix ids.
  - reflexivity.
  - simpl. destruct (GPT.forward GELU model ids) as [logits|e]; [|reflexivity].
    simpl. destruct (Inference.last_position logits) as [l|e]; [|reflexivity].
    simpl. rewrite Hs. destruct (s2 (rng t) l) as [next|e]; [|reflexivity].
    simpl. apply IH.
Qed.

Lemma sample_temperature_one (u : R) (logits : mat) :
  Inference.sample_temperature 1 u logits = Inference.sample_softmax u logits.
Proof.
  unfold Inference.sample_temperature, Inference.sample_softmax.
  rewrite div_temp_nonzero by lra. simpl.
  replace (map (map (fun a => (a / 1)%R)) logits) with logits; [reflexivity|].
  induction logits as [|row logits IH]; [reflexivity|].
  simpl. now rewrite div_one, <- IH.
Qed.

(** At the default temperature 1 the third version of [generate] is the
    second one: same text, same tokens, same failures, for the same
    random numbers. *)
Theorem temperature_one_is_plain_sampling (rng : nat -> R) (model : GPT.t)
    (prefix : string) (max_new_tokens : nat) :
  Inference.run_temperature GELU encode decode rng model prefix max_new_tokens 1
  = Inference.run_softmax GELU encode decode rng model prefix max_new_tokens
  /\ Inference.generate_temperature GELU encode decode rng model prefix
       max_new_tokens 1
     = Inference.generate_softmax GELU encode decode rng model prefix max_new_tokens.
Proof.
  assert (H : Inference.run_temperature GELU encode decode rng model prefix
                max_new_tokens 1
              = Inference.run_softmax GELU encode decode rng model prefix
                  max_new_tokens).
  { unfold Inference.run_temperature, Inference.run_softmax, Inference.run.
    apply loop_ext. intros u logits. apply sample_temperature_one. }
  split; [exact H|].
  unfold Inference.generate_temperature, Inference.generate_softmax.
  now rewrite H.
Qed.

(** Asking for [n + k] tokens is asking for [n] tokens and then for [k]
    more from the state reached, with the random numbers that follow: a
    longer call only appends to what the shorter call builds. *)
Theorem loop_splits (sampler : R -> mat -> result (list nat)) (rng : nat -> R)
    (model : GPT.t) (n k t : nat) (prefix : string) (ids : GPT.ids) :
  Inference.loop GELU decode sampler rng model (n + k) t prefix ids
  = (st ← Inference.loop GELU decode sampler rng model n t prefix ids;
     Inference.loop GELU decode sampler rng model k (t + n) (fst st) (snd st)).
Proof.
  revert t prefix ids. induction n as [|n IH]; intros t prefix ids.
  - simpl. now rewrite Nat.add_0_r.
  - simpl. destruct (GPT.forward GELU model ids) as [logits|e]; [|reflexivity].
    simpl. destruct (Inference.last_position logits) as [l|e]; [|reflexivity].
    simpl. destruct (sampler (rng t) l) as [next|e]; [|reflexivity].
    simpl. rewrite IH. now replace (S t + n) with (t + S n) by lia.
Qed.

Lemma forward_vocab (c : ModelConfig) (model : GPT.t) (x : GPT.ids)
    (logits : list mat) :
  GPT.built c model -> GPT.forward GELU model x = Ok logits ->
  Forall (Forall (fun v => length v = vocab c)) logits.
Proof.
  intros (_ & _ & Hout & Hbias & _) H. unfold GPT.forward in H.
  apply bind_Ok in H as (tok & _ & H).
  apply bind_Ok in H as (pe & _ & H).
  apply bind_Ok in H as (z & _ & H). injection H as <-.
  apply Forall_fmap, Forall_forall. intros s _.
  apply Forall_fmap, Forall_forall. intros v _. simpl.
  unfold linear. rewrite Hbias. now rewrite length_map.
Qed.

Section Valid.
Variable sampler : R -> mat -> result (list nat).
Variable rng : nat -> R.
Variable c : ModelConfig.
Variable model : GPT.t.
Hypothesis model_built : GPT.built c model.
Hypothesis sampler_batch :
  forall u logits l, sampler u logits = Ok l -> length l = length logits.
Hypothesis sampler_range :
  forall t row l, sampler (rng t) [row] = Ok l -> Forall (fun i => i < length row) l.

Lemma loop_tokens_valid (n t : nat) (prefix text : string) (ids ids' : GPT.ids)
    (toks : list nat) :
  GPT.rows ids = [toks] ->
  Inference.loop GELU decode sampler rng model n t prefix ids = Ok (text, ids') ->
  exists gen,
    GPT.rows ids' = [toks ++ gen]
    /\ length gen = n
    /\ Forall (fun i => i < vocab c) gen.
Proof.
  revert t prefix ids toks. induction n as [|n IH]; intros t prefix ids toks Hrows H.
  - simpl in H. injection H as <- <-. exists []. rewrite app_nil_r. auto.
  - simpl in H.
    apply bind_Ok in H as (logits & Hf & H).
    apply bind_Ok in H as (lastl & Hl & H).
    apply bind_Ok in H as (next & Hs & H).
    pose proof (forward_vocab c model ids logits model_built Hf) as Hv.
    pose proof (forward_batch GELU model ids logits Hf) as Hb.
    rewrite Hrows in Hb. simpl in Hb.
    destruct logits as [|lm [|lm' logits]]; simpl in Hb; try lia.
    unfold Inference.last_position in Hl. simpl in Hl.
    destruct (last lm) as [v|] eqn:Hlast; [|discriminate].
    simpl in Hl. injection Hl as <-.
    assert (Hlen : length v = vocab c).
    { apply Forall_inv in Hv. eapply Forall_forall in Hv; [exact Hv|].
      apply last_Some in Hlast as [l' ->].
      apply elem_of_app. right. apply list_elem_of_here. }
    pose proof (sampler_batch _ _ _ Hs) as Hnb. simpl in Hnb.
    pose proof (sampler_range _ _ _ Hs) as Hrange. rewrite Hlen in Hrange.
    destruct next as [|g [|g' next]]; simpl in Hnb; try lia.
    apply (IH _ _ _ (toks ++ [g])) in H as (gen & Hr & Hn & Hvalid).
    + exists (g :: gen). rewrite <- app_assoc in Hr. simpl in *.
      split; [exact Hr|]. split; [lia|].
      constructor; [now apply Forall_inv in Hrange|exact Hvalid].
    + simpl. rewrite Hrows. reflexivity.
Qed.
End Valid.

Lemma multinomial_range (u : R) (probs : vec) (i : nat) :
  (0 <= u < 1)%R -> multinomial u probs = Ok i -> i < length probs.
Proof.
  intros Hu H. unfold multinomial in H.
  destruct (decide _) as [[Hp HS]|]; [|discriminate]. injection H as <-.
  destruct (inverse_cdf_support probs (u * Rsum probs)%R Hp) as (x & Hx & _).
  - split; [apply Rmult_le_pos; lra|nra].
  - eapply lookup_lt_Some, Hx.
Qed.

Lemma sample_softmax_range (u : R) (row : vec) (l : list nat) :
  (0 <= u < 1)%R -> Inference.sample_softmax u [row] = Ok l ->
  Forall (fun i => i < length row) l.
Proof.
  intros Hu H. unfold Inference.sample_softmax in H. simpl in H.
  apply bind_Ok in H as (i & Hi & H). injection H as <-.
  apply multinomial_range in Hi; [|exact Hu]. rewrite softmax_length in Hi.
  apply Forall_cons. split; [exact Hi|constructor].
Qed.

Lemma div_temp_row (temp : R) (row : vec) (scaled : mat) :
  Inference.div_temp [row] temp = Ok scaled ->
  exists r, scaled = [r] /\ length r = length row.
Proof.
  destruct (decide (temp = 0%R)) as [->|Ht].
  - now rewrite div_temp_zero.
  - rewrite div_temp_nonzero by exact Ht. intros H. injection H as <-.
    eexists. split; [reflexivity|]. apply length_map.
Qed.

Lemma sample_temperature_range (temp u : R) (row : vec) (l : list nat) :
  (0 <= u < 1)%R -> Inference.sample_temperature temp u [row] = Ok l ->
  Forall (fun i => i < length row) l.
Proof.
  intros Hu H. unfold Inference.sample_temperature in H.
  apply bind_Ok in H as (scaled & Hd & H).
  apply div_temp_row in Hd as (r & -> & Hr). rewrite <- Hr.
  now apply (sample_softmax_range u).
Qed.

Lemma sample_topk_range (temp : R) (k : Z) (u : R) (row : vec) (l : list nat) :
  (0 <= u < 1)%R -> Inference.sample_topk temp k u [row] = Ok l ->
  Forall (fun i => i < length row) l.
Proof.
  intros Hu H. unfold Inference.sample_topk in H.
  apply bind_Ok in H as (scaled & Hd & H).
  apply div_temp_row in Hd as (r & -> & Hr).
  apply bind_Ok in H as (probs & Hp & H).
  rewrite topk_one_row in Hp. apply bind_Ok in Hp as (sel & _ & Hp).
  injection Hp as <-. simpl in H.
  apply bind_Ok in H as (i & Hi & H). injection H as <-.
  apply multinomial_range in Hi; [|exact Hu].
  rewrite scatter_length, length_map in Hi.
  apply Forall_cons. split; [lia|constructor].
Qed.

Lemma sample_greedy_range (row : vec) (l : list nat) :
  Inference.sample_greedy [row] = Ok l -> Forall (fun i => i < length row) l.
Proof.
  intros H. unfold Inference.sample_greedy in H. simpl in H.
  apply bind_Ok in H as (i & Hi & H). injection H as <-.
  assert (Hne : row <> []) by (intros ->; discriminate).
  destruct (argmax_best row Hne) as (c & l & _ & Ha & Hlt).
  rewrite Ha in Hi. injection Hi as <-.
  apply Forall_cons. split; [exact Hlt|constructor].
Qed.

Lemma sample_softmax_batch (u : R) (logits : mat) (l : list nat) :
  Inference.sample_softmax u logits = Ok l -> length l = length logits.
Proof.
  intros H. apply mapM_Ok_length in H. now rewrite length_map in H.
Qed.

Lemma sample_temperature_batch (temp u : R) (logits : mat) (l : list nat) :
  Inference.sample_temperature temp u logits = Ok l -> length l = length logits.
Proof.
  unfold Inference.sample_temperature. intros H.
  apply bind_Ok in H as (scaled & Hd & H).
  apply mapM_Ok_length in H. rewrite length_map in H.
  apply div_temp_batch in Hd. congruence.
Qed.

(** Whenever one of the four versions of [generate] returns on a model
    built from a configuration, with random numbers in [[0, 1)], every
    token it has appended is an id of the vocabulary, and there are
    [max_new_tokens] of them after the prefix tokens. *)
Theorem generated_tokens_in_vocabulary (rng : nat -> R) (c : ModelConfig)
    (model : GPT.t) (prefix : string) (max_new_tokens : nat) (temp : R)
    (text : string) (ids : GPT.ids) :
  GPT.built c model -> (forall t, (0 <= rng t < 1)%R) ->
  Inference.run_greedy GELU encode decode model prefix max_new_tokens = Ok (text, ids)
  \/ Inference.run_softmax GELU encode decode rng model prefix max_new_tokens
     = Ok (text, ids)
  \/ Inference.run_temperature GELU encode decode rng model prefix max_new_tokens temp
     = Ok (text, ids)
  \/ Inference.run_topk GELU encode decode rng model prefix max_new_tokens temp
     = Ok (text, ids) ->
  exists gen,
    GPT.rows ids = [encode prefix ++ gen]
    /\ length gen = max_new_tokens
    /\ Forall (fun i => i < vocab c) gen.
Proof.
  intros Hm Hrng [H|[H|[H|H]]].
  - unfold Inference.run_greedy, Inference.run in H.
    eapply (loop_tokens_valid _ _ c model Hm) in H; [exact H| | |reflexivity].
    + intros u. apply sample_greedy_batch.
    + intros t. apply sample_greedy_range.
  - unfold Inference.run_softmax, Inference.run in H.
    eapply (loop_tokens_valid _ _ c model Hm) in H; [exact H| | |reflexivity].
    + apply sample_softmax_batch.
    + intros t row l Hs. eapply sample_softmax_range; [apply Hrng|exact Hs].
  - unfold Inference.run_temperature, Inference.run in H.
    eapply (loop_tokens_valid _ _ c model Hm) in H; [exact H| | |reflexivity].
    + apply sample_temperature_batch.
    + intros t row l Hs. eapply sample_temperature_range; [apply Hrng|exact Hs].
  - unfold Inference.run_topk, Inference.run in H.
    eapply (loop_tokens_valid _ _ c model Hm) in H; [exact H| | |reflexivity].
    + apply sample_topk_batch.
    + intros t row l Hs. eapply sample_topk_range; [apply Hrng|exact Hs].
Qed.
End GenerationMore.

Lemma generated_tokens_in_vocabulary_witness :
  exists text ids gen,
    Inference.run_greedy (fun a => a) Examples.encode Examples.decode
      Examples.model "a" 2 = Ok (text, ids)
    /\ GPT.rows ids = [Examples.encode "a" ++ gen]
    /\ length gen = 2
    /\ Forall (fun i => i < 6) gen.
Proof.
  destruct (run_greedy_returns (fun a => a) Examples.encode Examples.decode
              Examples.config Examples.model "a" 2)
    as [[text ids] Hrun].
  - exact example_model_built.
  - simpl. lia.
  - discriminate.
  - repeat constructor.
  - right. simpl. lia.
  - destruct (generated_tokens_in_vocabulary (fun a => a) Examples.encode
                Examples.decode (fun _ => 0%R) Examples.config Examples.model
                "a" 2 1%R text ids example_model_built
                ltac:(intros t; lra) (or_introl Hrun))
      as (gen & Hgen).
    exists text, ids, gen. split; [exact Hrun|exact Hgen].
Defined.

(** ** The training loop *)

Section TrainLoop.
Variable GELU : R -> R.
Variable encode : string -> list nat.
Variable decode : list nat -> string.
Variable Opt : Type.
Variable update : GPT.t -> Opt -> GPT.ids -> GPT.ids -> GPT.t * Opt.

Abbreviation tstate := (TrainingLoop.state Opt).
Abbreviation tlog := (TrainingLoop.log GELU encode decode Opt).
Abbreviation tstep := (TrainingLoop.step GELU encode decode Opt update).
Abbreviation tepoch := (TrainingLoop.epoch GELU encode decode Opt update).
Abbreviation ttrain := (TrainingLoop.train GELU encode decode Opt update).
Abbreviation tlosses := (TrainingLoop.losses Opt).
Abbreviation tmodel := (TrainingLoop.model Opt).

(** the batch numbers of an epoch at which the loop logs *)
Abbreviation logged log_freq i n :=
  (filter (fun j => j mod log_freq = 0) (seq i n)).

Lemma log_appends (val_dl : list (GPT.ids * GPT.ids)) (prefix : string)
    (st st' : tstate) :
  tlog val_dl prefix st = Ok st' ->
  tmodel st' = tmodel st
  /\ exists v, Training.evaluate GELU (tmodel st) val_dl = Ok v
               /\ tlosses st' = tlosses st ++ [v].
Proof.
  unfold TrainingLoop.log. intros H.
  apply bind_Ok in H as (v & Hv & H). apply bind_Ok in H as (s & _ & H).
  injection H as <-. simpl. eauto.
Qed.

Lemma step_appends (log_freq : nat) (val_dl : list (GPT.ids * GPT.ids))
    (prefix : string) (st st' : tstate) (i : nat) (xy : GPT.ids * GPT.ids) :
  tstep log_freq val_dl prefix st i xy = Ok st' ->
  log_freq <> 0
  /\ exists more,
       tlosses st' = tlosses st ++ more
       /\ length more = length (logged log_freq i 1)
       /\ (i mod log_freq = 0 ->
           exists v, Training.evaluate GELU (tmodel st) val_dl = Ok v /\ more = [v]).
Proof.
  unfold TrainingLoop.step. intros H.
  apply bind_Ok in H as (st1 & H1 & H).
  apply bind_Ok in H as (logits & _ & H). apply bind_Ok in H as (l & _ & H).
  injection H as <-. simpl.
  destruct (decide (log_freq = 0)) as [|Hlf]; [discriminate|].
  split; [exact Hlf|].
  destruct (decide (i mod log_freq = 0)) as [Hi|Hi].
  - apply log_appends in H1 as (_ & v & Hv & Hl).
    exists [v]. rewrite filter_cons_True by exact Hi. eauto.
  - injection H1 as <-. exists []. rewrite app_nil_r.
    rewrite filter_cons_False by exact Hi. repeat split. intros; contradiction.
Qed.

Lemma epoch_appends (log_freq : nat) (val_dl : list (GPT.ids * GPT.ids))
    (prefix : string) (l : list (GPT.ids * GPT.ids)) (st st' : tstate) (i : nat) :
  tepoch log_freq val_dl prefix st i l = Ok st' ->
  exists more,
    tlosses st' = tlosses st ++ more
    /\ length more = length (logged log_freq i (length l)).
Proof.
  revert st i. induction l as [|xy l IH]; intros st i H; simpl in H.
  - injection H as <-. exists []. now rewrite app_nil_r.
  - apply bind_Ok in H as (st1 & H1 & H).
    apply step_appends in H1 as (_ & m1 & Hl1 & Hn1 & _).
    apply IH in H as (m2 & Hl2 & Hn2).
    exists (m1 ++ m2). rewrite Hl2, Hl1, <- app_assoc. split; [reflexivity|].
    rewrite length_app, Hn1, Hn2.
    change (seq i (length (xy :: l))) with (seq i 1 ++ seq (S i) (length l)).
    now rewrite filter_app, length_app.
Qed.

(** the multiples of [log_freq] below [n] *)
Lemma logged_count (log_freq n : nat) :
  log_freq <> 0 ->
  length (logged log_freq 0 n) = (n + log_freq - 1) / log_freq.
Proof.
  intros Hlf. induction n as [|n IH].
  - simpl. symmetry. apply Nat.div_small. lia.
  - rewrite seq_S, filter_app, length_app, IH. change (0 + n) with n.
    pose proof (Nat.div_mod_eq n log_freq) as Hn.
    pose proof (Nat.mod_upper_bound n log_freq Hlf) as Hr.
    assert (Hq2 : (S n + log_freq - 1) / log_freq = S (n / log_freq)).
    { symmetry. apply (Nat.div_unique _ _ _ (n mod log_freq)); [lia|]. lia. }
    rewrite Hq2.
    destruct (decide (n mod log_freq = 0)) as [H0|H0].
    + rewrite filter_cons_True by exact H0. rewrite filter_nil.
      assert (Hq1 : (n + log_freq - 1) / log_freq = n / log_freq).
      { symmetry. apply (Nat.div_unique _ _ _ (log_freq - 1)); [lia|]. lia. }
      rewrite Hq1. simpl. lia.
    + rewrite filter_cons_False by exact H0. rewrite filter_nil.
      assert (Hq1 : (n + log_freq - 1) / log_freq = S (n / log_freq)).
      { symmetry. apply (Nat.div_unique _ _ _ (n mod log_freq - 1)); [lia|]. lia. }
      rewrite Hq1. simpl. lia.
Qed.

Lemma train_appends (log_freq : nat) (val_dl : list (GPT.ids * GPT.ids))
    (prefix : string) (train_dl : nat -> list (GPT.ids * GPT.ids)) (n : nat)
    (epochs e : nat) (st st' : tstate) :
  (forall e, length (train_dl e) = n) ->
  ttrain log_freq val_dl prefix train_dl epochs e st = Ok st' ->
  exists more,
    tlosses st' = tlosses st ++ more
    /\ length more = epochs * length (logged log_freq 0 n).
Proof.
  intros Hn. revert e st. induction epochs as [|k IH]; intros e st H; simpl in H.
  - injection H as <-. exists []. now rewrite app_nil_r.
  - apply bind_Ok in H as (st1 & H1 & H).
    apply epoch_appends in H1 as (m1 & Hl1 & Hn1). rewrite Hn in Hn1.
    apply IH in H as (m2 & Hl2 & Hn2).
    exists (m1 ++ m2). rewrite Hl2, Hl1, <- app_assoc. split; [reflexivity|].
    rewrite length_app, Hn1, Hn2. simpl. lia.
Qed.

Lemma train_one_epoch (log_freq : nat) (val_dl : list (GPT.ids * GPT.ids))
    (prefix : string) (train_dl : nat -> list (GPT.ids * GPT.ids)) (e : nat)
    (st : tstate) :
  ttrain log_freq val_dl prefix train_dl 1 e st
  = tepoch log_freq val_dl prefix st 0 (train_dl e).
Proof.
  simpl. destruct (tepoch log_freq val_dl prefix st 0 (train_dl e)); reflexivity.
Qed.

(** When the training loop returns, it has appended to [losses] one
    validation loss for every batch number divisible by [log_freq] in
    every epoch: [epochs * ceil(len(train_dl) / log_freq)] values.  With
    [log_freq = 0] the first batch raises [ZeroDivisionError]. *)
Theorem training_log_length (log_freq : nat) (val_dl : list (GPT.ids * GPT.ids))
    (prefix : string) (train_dl : nat -> list (GPT.ids * GPT.ids)) (n epochs : nat)
    (st : tstate) :
  (forall e, length (train_dl e) = n) ->
  (log_freq <> 0 ->
   forall st', ttrain log_freq val_dl prefix train_dl epochs 0 st = Ok st' ->
     exists more,
       tlosses st' = tlosses st ++ more
       /\ length more = epochs * ((n + log_freq - 1) / log_freq))
  /\ (log_freq = 0 -> 1 <= epochs -> 1 <= n ->
      ttrain log_freq val_dl prefix train_dl epochs 0 st = Raise ZeroDivisionError).
Proof.
  intros Hn. split.
  - intros Hlf st' H.
    apply (train_appends _ _ _ _ n) in H as (more & Hl & Hm); [|exact Hn].
    exists more. split; [exact Hl|]. now rewrite Hm, logged_count.
  - intros -> He Hn1. destruct epochs as [|k]; [lia|]. simpl.
    specialize (Hn 0). destruct (train_dl 0) as [|xy l]; [simpl in Hn; lia|].
    reflexivity.
Qed.

(** The model is evaluated before it is updated: when the loop returns
    after at least one batch, the first value it has recorded is the
    validation loss of the model it was started with. *)
Theorem first_loss_is_of_initial_model (log_freq : nat)
    (val_dl : list (GPT.ids * GPT.ids)) (prefix : string)
    (train_dl : nat -> list (GPT.ids * GPT.ids)) (epochs : nat) (st st' : tstate) :
  1 <= epochs -> train_dl 0 <> [] ->
  ttrain log_freq val_dl prefix train_dl epochs 0 st = Ok st' ->
  exists v rest,
    Training.evaluate GELU (tmodel st) val_dl = Ok v
    /\ tlosses st' = tlosses st ++ v :: rest.
Proof.
  intros He Hne H. destruct epochs as [|k]; [lia|]. simpl in H.
  apply bind_Ok in H as (st1 & H1 & H).
  destruct (train_dl 0) as [|xy l]; [congruence|]. simpl in H1.
  apply bind_Ok in H1 as (st0 & H0 & H1).
  apply step_appends in H0 as (Hlf & m0 & Hl0 & _ & Hfirst).
  destruct Hfirst as (v & Hv & ->); [now apply Nat.Div0.mod_0_l|].
  apply epoch_appends in H1 as (m1 & Hl1 & _).
  assert (Htrain : exists m2, tlosses st' = tlosses st1 ++ m2).
  { clear -H. revert H. generalize 1. revert st1.
    induction k as [|k IH]; intros st1 e H; simpl in H.
    - injection H as <-. exists []. now rewrite app_nil_r.
    - apply bind_Ok in H as (st2 & H2 & H).
      apply epoch_appends in H2 as (ma & Hla & _).
      apply IH in H as (mb & Hlb). exists (ma ++ mb).
      now rewrite Hlb, Hla, <- app_assoc. }
  destruct Htrain as (m2 & Hl2).
  exists v, (m1 ++ m2). split; [exact Hv|].
  rewrite Hl2, Hl1, Hl0, <- !app_assoc. reflexivity.
Qed.

Section Returns.
Variable c : ModelConfig.
Variables (B L B' L' : nat).
Variable log_freq : nat.
Variable val_dl : list (GPT.ids * GPT.ids).
Variable prefix : string.
Hypothesis update_built :
  forall m o x y, GPT.built c m -> GPT.built c (fst (update m o x y)).
Hypothesis log_freq_pos : log_freq <> 0.
Hypothesis val_nonempty : val_dl <> [].
Hypothesis val_ok : Forall (batch_ok B L (vocab c)) val_dl.
Hypothesis val_fits : L <= context c.
Hypothesis train_fits : L' <= context c.
Hypothesis vocab_pos : 1 <= vocab c.
Hypothesis prefix_nonempty : encode prefix <> [].
Hypothesis prefix_valid : Forall (fun i => i < vocab c) (encode prefix).
Hypothesis prefix_fits : length (encode prefix) + 10 - 1 <= context c.

Lemma log_returns (st : tstate) :
  GPT.built c (tmodel st) ->
  exists st', tlog val_dl prefix st = Ok st' /\ tmodel st' = tmodel st.
Proof.
  intros Hm. unfold TrainingLoop.log.
  destruct (step_losses GELU c (tmodel st) B L val_dl Hm val_ok val_fits)
    as (ls & _ & Hsteps).
  unfold Training.evaluate. rewrite Hsteps. simpl.
  destruct (decide (length val_dl = 0)) as [H0|_].
  { destruct val_dl; [congruence|discriminate]. }
  simpl.
  destruct (run_greedy_returns GELU encode decode c (tmodel st) prefix 10 Hm
              vocab_pos prefix_nonempty prefix_valid (or_intror prefix_fits))
    as [[text ids] Hrun].
  unfold Inference.generate_greedy. rewrite Hrun. simpl.
  eexists. split; reflexivity.
Qed.

Lemma step_returns_built (st : tstate) (i : nat) (xy : GPT.ids * GPT.ids) :
  GPT.built c (tmodel st) -> batch_ok B' L' (vocab c) xy ->
  exists st', tstep log_freq val_dl prefix st i xy = Ok st'
              /\ GPT.built c (tmodel st').
Proof.
  intros Hm Hxy. unfold TrainingLoop.step.
  destruct (decide (log_freq = 0)) as [|_]; [contradiction|].
  assert (H1 : exists st1,
             (if decide (i mod log_freq = 0) then tlog val_dl prefix st else Ok st)
             = Ok st1 /\ tmodel st1 = tmodel st).
  { destruct (decide (i mod log_freq = 0)); [now apply log_returns|eauto]. }
  destruct H1 as (st1 & -> & Hm1). simpl. rewrite Hm1.
  destruct (step_loss_value GELU c (tmodel st) B' L' xy Hm Hxy train_fits)
    as (logits & Hf & Hloss).
  unfold Training.step_loss in Hloss. rewrite Hf in Hloss. simpl in Hloss.
  rewrite Hf. simpl. rewrite Hloss. simpl.
  eexists. split; [reflexivity|]. simpl. now apply update_built.
Qed.

Lemma epoch_returns (l : list (GPT.ids * GPT.ids)) (st : tstate) (i : nat) :
  GPT.built c (tmodel st) -> Forall (batch_ok B' L' (vocab c)) l ->
  exists st', tepoch log_freq val_dl prefix st i l = Ok st'
              /\ GPT.built c (tmodel st').
Proof.
  intros Hm Hl. revert st i Hm. induction Hl as [|xy l Hxy _ IH]; intros st i Hm.
  - exists st. split; [reflexivity|exact Hm].
  - destruct (step_returns_built st i xy Hm Hxy) as (st1 & H1 & Hm1).
    simpl. rewrite H1. simpl. now apply IH.
Qed.

(** The training loop returns, on a model built from a configuration
    and kept so by the optimizer, when [log_freq] is not 0, the validation
    loader is not empty, every batch of both loaders has one shape within
    the context and tokens of the vocabulary, and the sample prefix with
    its 10 new tokens fits the context. *)
Theorem training_loop_returns (train_dl : nat -> list (GPT.ids * GPT.ids))
    (epochs : nat) (st : tstate) :
  GPT.built c (tmodel st) ->
  (forall e, Forall (batch_ok B' L' (vocab c)) (train_dl e)) ->
  exists st', ttrain log_freq val_dl prefix train_dl epochs 0 st = Ok st'
              /\ GPT.built c (tmodel st').
Proof.
  intros Hm Hdl. generalize 0. revert st Hm.
  induction epochs as [|k IH]; intros st Hm e.
  - exists st. split; [reflexivity|exact Hm].
  - destruct (epoch_returns (train_dl e) st 0 Hm (Hdl e)) as (st1 & H1 & Hm1).
    simpl. rewrite H1. simpl. now apply IH.
Qed.
End Returns.
End TrainLoop.

Lemma example_model12_built : GPT.built Examples.config12 Examples.model12.
Proof.
  unfold GPT.built. simpl. repeat split; try reflexivity.
  repeat constructor.
Qed.

(** a run of the loop on the small model: an optimizer that leaves the
    parameters as they are, three batches per epoch *)
Lemma example_epoch_returns (log_freq : nat)
    (st : TrainingLoop.state unit) :
  log_freq <> 0 ->
  GPT.built Examples.config12 (TrainingLoop.model unit st) ->
  exists st',
    TrainingLoop.epoch (fun a => a) Examples.encode Examples.decode unit
      (fun m o _ _ => (m, o)) log_freq [Examples.batch] "a" st 0
      [Examples.batch; Examples.batch; Examples.batch] = Ok st'
    /\ GPT.built Examples.config12 (TrainingLoop.model unit st').
Proof.
  intros Hlf Hm.
  apply (epoch_returns (fun a => a) Examples.encode Examples.decode unit
           (fun m o _ _ => (m, o)) Examples.config12 2 2 2 2 log_freq
           [Examples.batch] "a").
  - intros m o x y H. exact H.
  - exact Hlf.
  - discriminate.
  - constructor; [exact example_batch_ok|constructor].
  - simpl. lia.
  - simpl. lia.
  - simpl. lia.
  - discriminate.
  - repeat constructor.
  - simpl. lia.
  - exact Hm.
  - repeat constructor; exact example_batch_ok.
Qed.

Lemma training_loop_returns_witness :
  exists st',
    TrainingLoop.train (fun a => a) Examples.encode Examples.decode unit
      (fun m o _ _ => (m, o)) 2 [Examples.batch] "a"
      (fun _ => [Examples.batch; Examples.batch; Examples.batch]) 2 0
      {| TrainingLoop.model := Examples.model12; TrainingLoop.opt := tt;
         TrainingLoop.losses := [] |} = Ok st'
    /\ GPT.built Examples.config12 (TrainingLoop.model unit st').
Proof.
  apply (training_loop_returns (fun a => a) Examples.encode Examples.decode unit
           (fun m o _ _ => (m, o)) Examples.config12 2 2 2 2 2
           [Examples.batch] "a").
  - intros m o x y H. exact H.
  - lia.
  - discriminate.
  - constructor; [exact example_batch_ok|constructor].
  - simpl. lia.
  - simpl. lia.
  - simpl. lia.
  - discriminate.
  - repeat constructor.
  - simpl. lia.
  - exact example_model12_built.
  - intros e. repeat constructor; exact example_batch_ok.
Defined.

Lemma training_log_length_witness :
  exists st' more,
    TrainingLoop.train (fun a => a) Examples.encode Examples.decode unit
      (fun m o _ _ => (m, o)) 2 [Examples.batch] "a"
      (fun _ => [Examples.batch; Examples.batch; Examples.batch]) 1 0
      {| TrainingLoop.model := Examples.model12; TrainingLoop.opt := tt;
         TrainingLoop.losses := [] |} = Ok st'
    /\ TrainingLoop.losses unit st' = [] ++ more
    /\ length more = 1 * ((3 + 2 - 1) / 2).
Proof.
  destruct (example_epoch_returns 2
              {| TrainingLoop.model := Examples.model12; TrainingLoop.opt := tt;
                 TrainingLoop.losses := [] |} ltac:(lia) example_model12_built)
    as (st' & Hep & _).
  assert (Hrun : TrainingLoop.train (fun a => a) Examples.encode Examples.decode unit
                   (fun m o _ _ => (m, o)) 2 [Examples.batch] "a"
                   (fun _ => [Examples.batch; Examples.batch; Examples.batch]) 1 0
                   {| TrainingLoop.model := Examples.model12; TrainingLoop.opt := tt;
                      TrainingLoop.losses := [] |} = Ok st').
  { rewrite train_one_epoch. exact Hep. }
  destruct (proj1 (training_log_length (fun a => a) Examples.encode Examples.decode
                     unit (fun m o _ _ => (m, o)) 2 [Examples.batch] "a"
                     (fun _ => [Examples.batch; Examples.batch; Examples.batch])
                     3 1 _ (fun _ => eq_refl)) ltac:(lia) st' Hrun)
    as (more & Hmore).
  exists st', more. split; [exact Hrun|exact Hmore].
Defined.

Lemma first_loss_is_of_initial_model_witness :
  exists st' v rest,
    TrainingLoop.train (fun a => a) Examples.encode Examples.decode unit
      (fun m o _ _ => (m, o)) 2 [Examples.batch] "a"
      (fun _ => [Examples.batch; Examples.batch; Examples.batch]) 1 0
      {| TrainingLoop.model := Examples.model12; TrainingLoop.opt := tt;
         TrainingLoop.losses := [] |} = Ok st'
    /\ Training.evaluate (fun a => a) Examples.model12 [Examples.batch] = Ok v
    /\ TrainingLoop.losses unit st' = [] ++ v :: rest.
Proof.
  destruct (example_epoch_returns 2
              {| TrainingLoop.model := Examples.model12; TrainingLoop.opt := tt;
                 TrainingLoop.losses := [] |} ltac:(lia) example_model12_built)
    as (st' & Hep & _).
  assert (Hrun : TrainingLoop.train (fun a => a) Examples.encode Examples.decode unit
                   (fun m o _ _ => (m, o)) 2 [Examples.batch] "a"
                   (fun _ => [Examples.batch; Examples.batch; Examples.batch]) 1 0
                   {| TrainingLoop.model := Examples.model12; TrainingLoop.opt := tt;
                      TrainingLoop.losses := [] |} = Ok st').
  { rewrite train_one_epoch. exact Hep. }
  destruct (first_loss_is_of_initial_model (fun a => a) Examples.encode
              Examples.decode unit (fun m o _ _ => (m, o)) 2 [Examples.batch] "a"
              (fun _ => [Examples.batch; Examples.batch; Examples.batch])
              1 _ st' ltac:(lia) ltac:(discriminate) Hrun)
    as (v & rest & Hv).
  exists st', v, rest. split; [exact Hrun|exact Hv].
Defined.

(** ** The number of parameters *)

Section ParameterCount.
#[local] Open Scope nat_scope.

Lemma numel_shape (r c : nat) (a : mat) :
  Parameters.mat_shape r c a -> Parameters.numel a = r * c.
Proof.
  intros [<- Hrows]. unfold Parameters.numel.
  induction Hrows as [|v a Hv _ IH]; simpl; [reflexivity|]. rewrite IH, Hv. lia.
Qed.

Lemma of_linear_shape (n_in n_out : nat) (l : Linear) :
  Parameters.linear_shape n_in n_out l ->
  Parameters.of_linear l = n_out * n_in + n_out.
Proof.
  intros (Hw & b & Hb & Hlen). unfold Parameters.of_linear.
  rewrite (numel_shape _ _ _ Hw), Hb. simpl. lia.
Qed.

Lemma of_block_shape (c : ModelConfig) (b : Block.t) :
  Parameters.block_shape c b ->
  Parameters.of_block b = 13 * (emb_dim c * emb_dim c) + 14 * emb_dim c.
Proof.
  intros (_ & _ & _ & Hin & Hout & Hproj & Hfc1 & Hfc2 & [Hs1 Hs2] & [Hm1 Hm2]).
  unfold Parameters.of_block, Parameters.of_attention, Parameters.of_mha,
    Parameters.of_layer_norm.
  rewrite (of_linear_shape _ _ _ Hin), (of_linear_shape _ _ _ Hout),
    (of_linear_shape _ _ _ Hproj), (of_linear_shape _ _ _ Hfc1),
    (of_linear_shape _ _ _ Hfc2), Hs1, Hs2, Hm1, Hm2.
  lia.
Qed.

Lemma of_blocks_shape (c : ModelConfig) (bs : list Block.t) :
  Forall (Parameters.block_shape c) bs ->
  sum_list (map Parameters.of_block bs)
  = length bs * (13 * (emb_dim c * emb_dim c) + 14 * emb_dim c).
Proof.
  induction 1 as [|b bs Hb _ IH]; [reflexivity|].
  change (Parameters.of_block b + sum_list (map Parameters.of_block bs)
          = S (length bs) * (13 * (emb_dim c * emb_dim c) + 14 * emb_dim c)).
  rewrite IH, (of_block_shape c b Hb), Nat.mul_succ_l. lia.
Qed.

(** The total that [count_parameters] reports for a freshly constructed
    model is, with [E = emb_dim]:
    [2 * vocab * E + context * E + layers * (13 * E * E + 14 * E) + 2 * E];
    the two embedding tables and the output head are counted separately,
    no weight being shared, and the attention mask is not counted.  A
    model of these shapes is one the theorems on [GPT.built] apply to. *)
Theorem count_parameters_formula (c : ModelConfig) (m : GPT.t) :
  Parameters.initialised c m ->
  Parameters.count_parameters m
  = 2 * (vocab c * emb_dim c) + context c * emb_dim c
    + layers c * (13 * (emb_dim c * emb_dim c) + 14 * emb_dim c)
    + 2 * emb_dim c
  /\ GPT.built c m.
Proof.
  intros (Hpos & Htok & Hlen & Hblocks & Hout & Hbias & [Hn1 Hn2]). split.
  - unfold Parameters.count_parameters, Parameters.of_linear,
      Parameters.of_layer_norm.
    rewrite (numel_shape _ _ _ Hpos), (numel_shape _ _ _ Htok),
      (numel_shape _ _ _ Hout), Hbias, Hn1, Hn2. simpl.
    rewrite (of_blocks_shape c _ Hblocks), Hlen. lia.
  - unfold GPT.built. destruct Hpos as [Hp _], Htok as [Ht _], Hout as [Ho _].
    repeat split; try assumption.
    eapply Forall_impl; [exact Hblocks|]. simpl. intros b Hb. apply Hb.
Qed.
End ParameterCount.

Lemma example_dense_shape (n_in n_out : nat) (w : mat) (b : vec) :
  length w = n_out -> forallb (fun v => Nat.eqb (length v) n_in) w = true ->
  length b = n_out ->
  Parameters.linear_shape n_in n_out (Examples.dense w b).
Proof.
  intros Hw Hrows Hb. split; [split; [exact Hw|]|exists b; split; [reflexivity|exact Hb]].
  apply Forall_forall. intros v Hv.
  apply Nat.eqb_eq. revert Hrows. rewrite forallb_forall. intros Hrows.
  apply Hrows, list_elem_of_In, Hv.
Qed.

Lemma example_model_initialised : Parameters.initialised Examples.config Examples.model.
Proof.
  split; [split; [reflexivity|repeat constructor]|].
  split; [split; [reflexivity|repeat constructor]|].
  split; [reflexivity|].
  split.
  - apply Forall_cons. split; [|constructor].
    split; [reflexivity|]. split; [reflexivity|]. split; [reflexivity|].
    repeat (split; [apply example_dense_shape; reflexivity|]).
    split; split; reflexivity.
  - split; [split; [reflexivity|repeat constructor]|].
    split; [reflexivity|split; reflexivity].
Qed.

Lemma count_parameters_formula_witness :
  Parameters.count_parameters Examples.model
  = 2 * (6 * 1) + 2 * 1 + 1 * (13 * (1 * 1) + 14 * 1) + 2 * 1
  /\ GPT.built Examples.config Examples.model.
Proof.
  exact (count_parameters_formula Examples.config Examples.model
           example_model_initialised).
Defined.
